(** * A shallow embedding of the [dawg] package (dawg.go, node.go)

    The builder keeps a heap of [Node]s that are shared through pointers; the
    model makes the heap explicit. Address [0] is the root node, which is
    stored inline in the [DAWG] struct ([&d.root]); address [k] is the node
    returned by the [k]-th call of [d.node()].

    A pointer [*Node] is the address of the node, a [nat]. Go's [int] is a
    [Z] without wrap-around: the only arithmetic on it is [d.seq++], one per
    allocated node. A [byte] is its value, an [N], and a Go [string] is the
    list of its bytes; what is proved for all lists holds for the lists of
    values below 256. *)

From Stdlib Require Import ZArith NArith List Lia String Ascii.
From stdpp Require Import base option list sorting numbers gmap fin_maps relations.

Open Scope Z_scope.

(** ** Data model (node.go, dawg.go) *)

(** [type Node struct { ID int; F bool; C map[byte]*Node }].
    A nil map and an empty map read the same; both are [∅]. *)
Record Node := mkNode {
  ID : Z;
  F : bool;
  C : gmap N nat
}.

(** [type ArrayNode struct { Index int; B byte; F bool; EOL bool }] *)
Module ArrayNode.
Record t := mk {
  Index : Z;
  B : N;
  F : bool;
  EOL : bool
}.
End ArrayNode.

(** [type unchecked struct { p *Node; c *Node; b byte }] *)
Module Unchecked.
Record t := mk {
  p : nat;
  c : nat;
  b : N
}.
End Unchecked.

(** [type DAWG struct { root Node; prevWord string; seq int;
                        unchecked []unchecked; minimized map[string]*Node }]
    together with the nodes it owns: [heap d !! 0] is [d.root]. *)
Record DAWG := mkDAWG {
  heap : list Node;
  prevWord : list N;
  seq : Z;
  unchecked : list Unchecked.t;
  minimized : gmap (list N) nat
}.

(** The zero value [var d DAWG]. *)
Definition zeroNode : Node := mkNode 0 false ∅.
Definition newDAWG : DAWG := mkDAWG [zeroNode] [] 0 [] ∅.

Definition root : nat := 0%nat.

(** Pointer dereference. Every pointer the program holds comes from an
    allocation, so the default is never read on a closed heap. *)
Definition deref (h : list Node) (q : nat) : Node := default zeroNode (h !! q).

(** The ways a call can stop without returning. *)
Inductive panic :=
| ErrOrder      (* panic("words must be inserted in alphabetical order") *)
| ErrKeySize    (* the length check at the end of [key] *)
| StaleSlice.   (* [d.unchecked[:to]] with [to] beyond the length: not modelled *)

Inductive result (A : Type) :=
| Ok (a : A)
| Panic (e : panic).
Arguments Ok {A} a.
Arguments Panic {A} e.

#[global] Instance result_bind : MBind result := λ A B k r,
  match r with
  | Ok a => k a
  | Panic e => Panic e
  end.

(** ** node.go *)

(** [numDigits]: the loop [for n > 9 { num++; n /= 10 }]. The argument
    shrinks at each round, so [Z.to_nat n] rounds are always enough. *)
Fixpoint numDigits_loop (fuel : nat) (num n : Z) : Z :=
  match fuel with
  | O => num
  | S fuel' => if 9 <? n then numDigits_loop fuel' (num + 1) (n ÷ 10) else num
  end.

Definition numDigits (n : Z) : Z := numDigits_loop (Z.to_nat n) 1 n.

(** [sortedKeys]: the keys of the map in ascending order. The keys of a map
    are distinct, so every sorting algorithm returns the same slice. *)
Definition sortedKeys (m : gmap N nat) : list N :=
  merge_sort N.le (map fst (map_to_list m)).

(** [strconv.AppendInt(buf, i, 10)] of the Go standard library: the decimal
    digits of [i], most significant first, after a minus sign when [i < 0]. *)
Fixpoint digits_loop (fuel : nat) (n : Z) (acc : list N) : list N :=
  match fuel with
  | O => acc
  | S fuel' =>
      let acc' := (48 + Z.to_N (n mod 10))%N :: acc in
      if n <? 10 then acc' else digits_loop fuel' (n / 10) acc'
  end.

Definition digits (n : Z) : list N := digits_loop (S (Z.to_nat n)) n [].

Definition AppendInt (i : Z) : list N :=
  if i <? 0 then 45%N :: digits (- i) else digits i.

Definition childID (h : list Node) (n : Node) (k : N) : Z :=
  match C n !! k with
  | Some q => ID (deref h q)
  | None => 0
  end.

(** [func (n *Node) key() string] *)
Definition key_size (h : list Node) (n : Node) : Z :=
  2 + foldr (fun kv acc => acc + (numDigits (ID (deref h kv.2)) + 1)) 0 (map_to_list (C n))
    + Z.of_nat (size (C n)).

Definition key_buf (h : list Node) (n : Node) : list N :=
  let keys := sortedKeys (C n) in
  [(if F n then 49 else 48)%N; 95%N] ++ keys
    ++ concat (map (fun k => 95%N :: AppendInt (childID h n k)) keys).

Definition key (h : list Node) (n : Node) : result (list N) :=
  let buf := key_buf h n in
  if decide (Z.of_nat (length buf) = key_size h n) then Ok buf else Panic ErrKeySize.

(** ** dawg.go: the builder *)

(** [word <= d.prevWord]: Go compares strings byte by byte; a proper prefix
    is smaller. *)
Fixpoint str_le (x y : list N) : bool :=
  match x, y with
  | [], _ => true
  | _ :: _, [] => false
  | a :: x', b :: y' => if (a <? b)%N then true else if (a =? b)%N then str_le x' y' else false
  end.

Definition str_lt (x y : list N) : bool := negb (str_le y x).

(** [lcpLength]: the first index at which the two strings differ, or the
    length of the shorter one. *)
Fixpoint lcpLength (x y : list N) : nat :=
  match x, y with
  | a :: x', b :: y' => if (a =? b)%N then S (lcpLength x' y') else O
  | _, _ => O
  end.

Definition set_heap (d : DAWG) (h : list Node) : DAWG :=
  mkDAWG h (prevWord d) (seq d) (unchecked d) (minimized d).

(** [n.C[k] = q] for the node at address [a], which is allocated wherever
    the program writes. *)
Definition set_child (h : list Node) (a : nat) (k : N) (q : nat) : list Node :=
  let n := deref h a in <[a := mkNode (ID n) (F n) (<[k := q]> (C n))]> h.

(** [n.F = true] for the node at address [a]. *)
Definition set_final (h : list Node) (a : nat) : list Node :=
  let n := deref h a in <[a := mkNode (ID n) true (C n)]> h.

(** [func (d *DAWG) node() *Node]: [d.seq++; return &Node{ID: d.seq}] *)
Definition node (d : DAWG) : DAWG * nat :=
  let s := seq d + 1 in
  (mkDAWG (heap d ++ [mkNode s false ∅]) (prevWord d) s (unchecked d) (minimized d),
   length (heap d)).

(** One round of the loop of [minimize], for the entry [n = d.unchecked[i]]. *)
Definition minimize_step (hm : list Node * gmap (list N) nat) (n : Unchecked.t)
    : result (list Node * gmap (list N) nat) :=
  let '(h, mz) := hm in
  k ← key h (deref h (Unchecked.c n));
  match mz !! k with
  | Some m => Ok (set_child h (Unchecked.p n) (Unchecked.b n) m, mz)
  | None => Ok (h, <[k := Unchecked.c n]> mz)
  end.

Fixpoint minimize_loop (hm : list Node * gmap (list N) nat) (ns : list Unchecked.t)
    : result (list Node * gmap (list N) nat) :=
  match ns with
  | [] => Ok hm
  | n :: ns' => hm' ← minimize_step hm n; minimize_loop hm' ns'
  end.

(** [func (d *DAWG) minimize(to int)]. The loop runs over the entries
    [len-1, ..., to]; then [d.unchecked = d.unchecked[:to]]. With [to] beyond
    the length Go would re-slice into the spare capacity of the backing
    array; this happens only when [Insert] is called after [Finish], which
    the documentation of [Insert] rules out, and the model stops there. *)
Definition minimize (d : DAWG) (to : nat) : result DAWG :=
  hm ← minimize_loop (heap d, minimized d) (rev (drop to (unchecked d)));
  if decide (to ≤ length (unchecked d))%nat
  then Ok (mkDAWG hm.1 (prevWord d) (seq d) (take to (unchecked d)) hm.2)
  else Panic StaleSlice.

(** One round of the loop of [Insert], for the byte [k = word[i]]. *)
Definition extend (dc : DAWG * nat) (k : N) : DAWG * nat :=
  let '(d, curr) := dc in
  let '(d1, next) := node d in
  (mkDAWG (set_child (heap d1) curr k next) (prevWord d1) (seq d1)
          (unchecked d1 ++ [Unchecked.mk curr next k]) (minimized d1),
   next).

(** [func (d *DAWG) Insert(word string)] *)
Definition Insert (d : DAWG) (word : list N) : result DAWG :=
  if str_le word (prevWord d) then Panic ErrOrder else
  let lcpLen := lcpLength word (prevWord d) in
  d1 ← minimize d lcpLen;
  let d2 := mkDAWG (heap d1) word (seq d1) (unchecked d1) (minimized d1) in
  let curr := match last (unchecked d2) with
              | Some u => Unchecked.c u
              | None => root
              end in
  let '(d3, curr') := foldl extend (d2, curr) (drop lcpLen word) in
  Ok (set_heap d3 (set_final (heap d3) curr')).

(** [func (d *DAWG) Finish()] *)
Definition Finish (d : DAWG) : result DAWG := minimize d 0.

(** ** dawg.go: queries *)

(** The loop of [Lookup], from the node at address [curr]. *)
Fixpoint lookup_from (h : list Node) (curr : nat) (word : list N) : bool :=
  match word with
  | [] => F (deref h curr)
  | k :: word' =>
      match C (deref h curr) !! k with
      | Some next => lookup_from h next word'
      | None => false
      end
  end.

(** [func (d *DAWG) Lookup(word string) bool] *)
Definition Lookup (d : DAWG) (word : list N) : bool := lookup_from (heap d) root word.

(** The first loop of [Lookup] and [LookupPrefix]: the node reached from
    [curr] along [word], if every edge exists. *)
Fixpoint walk (h : list Node) (curr : nat) (word : list N) : option nat :=
  match word with
  | [] => Some curr
  | k :: word' =>
      match C (deref h curr) !! k with
      | Some next => walk h next word'
      | None => None
      end
  end.

(** The second loop of [LookupPrefix]. [for b, next := range curr.C] visits
    the entries of the map in an order that Go leaves unspecified and that
    changes from one run to the next; the body leaves after the first entry.
    The run is driven by [picks]: each round takes the entry at the picked
    position (modulo the number of entries) of the map. [None] means that
    the loop is still running when the picks are used up. *)
Fixpoint complete (h : list Node) (picks : list nat) (curr : nat) (buf : list N)
    : option (list N) :=
  if F (deref h curr) then Some buf else
  match picks with
  | [] => None
  | i :: picks' =>
      let es := map_to_list (C (deref h curr)) in
      match es !! (i mod length es)%nat with
      | Some (k, next) => complete h picks' next (buf ++ [k])
      | None => complete h picks' curr buf   (* empty map: the inner loop does nothing *)
      end
  end.

(** [func (d *DAWG) LookupPrefix(prefix string) (string, bool)] *)
Definition LookupPrefix (picks : list nat) (d : DAWG) (prefix : list N)
    : option (list N * bool) :=
  match walk (heap d) root prefix with
  | None => Some ([], false)
  | Some curr =>
      match complete (heap d) picks curr [] with
      | Some buf => Some (buf, true)
      | None => None
      end
  end.

(** ** dawg.go: the exporter *)

(** The local variables of [Flatten]. [seen] only ever stores [true], so it
    is the set of its keys. *)
Record FState := mkFState {
  f_result : list ArrayNode.t;
  f_to : list Z;
  f_hasChildren : list bool;
  f_seen : gset Z;
  f_indexes : gmap Z Z;
  f_index : Z;
  f_nodes : list nat
}.

(** The inner loop [for j, b := range keys] for the node [nd]; [nkeys] is
    [len(keys)] and [j] the position of the first key of [keys]. *)
Fixpoint flatten_edges (h : list Node) (nd : Node) (nkeys : nat) (j : nat)
    (keys : list N) (st : FState) : FState :=
  match keys with
  | [] => st
  | k :: keys' =>
      match C nd !! k with
      | None => st   (* [k] is a key of [nd.C] *)
      | Some cp =>
          let cn := deref h cp in
          let fresh := bool_decide (ID cn ∉ f_seen st) in
          flatten_edges h nd nkeys (S j) keys'
            (mkFState
               (f_result st ++
                  [ArrayNode.mk 0 k (F cn) (bool_decide (Z.of_nat j = Z.of_nat nkeys - 1))])
               (f_to st ++ [ID cn])
               (f_hasChildren st ++ [bool_decide (0 < size (C cn))%nat])
               (if fresh then {[ID cn]} ∪ f_seen st else f_seen st)
               (f_indexes st)
               (f_index st + 1)
               (if fresh then f_nodes st ++ [cp] else f_nodes st))
      end
  end.

(** One round of the outer loop, for [node := nodes[i]]. *)
Definition flatten_visit (h : list Node) (a : nat) (st : FState) : FState :=
  let nd := deref h a in
  let keys := sortedKeys (C nd) in
  flatten_edges h nd (length keys) 0 keys
    (mkFState (f_result st) (f_to st) (f_hasChildren st) (f_seen st)
              (<[ID nd := f_index st]> (f_indexes st)) (f_index st) (f_nodes st)).

(** The outer loop [for i := 0; i < len(nodes); i++]; [nodes] grows while the
    loop runs. [None]: still running after [fuel] rounds. *)
Fixpoint flatten_loop (fuel : nat) (h : list Node) (i : nat) (st : FState)
    : option FState :=
  match f_nodes st !! i with
  | None => Some st
  | Some a =>
      match fuel with
      | O => None
      | S fuel' => flatten_loop fuel' h (S i) (flatten_visit h a st)
      end
  end.

(** The last loop: [result[i].Index = indexes[to[i]]] where
    [hasChildren[i]]. The three slices have the same length. *)
Fixpoint flatten_fix (idx : gmap Z Z) (res : list ArrayNode.t) (to : list Z)
    (hc : list bool) : list ArrayNode.t :=
  match res, to, hc with
  | e :: res', t :: to', hch :: hc' =>
      (if hch
       then ArrayNode.mk (default 0 (idx !! t)) (ArrayNode.B e) (ArrayNode.F e) (ArrayNode.EOL e)
       else e) :: flatten_fix idx res' to' hc'
  | _, _, _ => []
  end.

(** [func (d *DAWG) Flatten() []ArrayNode] *)
Definition Flatten (fuel : nat) (d : DAWG) : option (list ArrayNode.t) :=
  match flatten_loop fuel (heap d) 0 (mkFState [] [] [] ∅ ∅ 0 [root]) with
  | Some st => Some (flatten_fix (f_indexes st) (f_result st) (f_to st) (f_hasChildren st))
  | None => None
  end.

(** ** Building an automaton from a list of words *)

Fixpoint insert_all (d : DAWG) (ws : list (list N)) : result DAWG :=
  match ws with
  | [] => Ok d
  | w :: ws' => d' ← Insert d w; insert_all d' ws'
  end.

(** [Insert] for each word, then [Finish] (the loop of [FromReader]). *)
Definition build (ws : list (list N)) : result DAWG :=
  d ← insert_all newDAWG ws; Finish d.

(** Words are written as string literals in the examples. *)
Definition bytes (s : string) : list N := map N_of_ascii (list_ascii_of_string s).


(** ** Auxiliary notions for the properties *)

(** The bytes ['0'] to ['9']. *)
Definition is_digit (x : N) : Prop := (48 ≤ x ≤ 57)%N.

Definition sumZ (l : list Z) : Z := foldr Z.add 0 l.

(** The part of the signature after the labels: [_id] for each child. *)
Definition id_tail (ids : list Z) : list N :=
  concat (map (λ i, 95%N :: AppendInt i) ids).

(** The identities of the children of a node, in ascending label order. *)
Definition childIDs (h : list Node) (n : Node) : list Z :=
  map (childID h n) (sortedKeys (C n)).

(** ** Invariants of the builder *)

(** Every node carries its address as [ID]: [d.seq] counts the allocations. *)
Definition heap_ids (h : list Node) : Prop :=
  ∀ i n, h !! i = Some n → ID n = Z.of_nat i.

(** Edges point to allocated nodes. *)
Definition heap_closed (h : list Node) : Prop :=
  ∀ i n k q, h !! i = Some n → C n !! k = Some q → (q < length h)%nat.

(** The nodes of the in-progress chain: the root, then the [c] of each entry
    of [d.unchecked]. *)
Definition path_nodes (us : list Unchecked.t) : list nat :=
  root :: map Unchecked.c us.

(** The node [Insert] continues from: [d.unchecked[len-1].c], or the root. *)
Definition last_node (us : list Unchecked.t) : nat :=
  match last us with
  | Some u => Unchecked.c u
  | None => root
  end.

Definition labels (us : list Unchecked.t) : list N := map Unchecked.b us.

(** A node that is terminal or has an edge. *)
Definition live (h : list Node) (q : nat) : Prop :=
  F (deref h q) = true ∨ C (deref h q) ≠ ∅.

(** The invariant of the builder between two rounds of its loops. [reg]
    lists the registered (canonical) nodes in the order of registration. *)
Record GInv (d : DAWG) (reg : list nat) : Prop := mkGInv {
  g_ids : heap_ids (heap d);
  g_len : Z.of_nat (length (heap d)) = seq d + 1;
  g_closed : heap_closed (heap d);
  g_root_F : F (deref (heap d) root) = false;
  g_path_lt : ∀ q, q ∈ path_nodes (unchecked d) → (q < length (heap d))%nat;
  g_path_nodup : NoDup (path_nodes (unchecked d));
  g_path_reg : ∀ q, q ∈ path_nodes (unchecked d) → q ∉ reg;
  g_labels : labels (unchecked d) `prefix_of` prevWord d;
  g_chain : ∀ i u, unchecked d !! i = Some u →
      path_nodes (unchecked d) !! i = Some (Unchecked.p u) ∧
      C (deref (heap d) (Unchecked.p u)) !! Unchecked.b u = Some (Unchecked.c u);
  g_chain_children : ∀ i u k q, unchecked d !! i = Some u →
      C (deref (heap d) (Unchecked.p u)) !! k = Some q →
      (k = Unchecked.b u ∧ q = Unchecked.c u) ∨ ((k < Unchecked.b u)%N ∧ q ∈ reg);
  g_last_children : ∀ k q,
      C (deref (heap d) (last_node (unchecked d))) !! k = Some q → q ∈ reg;
  g_reg_nodup : NoDup reg;
  g_reg_lt : ∀ m, m ∈ reg → (m < length (heap d))%nat;
  g_reg_min : ∀ m, m ∈ reg ↔ ∃ k, minimized d !! k = Some m;
  g_min_key : ∀ k m, minimized d !! k = Some m →
      key (heap d) (deref (heap d) m) = Ok k;
  g_reg_children : ∀ j m k q, reg !! j = Some m →
      C (deref (heap d) m) !! k = Some q → q ∈ take j reg;
  g_reg_live : ∀ m, m ∈ reg → live (heap d) m
}.

(** The invariant between two calls of [Insert], after the words [ws]. *)
Record Inv (d : DAWG) (reg : list nat) (ws : list (list N)) : Prop := mkInv {
  i_ginv : GInv d reg;
  i_labels : labels (unchecked d) = prevWord d;
  i_last_leaf : C (deref (heap d) (last_node (unchecked d))) = ∅;
  i_prev : prevWord d = default [] (last ws);
  i_lang : ∀ w, Lookup d w = true ↔ w ∈ ws;
  i_last_final : unchecked d ≠ [] →
      F (deref (heap d) (last_node (unchecked d))) = true
}.

(** The graph of the automaton. *)
Definition edge (h : list Node) (a q : nat) : Prop :=
  ∃ k, C (deref h a) !! k = Some q.

(** A small heap with two nodes that share a child, for the examples. *)
Definition ex_heap : list Node :=
  [mkNode 0 false {[97%N := 2%nat]}; mkNode 1 false {[97%N := 2%nat]}; mkNode 2 true ∅].

(** What [minimize] leaves as it was: the size of the heap, the flags, the
    labels of every node and every lookup. *)
Definition heap_frame (h h' : list Node) : Prop :=
  length h' = length h ∧
  (∀ q, F (deref h' q) = F (deref h q)) ∧
  (∀ q, dom (C (deref h' q)) = dom (C (deref h q))) ∧
  (∀ w q, lookup_from h' q w = lookup_from h q w).

(** ** Orders on words and states of the builder *)

(** The lexicographic order, stated on its own: [x] is a proper prefix of
    [y], or the two differ first at a byte that is smaller in [x]. *)
Definition lex_lt (x y : list N) : Prop :=
  (∃ r, r ≠ [] ∧ y = x ++ r) ∨
  (∃ pre a b x' y', x = pre ++ a :: x' ∧ y = pre ++ b :: y' ∧ (a < b)%N).

(** The words of [ws] are strictly increasing and above [prev]. *)
Fixpoint ascending (prev : list N) (ws : list (list N)) : bool :=
  match ws with
  | [] => true
  | w :: ws' => str_lt prev w && ascending w ws'
  end.

(** The states the builder reaches when it is used as documented: any number
    of [Insert], then possibly [Finish]. *)
Definition building (d : DAWG) : Prop := ∃ ws, insert_all newDAWG ws = Ok d.
Definition finished (d : DAWG) : Prop := ∃ ws, build ws = Ok d.
Definition reachable (d : DAWG) : Prop := building d ∨ finished d.

(** The position of the first occurrence of [q] in [l]. *)
Fixpoint index_of (q : nat) (l : list nat) : nat :=
  match l with
  | [] => O
  | x :: l' => if decide (x = q) then O else S (index_of q l')
  end.

(** A measure that decreases along every edge of the automaton: a
    registered node has its place in the order of registration, and a node
    of the chain lies above all registered nodes, the deeper the lower. *)
Definition rank (reg : list nat) (us : list Unchecked.t) (q : nat) : nat :=
  if decide (q ∈ reg) then index_of q reg
  else (length reg + S (length us) - index_of q (path_nodes us))%nat.

(** The nodes the builder knows: registered, or on the chain. *)
Definition known (reg : list nat) (us : list Unchecked.t) (q : nat) : Prop :=
  q ∈ reg ∨ q ∈ path_nodes us.

(** The words of the running example. *)
Definition ex_words : list (list N) := [bytes "a"; bytes "are"; bytes "as"; bytes "at"].

(** The automaton of the running example, finished. *)
Definition ex_dawg : DAWG :=
  match build ex_words with
  | Ok d => d
  | Panic _ => newDAWG
  end.

(** ** The flattened array, described on its own *)

(** The outgoing edges of the node at [a], in ascending label order. *)
Definition out_edges (h : list Node) (a : nat) : list (N * nat) :=
  (λ k, (k, default root (C (deref h a) !! k))) <$> sortedKeys (C (deref h a)).

Definition kids (h : list Node) (a : nat) : list nat := snd <$> out_edges h a.

(** The elements of [l] that are not in [seen], each at its first
    occurrence. *)
Fixpoint dedup_from (seen : gset nat) (l : list nat) : list nat :=
  match l with
  | [] => []
  | x :: l' =>
      if decide (x ∈ seen) then dedup_from seen l'
      else x :: dedup_from ({[x]} ∪ seen) l'
  end.

(** Breadth-first order from the root: the root, then every other node at
    the place where it is first met as the target of an edge, the edges
    taken node by node in this very order and label by label. *)
Definition bfs_order (h : list Node) (order : list nat) : Prop :=
  order = root :: dedup_from ∅ (concat (kids h <$> order)).

(** The number of edges of the nodes of [l]. *)
Definition edge_count (h : list Node) (l : list nat) : nat :=
  length (concat (kids h <$> l)).

(** The position, in the flattened sequence, of the first edge of the node
    [q]: the number of edges of the nodes before [q] in [order]. *)
Fixpoint offset (h : list Node) (order : list nat) (q : nat) : nat :=
  match order with
  | [] => O
  | a :: order' =>
      if decide (a = q) then O else (length (kids h a) + offset h order' q)%nat
  end.

Definition has_children (h : list Node) (q : nat) : bool :=
  bool_decide (0 < size (C (deref h q)))%nat.

(** The entry of the [j]-th of the [n] edges of a node. *)
Definition entry_of (h : list Node) (child_index : nat → Z) (n j : nat) (e : N * nat)
    : ArrayNode.t :=
  ArrayNode.mk (child_index e.2) e.1 (F (deref h e.2))
               (bool_decide (Z.of_nat j = Z.of_nat n - 1)).

(** The child index of an entry whose target is [q]. *)
Definition child_index (h : list Node) (order : list nat) (q : nat) : Z :=
  if has_children h q then Z.of_nat (offset h order q) else 0.

(** The entries of the node at [a]. *)
Definition entries (h : list Node) (ci : nat → Z) (a : nat) : list ArrayNode.t :=
  imap (entry_of h ci (length (out_edges h a))) (out_edges h a).

(** The flattened sequence for the nodes in the order [order]. *)
Definition flat (h : list Node) (order : list nat) : list ArrayNode.t :=
  concat (entries h (child_index h order) <$> order).

(** Modelled from the spec: the traversal of the flattened array, which the
    repository describes but does not implement. To follow an edge, scan the
    entries from the first-edge index of the node until the matching label
    or the end-of-list flag. *)
Fixpoint scan (es : list ArrayNode.t) (k : N) : option ArrayNode.t :=
  match es with
  | [] => None
  | e :: es' =>
      if (ArrayNode.B e =? k)%N then Some e
      else if ArrayNode.EOL e then None
      else scan es' k
  end.

(** Modelled from the spec: the membership test on the flattened array.
    [first] is the index of the first edge of the current node, absent for a
    leaf (the child index 0 of an entry means absent), and [fin] is the
    terminal flag of the current node, taken from the entry that led to it. *)
Fixpoint array_walk (arr : list ArrayNode.t) (first : option Z) (fin : bool)
    (w : list N) : bool :=
  match w with
  | [] => fin
  | k :: w' =>
      match first with
      | None => false
      | Some i =>
          match scan (drop (Z.to_nat i) arr) k with
          | Some e =>
              array_walk arr
                (if decide (ArrayNode.Index e = 0) then None else Some (ArrayNode.Index e))
                (ArrayNode.F e) w'
          | None => false
          end
      end
  end.

(** Modelled from the spec: entry 0 is the first edge of the root, which is
    not terminal. *)
Definition array_lookup (arr : list ArrayNode.t) (w : list N) : bool :=
  array_walk arr (Some 0) false w.

(** ** Invariants of the loops of [Flatten] *)

Definition ID_of (h : list Node) (q : nat) : Z := ID (deref h q).

(** The entries as the loops emit them, before the last loop fills in the
    child indices. *)
Definition entries0 (h : list Node) (a : nat) : list ArrayNode.t :=
  entries h (λ _, 0) a.

(** The state of [Flatten] after the targets [T] have been met and the
    entries [R] have been emitted. *)
Record EInv (h : list Node) (T : list nat) (R : list ArrayNode.t) (st : FState)
    : Prop := mkEInv {
  ei_nodes : f_nodes st = root :: dedup_from ∅ T;
  ei_seen : f_seen st = list_to_set (ID_of h <$> T);
  ei_to : f_to st = ID_of h <$> T;
  ei_hc : f_hasChildren st = has_children h <$> T;
  ei_result : f_result st = R;
  ei_index : f_index st = Z.of_nat (length T);
  ei_valid : ∀ c, c ∈ T → (c < length h)%nat ∧ c ≠ root
}.

(** The state of [Flatten] when the nodes [P] have been visited. *)
Record OInv (h : list Node) (P : list nat) (st : FState) : Prop := mkOInv {
  oi_einv : EInv h (concat (kids h <$> P)) (concat (entries0 h <$> P)) st;
  oi_prefix : P = take (length P) (f_nodes st);
  oi_reach : ∀ a, a ∈ f_nodes st → rtc (edge h) root a;
  oi_indexes : ∀ j a, P !! j = Some a →
      f_indexes st !! ID_of h a = Some (Z.of_nat (edge_count h (take j P)))
}.

(** The state of the array traversal that stands for the node [a]: the
    offset of its first entry, or nothing when it has no edge. *)
Definition array_state (h : list Node) (order : list nat) (a : nat) : option Z :=
  if has_children h a then Some (Z.of_nat (offset h order a)) else None.

(** Every node the builder knows is terminal or has an edge. *)
Definition all_live (d : DAWG) (reg : list nat) : Prop :=
  ∀ q, known reg (unchecked d) q → live (heap d) q.

(** ** dawg.go: the remaining functions *)

(** [func min(a, b int) int] *)
Definition min_int (a b : Z) : Z := if a <? b then a else b.

(** [func lcpLength(a, b string) int], with its loop over the index [i]:
    [for i := 0; i < n; i++ { if a[i] != b[i] { return i } }; return n].
    An index below [n] is within both strings. *)
Fixpoint lcpLength_loop (rounds : nat) (a b : list N) (i n : nat) : nat :=
  match rounds with
  | O => n
  | S rounds' =>
      if (i <? n)%nat then
        if decide (a !! i = b !! i) then lcpLength_loop rounds' a b (S i) n else i
      else n
  end.

Definition lcpLength_go (a b : list N) : nat :=
  let n := Z.to_nat (min_int (Z.of_nat (length a)) (Z.of_nat (length b))) in
  lcpLength_loop n a b 0 n.

(** [func (d *DAWG) NodeCount() int]: [len(d.minimized) + 1] *)
Definition NodeCount (d : DAWG) : Z := Z.of_nat (size (minimized d)) + 1.

(** [func (d *DAWG) EdgeCount() int]: [len(d.root.C)], plus [len(n.C)] for
    every node [n] of [d.minimized]. The order in which the map is ranged
    over does not change a sum. *)
Definition EdgeCount (d : DAWG) : Z :=
  foldr (λ kv count, count + Z.of_nat (size (C (deref (heap d) kv.2))))
        (Z.of_nat (size (C (deref (heap d) root))))
        (map_to_list (minimized d)).

(** [sort.Strings]: the strings in increasing order. Equal strings are the
    same string, so every sorting algorithm returns the same slice. *)
Definition str_le_rel (x y : list N) : Prop := str_le x y = true.

#[global] Instance str_le_rel_dec : RelDecision str_le_rel :=
  λ x y, decide (str_le x y = true).

Definition sort_strings (words : list (list N)) : list (list N) :=
  merge_sort str_le_rel words.

(** [func FromReader(r io.Reader)], which returns a [DAWG] pointer and an
    error. The reader is seen through what the scanner makes of it: [words]
    are the lines it yields and [err] is [s.Err()] after the last one. The
    call returns the error, or the automaton, or it panics in [Insert]. *)
Definition FromReader {E : Type} (words : list (list N)) (err : option E)
    : result (DAWG + E) :=
  match err with
  | Some e => Ok (inr e)
  | None =>
      d ← insert_all newDAWG (sort_strings words);
      d' ← Finish d;
      Ok (inl d')
  end.

(** [func isPrint(b byte) bool] *)
Definition isPrint (b : N) : bool := (32 <=? b)%N && (b <=? 126)%N.

(** One digit of [fmt.Sprintf] with the verb [%02X]: upper case. *)
Definition hex_digit (n : N) : N := (if n <? 10 then 48 + n else 55 + n)%N.

(** The label that [PrintDOT] writes for an edge with the byte [b]: a
    backslash and the quote for the quote, the byte itself when [isPrint]
    holds ([%c] writes a byte below 128 as itself), and otherwise its two
    hexadecimal digits ([%02X]). *)
Definition dot_label (b : N) : list N :=
  if (b =? 34)%N then [92; 34]%N
  else if isPrint b then [b]
  else [hex_digit (b / 16); hex_digit (b mod 16)].

(** ** Package [stringutil] *)

(** [func StringArgsToBytesArgs(args []string) [][]byte]:
    [a := make([][]byte, len(args))], then [a[k] = []byte(v)] for every
    index [k] and string [v] of [args]. The index is always within [a]. *)
Definition StringArgsToBytesArgs (args : list (list N)) : list (list N) :=
  foldl (λ a kv, <[kv.1 := kv.2]> a) (replicate (length args) []) (imap pair args).

(** ** Package [main]: the loop of [func sum(s []int, c chan int)] *)

Module Main.

(** The value of an [int] after an addition: two's complement on [bits]
    bits, 32 or 64 according to the platform. *)
Definition wrap (bits : Z) (z : Z) : Z :=
  (z + 2 ^ (bits - 1)) mod 2 ^ bits - 2 ^ (bits - 1).

(** [sum := 0; for _, v := range s { sum += v }]: the value of the local
    variable [sum] when the function reaches its send statement. *)
Definition sum_loop (bits : Z) (s : list Z) : Z :=
  foldl (λ acc v, wrap bits (acc + v)) 0 s.

End Main.

(** ** Auxiliary notions for the further properties *)

(** The words that begin with [p]. *)
Definition has_prefix (p w : list N) : Prop := ∃ s, w = p ++ s.

(** The sum of a list of integers, without wrap-around. *)
Definition total (s : list Z) : Z := foldr Z.add 0 s.

(** The registered nodes can be reached from the root. *)
Definition reg_reachable (d : DAWG) : Prop :=
  ∀ k m, minimized d !! k = Some m → rtc (edge (heap d)) root m.

(** The automaton of the running example before [Finish]. *)
Definition ex_building : DAWG :=
  match insert_all newDAWG ex_words with
  | Ok d => d
  | Panic _ => newDAWG
  end.

(** The total length of the words of [ws]. *)
Definition total_length (ws : list (list N)) : nat :=
  foldr (λ w acc, (length w + acc)%nat) O ws.

(** The running example after its first two words, and after the third. *)
Definition ex_two : DAWG :=
  match insert_all newDAWG [bytes "a"; bytes "are"] with
  | Ok d => d
  | Panic _ => newDAWG
  end.

Definition ex_three : DAWG :=
  match Insert ex_two (bytes "as") with
  | Ok d => d
  | Panic _ => newDAWG
  end.

(** The flattened array of the running example. *)
Definition ex_array : list ArrayNode.t :=
  default [] (Flatten (length (heap ex_dawg)) ex_dawg).

(** * Properties *)

(** ** Decimal digits *)

Section Digits.

Lemma digits_loop_app fuel n acc :
  digits_loop fuel n acc = digits_loop fuel n [] ++ acc.
Proof.
  revert n acc. induction fuel as [|fuel IH]; intros n acc; simpl; [done|].
  destruct (n <? 10); [done|].
  rewrite IH. rewrite (IH _ [_]). by rewrite <- app_assoc.
Qed.

Lemma digits_loop_fuel f1 f2 n acc :
  0 ≤ n → (Z.to_nat n < f1)%nat → (Z.to_nat n < f2)%nat →
  digits_loop f1 n acc = digits_loop f2 n acc.
Proof.
  revert f2 n acc. induction f1 as [|f1 IH]; intros f2 n acc Hn H1 H2; [lia|].
  destruct f2 as [|f2]; [lia|]. simpl.
  destruct (Z.ltb_spec n 10) as [Hlt|Hge]; [done|].
  assert (0 ≤ n / 10 < n) by (split; [apply Z.div_pos; lia | apply Z.div_lt; lia]).
  apply IH; lia.
Qed.

Lemma digits_small n : 0 ≤ n < 10 → digits n = [(48 + Z.to_N n)%N].
Proof.
  intros Hn. unfold digits. simpl.
  destruct (Z.ltb_spec n 10); [|lia]. by rewrite Z.mod_small.
Qed.

Lemma digits_step n :
  10 ≤ n → digits n = digits (n / 10) ++ [(48 + Z.to_N (n mod 10))%N].
Proof.
  intros Hn. unfold digits at 1. simpl.
  destruct (Z.ltb_spec n 10); [lia|].
  rewrite digits_loop_app. f_equal. unfold digits.
  assert (0 ≤ n / 10 < n) by (split; [apply Z.div_pos; lia | apply Z.div_lt; lia]).
  apply digits_loop_fuel; lia.
Qed.

Lemma digits_ind (P : Z → Prop) :
  (∀ n, 0 ≤ n < 10 → P n) →
  (∀ n, 10 ≤ n → P (n / 10) → P n) →
  ∀ n, 0 ≤ n → P n.
Proof.
  intros Hs Hb n Hn. generalize Hn. pattern n.
  apply Z_lt_induction; [|exact Hn]. clear n Hn. intros n IH Hn.
  destruct (Z_lt_dec n 10) as [Hn10|Hn10]; [apply Hs; lia|].
  assert (0 ≤ n / 10 < n) by (split; [apply Z.div_pos; lia | apply Z.div_lt; lia]).
  apply Hb; [lia|]. apply IH; lia.
Qed.

Lemma digits_is_digit n : 0 ≤ n → Forall is_digit (digits n).
Proof.
  intros Hn. pattern n. apply digits_ind; [| |done]; clear n Hn.
  - intros n Hn. rewrite digits_small by done.
    constructor; [|constructor]. unfold is_digit. lia.
  - intros n Hn IH. rewrite digits_step by done.
    apply Forall_app. split; [done|].
    constructor; [|constructor]. unfold is_digit.
    pose proof (Z.mod_pos_bound n 10). lia.
Qed.

Lemma digits_nonempty n : 0 ≤ n → digits n ≠ [].
Proof.
  intros Hn. destruct (Z_lt_dec n 10) as [Hn10|Hn10].
  - by rewrite digits_small by lia.
  - rewrite digits_step by lia. by destruct (digits (n / 10)).
Qed.

Lemma digits_inj n m : 0 ≤ n → 0 ≤ m → digits n = digits m → n = m.
Proof.
  intros Hn. revert m. pattern n. apply digits_ind; [| |done]; clear n Hn.
  - intros n Hn m Hm. destruct (Z_lt_dec m 10) as [Hm10|Hm10].
    + rewrite !digits_small by lia. intros [= E]. lia.
    + rewrite (digits_small n), (digits_step m) by lia.
      destruct (digits (m / 10)) as [|x [|y l]] eqn:E; simpl; try discriminate.
      intros _. exfalso. eapply digits_nonempty; [|exact E]. apply Z.div_pos; lia.
  - intros n Hn IH m Hm. destruct (Z_lt_dec m 10) as [Hm10|Hm10].
    + rewrite (digits_small m), (digits_step n) by lia.
      destruct (digits (n / 10)) as [|x [|y l]] eqn:E; simpl; try discriminate.
      intros _. exfalso. eapply digits_nonempty; [|exact E]. apply Z.div_pos; lia.
    + rewrite (digits_step n), (digits_step m) by lia. intros E.
      apply app_inj_tail in E as [E1 E2].
      apply IH in E1; [|apply Z.div_pos; lia].
      pose proof (Z.mod_pos_bound n 10). pose proof (Z.mod_pos_bound m 10).
      assert (n mod 10 = m mod 10) by lia.
      rewrite (Z.div_mod n 10), (Z.div_mod m 10) by lia. congruence.
Qed.

Lemma numDigits_loop_shift fuel num n :
  numDigits_loop fuel num n = num - 1 + numDigits_loop fuel 1 n.
Proof.
  revert num n. induction fuel as [|fuel IH]; intros num n; simpl; [lia|].
  destruct (9 <? n); [|lia]. rewrite IH. rewrite (IH (1 + 1)). lia.
Qed.

Lemma numDigits_loop_fuel f1 f2 num n :
  (Z.to_nat n ≤ f1)%nat → (Z.to_nat n ≤ f2)%nat →
  numDigits_loop f1 num n = numDigits_loop f2 num n.
Proof.
  revert f2 num n. induction f1 as [|f1 IH]; intros f2 num n H1 H2.
  - destruct f2 as [|f2]; simpl; [done|].
    destruct (Z.ltb_spec 9 n); [lia|done].
  - destruct f2 as [|f2]; simpl.
    + destruct (Z.ltb_spec 9 n); [lia|done].
    + destruct (Z.ltb_spec 9 n); [|done].
      assert (0 ≤ n ÷ 10 < n).
      { rewrite Z.quot_div_nonneg by lia.
        split; [apply Z.div_pos; lia | apply Z.div_lt; lia]. }
      apply IH; lia.
Qed.

Lemma numDigits_small n : n < 10 → numDigits n = 1.
Proof.
  intros Hn. unfold numDigits. destruct (Z.to_nat n); simpl; [done|].
  destruct (Z.ltb_spec 9 n); [lia|done].
Qed.

Lemma numDigits_step n : 10 ≤ n → numDigits n = 1 + numDigits (n / 10).
Proof.
  intros Hn. unfold numDigits at 1.
  destruct (Z.to_nat n) as [|f] eqn:Ef; [lia|]. simpl.
  destruct (Z.ltb_spec 9 n); [|lia].
  rewrite numDigits_loop_shift. rewrite Z.quot_div_nonneg by lia.
  assert (0 ≤ n / 10 < n) by (split; [apply Z.div_pos; lia | apply Z.div_lt; lia]).
  unfold numDigits. rewrite (numDigits_loop_fuel f (Z.to_nat (n / 10))) by lia. lia.
Qed.

Lemma length_digits n : 0 ≤ n → Z.of_nat (length (digits n)) = numDigits n.
Proof.
  intros Hn. pattern n. apply digits_ind; [| |done]; clear n Hn.
  - intros n Hn. rewrite digits_small, numDigits_small by lia. done.
  - intros n Hn IH. rewrite digits_step, numDigits_step by lia.
    rewrite length_app. simpl. lia.
Qed.

Lemma length_AppendInt_nonneg i :
  0 ≤ i → Z.of_nat (length (AppendInt i)) = numDigits i.
Proof.
  intros Hi. unfold AppendInt. destruct (Z.ltb_spec i 0); [lia|].
  by apply length_digits.
Qed.

Lemma length_AppendInt_neg i :
  i < 0 → numDigits i < Z.of_nat (length (AppendInt i)).
Proof.
  intros Hi. unfold AppendInt. destruct (Z.ltb_spec i 0); [|lia].
  rewrite numDigits_small by lia. simpl.
  pose proof (digits_nonempty (- i)) as Hne.
  destruct (digits (- i)); simpl; [exfalso; apply Hne; [lia|done] | lia].
Qed.

End Digits.

(** ** The signature of a node *)

Section KeyEncoding.

Lemma sumZ_Permutation l1 l2 : l1 ≡ₚ l2 → sumZ l1 = sumZ l2.
Proof. induction 1; simpl; lia. Qed.

Lemma sortedKeys_Permutation (m : gmap N nat) :
  sortedKeys m ≡ₚ (map_to_list m).*1.
Proof. apply merge_sort_Permutation. Qed.

Lemma elem_of_sortedKeys (m : gmap N nat) k : k ∈ sortedKeys m ↔ is_Some (m !! k).
Proof.
  rewrite sortedKeys_Permutation, list_elem_of_fmap. split.
  - intros [[k' q] [-> Hin]]. apply elem_of_map_to_list in Hin. eauto.
  - intros [q Hq]. exists (k, q). split; [done|]. by apply elem_of_map_to_list.
Qed.

Lemma NoDup_sortedKeys (m : gmap N nat) : NoDup (sortedKeys m).
Proof. rewrite sortedKeys_Permutation. apply NoDup_fst_map_to_list. Qed.

Lemma length_sortedKeys (m : gmap N nat) : length (sortedKeys m) = size m.
Proof.
  rewrite sortedKeys_Permutation, length_fmap. by rewrite length_map_to_list.
Qed.

Lemma StronglySorted_le_lt (l : list N) :
  StronglySorted N.le l → NoDup l → StronglySorted N.lt l.
Proof.
  induction 1 as [|x l Hl IH Hx]; intros Hnd; [constructor|].
  apply NoDup_cons in Hnd as [Hx' Hnd]. constructor; [auto|].
  apply Forall_forall. intros y Hy.
  rewrite Forall_forall in Hx. specialize (Hx y Hy).
  assert (x ≠ y) by (intros ->; done). lia.
Qed.

Lemma sortedKeys_ascending (m : gmap N nat) : StronglySorted N.lt (sortedKeys m).
Proof.
  apply StronglySorted_le_lt; [|apply NoDup_sortedKeys].
  apply (StronglySorted_merge_sort N.le).
Qed.

Lemma key_buf_eq h n :
  key_buf h n =
  (if F n then 49%N else 48%N) :: 95%N :: sortedKeys (C n) ++ id_tail (childIDs h n).
Proof. unfold key_buf, id_tail, childIDs. simpl. by rewrite map_map. Qed.

Lemma length_id_tail ids :
  Z.of_nat (length (id_tail ids)) =
  sumZ (map (λ i, Z.of_nat (length (AppendInt i)) + 1) ids).
Proof.
  induction ids as [|i ids IH]; [done|].
  unfold id_tail in *. simpl. rewrite length_app. lia.
Qed.

Lemma key_size_eq h n :
  key_size h n =
  2 + sumZ (map (λ i, numDigits i + 1) (childIDs h n))
    + Z.of_nat (length (sortedKeys (C n))).
Proof.
  unfold key_size. rewrite length_sortedKeys. f_equal. f_equal.
  transitivity (sumZ (map (λ i, numDigits i + 1)
                       (map (childID h n) (map_to_list (C n)).*1))).
  - rewrite !map_map.
    assert (Hin : ∀ kv, kv ∈ map_to_list (C n) → kv ∈ map_to_list (C n)) by done.
    revert Hin. generalize (map_to_list (C n)) at 1 3 4.
    intros l. induction l as [|[k q] l IH]; intros Hin; [done|]. simpl.
    rewrite IH by (intros kv ?; apply Hin; by right).
    unfold childID at 2. simpl.
    assert (C n !! k = Some q) as -> by (apply elem_of_map_to_list, Hin; by left).
    lia.
  - apply sumZ_Permutation. unfold childIDs.
    apply fmap_Permutation, fmap_Permutation. symmetry. apply sortedKeys_Permutation.
Qed.

Lemma numDigits_le_length i : numDigits i ≤ Z.of_nat (length (AppendInt i)).
Proof.
  destruct (Z_lt_dec i 0).
  - pose proof (length_AppendInt_neg i). lia.
  - pose proof (length_AppendInt_nonneg i). lia.
Qed.

Lemma sum_digits_le ids :
  sumZ (map (λ i, numDigits i + 1) ids)
  ≤ sumZ (map (λ i, Z.of_nat (length (AppendInt i)) + 1) ids).
Proof.
  induction ids as [|i ids IH]; simpl; [lia|].
  pose proof (numDigits_le_length i). lia.
Qed.

Lemma sum_digits_eq ids :
  sumZ (map (λ i, numDigits i + 1) ids)
  = sumZ (map (λ i, Z.of_nat (length (AppendInt i)) + 1) ids)
  ↔ Forall (λ i, 0 ≤ i) ids.
Proof.
  induction ids as [|i ids IH]; simpl; [by split; [constructor|]|].
  pose proof (sum_digits_le ids). pose proof (numDigits_le_length i).
  split.
  - intros E. constructor.
    + destruct (Z_lt_dec i 0); [|lia].
      pose proof (length_AppendInt_neg i). lia.
    + apply IH. lia.
  - intros Hall. apply Forall_cons in Hall as [Hi Hall].
    apply IH in Hall. rewrite length_AppendInt_nonneg by done. lia.
Qed.

(** [key] passes its length check exactly when no child has a negative
    [ID]: [numDigits] does not count a minus sign. *)
Lemma key_Ok_iff h n :
  (∃ s, key h n = Ok s) ↔ Forall (λ i, 0 ≤ i) (childIDs h n).
Proof.
  unfold key. rewrite <- sum_digits_eq.
  assert (Z.of_nat (length (key_buf h n)) = key_size h n ↔
          sumZ (map (λ i, numDigits i + 1) (childIDs h n))
          = sumZ (map (λ i, Z.of_nat (length (AppendInt i)) + 1) (childIDs h n))) as Hiff.
  { rewrite key_buf_eq, key_size_eq. simpl. rewrite length_app.
    pose proof (length_id_tail (childIDs h n)). lia. }
  destruct (decide _) as [E|E]; split.
  - intros _. by apply Hiff.
  - eauto.
  - intros [s [=]].
  - intros E'. apply Hiff in E'. done.
Qed.

Lemma key_Ok_buf h n s : key h n = Ok s → s = key_buf h n.
Proof. unfold key. destruct (decide _); congruence. Qed.

(** A run of digits ends where the next [_] or the end of the string is. *)
Lemma digit_run_split (xs ys r1 r2 : list N) :
  Forall is_digit xs → Forall is_digit ys →
  (∀ x r, r1 = x :: r → ¬ is_digit x) →
  (∀ x r, r2 = x :: r → ¬ is_digit x) →
  xs ++ r1 = ys ++ r2 → xs = ys ∧ r1 = r2.
Proof.
  intros Hxs. revert ys. induction Hxs as [|x xs Hx Hxs IH]; intros ys Hys H1 H2 E.
  - destruct Hys as [|y ys Hy Hys]; [done|]. simpl in E.
    exfalso. by apply (H1 y (ys ++ r2)).
  - destruct Hys as [|y ys Hy Hys]; simpl in E.
    + exfalso. by apply (H2 x (xs ++ r1)).
    + injection E as -> E. destruct (IH ys Hys H1 H2 E) as [-> ->]. done.
Qed.

Lemma id_tail_head ids x r : id_tail ids = x :: r → x = 95%N.
Proof. destruct ids; [done|]. unfold id_tail. simpl. congruence. Qed.

Lemma id_tail_inj ids1 ids2 :
  Forall (λ i, 0 ≤ i) ids1 → Forall (λ i, 0 ≤ i) ids2 →
  id_tail ids1 = id_tail ids2 → ids1 = ids2.
Proof.
  intros H1. revert ids2. induction H1 as [|i ids1 Hi H1 IH]; intros ids2 H2 E.
  - destruct ids2; [done|]. discriminate.
  - destruct H2 as [|j ids2 Hj H2]; [discriminate|].
    unfold id_tail in E. simpl in E. injection E as E.
    unfold AppendInt in E.
    destruct (Z.ltb_spec i 0); [lia|]. destruct (Z.ltb_spec j 0); [lia|].
    apply digit_run_split in E as [E1 E2].
    + apply digits_inj in E1; [|done..]. subst j. f_equal. by apply IH.
    + by apply digits_is_digit.
    + by apply digits_is_digit.
    + intros x r Hr. apply id_tail_head in Hr as ->. unfold is_digit. lia.
    + intros x r Hr. apply id_tail_head in Hr as ->. unfold is_digit. lia.
Qed.

(** A signature cannot be read with two different numbers of labels: the
    labels are ascending, and a digit is below [_]. *)
Lemma key_parts_length (K1 K2 : list N) ids1 ids2 :
  StronglySorted N.lt K2 →
  Forall (λ i, 0 ≤ i) ids1 →
  length K2 = length ids2 →
  K1 ++ id_tail ids1 = K2 ++ id_tail ids2 →
  ¬ (length K1 < length K2)%nat.
Proof.
  intros Hs2 Hn1 Hl2 E Hlt.
  rewrite <- (take_drop (length K1) K2) in E, Hs2.
  rewrite <- app_assoc in E.
  apply app_inj_1 in E as [_ E]; [|rewrite length_take; lia].
  apply StronglySorted_app_1_r in Hs2.
  assert (length (drop (length K1) K2) = length K2 - length K1)%nat as HlX
    by apply length_drop.
  destruct (drop (length K1) K2) as [|x0 X]; simpl in HlX; [lia|].
  destruct Hn1 as [|i ids1 Hi Hn1]; [discriminate|].
  unfold id_tail in E at 1. simpl in E. injection E as <- E.
  unfold AppendInt in E. destruct (Z.ltb_spec i 0); [lia|].
  pose proof (digits_is_digit i Hi) as Hd.
  pose proof (digits_nonempty i Hi) as Hne.
  destruct (digits i) as [|d ds]; [done|].
  apply Forall_cons in Hd as [Hd _]. unfold is_digit in Hd.
  simpl in E. destruct X as [|x1 X].
  - simpl in E. symmetry in E. apply id_tail_head in E. lia.
  - injection E as <- _.
    apply StronglySorted_inv in Hs2 as [_ Hx]. apply Forall_cons in Hx as [Hx _]. lia.
Qed.

Lemma key_parts_inj (K1 K2 : list N) ids1 ids2 :
  StronglySorted N.lt K1 → StronglySorted N.lt K2 →
  Forall (λ i, 0 ≤ i) ids1 → Forall (λ i, 0 ≤ i) ids2 →
  length K1 = length ids1 → length K2 = length ids2 →
  K1 ++ id_tail ids1 = K2 ++ id_tail ids2 →
  K1 = K2 ∧ ids1 = ids2.
Proof.
  intros Hs1 Hs2 Hn1 Hn2 Hl1 Hl2 E.
  destruct (lt_eq_lt_dec (length K1) (length K2)) as [[Hlt|Heq]|Hgt].
  - exfalso. by apply (key_parts_length K1 K2 ids1 ids2).
  - apply app_inj_1 in E as [-> E]; [|done]. split; [done|]. by apply id_tail_inj.
  - exfalso. symmetry in E. by apply (key_parts_length K2 K1 ids2 ids1).
Qed.

Lemma length_childIDs h n : length (sortedKeys (C n)) = length (childIDs h n).
Proof. unfold childIDs. by rewrite length_map. Qed.

(** Equal signatures: same flag, same labels, same child identities. *)
Lemma key_buf_inj h n1 n2 :
  Forall (λ i, 0 ≤ i) (childIDs h n1) → Forall (λ i, 0 ≤ i) (childIDs h n2) →
  key_buf h n1 = key_buf h n2 →
  F n1 = F n2 ∧ sortedKeys (C n1) = sortedKeys (C n2) ∧ childIDs h n1 = childIDs h n2.
Proof.
  intros H1 H2. rewrite !key_buf_eq. intros E.
  injection E as Ef E. split.
  - destruct (F n1), (F n2); done.
  - apply key_parts_inj; auto using sortedKeys_ascending, length_childIDs.
Qed.

End KeyEncoding.

(** ** Reading and writing the heap *)

Section Heap.

Implicit Types (h : list Node) (a q : nat) (k : N).

Lemma deref_lookup h a n : h !! a = Some n → deref h a = n.
Proof. unfold deref. by intros ->. Qed.

Lemma lookup_deref h a : (a < length h)%nat → h !! a = Some (deref h a).
Proof.
  intros Hlt. unfold deref. destruct (lookup_lt_is_Some_2 h a Hlt) as [n ->]. done.
Qed.

Lemma deref_app_l h n a : (a < length h)%nat → deref (h ++ [n]) a = deref h a.
Proof. intros Hlt. unfold deref. by rewrite lookup_app_l. Qed.

Lemma deref_app_new h n : deref (h ++ [n]) (length h) = n.
Proof. unfold deref. by rewrite list_lookup_middle. Qed.

Lemma length_set_child h a k q : length (set_child h a k q) = length h.
Proof. unfold set_child. apply length_insert. Qed.

Lemma length_set_final h a : length (set_final h a) = length h.
Proof. unfold set_final. apply length_insert. Qed.

Lemma deref_set_child_ne h a a' k q : a ≠ a' → deref (set_child h a k q) a' = deref h a'.
Proof. intros Hne. unfold deref, set_child. by rewrite list_lookup_insert_ne. Qed.

Lemma deref_set_child_eq h a k q :
  (a < length h)%nat →
  deref (set_child h a k q) a
  = mkNode (ID (deref h a)) (F (deref h a)) (<[k := q]> (C (deref h a))).
Proof. intros Hlt. unfold set_child. unfold deref at 1. by rewrite list_lookup_insert_eq. Qed.

Lemma ID_set_child h a a' k q : ID (deref (set_child h a k q) a') = ID (deref h a').
Proof.
  destruct (decide (a = a')) as [<-|Hne]; [|by rewrite deref_set_child_ne].
  destruct (decide (a < length h)%nat) as [Hlt|Hge].
  - by rewrite deref_set_child_eq.
  - unfold set_child. by rewrite list_insert_ge by lia.
Qed.

Lemma F_set_child h a a' k q : F (deref (set_child h a k q) a') = F (deref h a').
Proof.
  destruct (decide (a = a')) as [<-|Hne]; [|by rewrite deref_set_child_ne].
  destruct (decide (a < length h)%nat) as [Hlt|Hge].
  - by rewrite deref_set_child_eq.
  - unfold set_child. by rewrite list_insert_ge by lia.
Qed.

Lemma C_set_child_eq h a k q :
  (a < length h)%nat → C (deref (set_child h a k q) a) = <[k := q]> (C (deref h a)).
Proof. intros Hlt. by rewrite deref_set_child_eq. Qed.

Lemma deref_set_final_ne h a a' : a ≠ a' → deref (set_final h a) a' = deref h a'.
Proof. intros Hne. unfold deref, set_final. by rewrite list_lookup_insert_ne. Qed.

Lemma deref_set_final_eq h a :
  (a < length h)%nat →
  deref (set_final h a) a = mkNode (ID (deref h a)) true (C (deref h a)).
Proof. intros Hlt. unfold set_final. unfold deref at 1. by rewrite list_lookup_insert_eq. Qed.

Lemma ID_set_final h a a' : ID (deref (set_final h a) a') = ID (deref h a').
Proof.
  destruct (decide (a = a')) as [<-|Hne]; [|by rewrite deref_set_final_ne].
  destruct (decide (a < length h)%nat) as [Hlt|Hge].
  - by rewrite deref_set_final_eq.
  - unfold set_final. by rewrite list_insert_ge by lia.
Qed.

Lemma C_set_final h a a' : C (deref (set_final h a) a') = C (deref h a').
Proof.
  destruct (decide (a = a')) as [<-|Hne]; [|by rewrite deref_set_final_ne].
  destruct (decide (a < length h)%nat) as [Hlt|Hge].
  - by rewrite deref_set_final_eq.
  - unfold set_final. by rewrite list_insert_ge by lia.
Qed.

Lemma F_set_final_ne h a a' : a ≠ a' → F (deref (set_final h a) a') = F (deref h a').
Proof. intros Hne. by rewrite deref_set_final_ne. Qed.

Lemma heap_ids_deref h a : heap_ids h → (a < length h)%nat → ID (deref h a) = Z.of_nat a.
Proof. intros Hids Hlt. apply (Hids a). by apply lookup_deref. Qed.

Lemma heap_closed_deref h a k q :
  heap_closed h → (a < length h)%nat → C (deref h a) !! k = Some q → (q < length h)%nat.
Proof. intros Hcl Hlt. apply (Hcl a). by apply lookup_deref. Qed.

(** Updating one slot of the heap. *)
Lemma heap_ids_insert h a n :
  heap_ids h → ID n = ID (deref h a) → heap_ids (<[a := n]> h).
Proof.
  intros Hids Hn i n' Hi.
  destruct (decide (a = i)) as [<-|Hne].
  - assert (a < length h)%nat as Hlt.
    { apply lookup_lt_Some in Hi. by rewrite length_insert in Hi. }
    rewrite list_lookup_insert_eq in Hi by done. injection Hi as <-.
    rewrite Hn. by apply heap_ids_deref.
  - rewrite list_lookup_insert_ne in Hi by done. by apply Hids.
Qed.

Lemma heap_ids_app h n :
  heap_ids h → ID n = Z.of_nat (length h) → heap_ids (h ++ [n]).
Proof.
  intros Hids Hn i n' Hi. apply lookup_app_Some in Hi as [Hi|[Hge Hi]].
  - by apply Hids.
  - destruct (i - length h)%nat as [|j] eqn:Ej; simpl in Hi; [|done].
    injection Hi as <-. rewrite Hn. f_equal. lia.
Qed.

End Heap.

(** ** Signatures and structure *)

Section KeyStructure.

Implicit Types (h : list Node) (n : Node).

(** The signature reads the heap only for the identities of the children. *)
Lemma childIDs_ext h h' n :
  (∀ k q, C n !! k = Some q → ID (deref h' q) = ID (deref h q)) →
  childIDs h' n = childIDs h n.
Proof.
  intros Hext. unfold childIDs. apply map_ext_in. intros k _.
  unfold childID. destruct (C n !! k) eqn:E; [|done]. by apply (Hext k).
Qed.

Lemma key_ext h h' n :
  (∀ k q, C n !! k = Some q → ID (deref h' q) = ID (deref h q)) →
  key h' n = key h n.
Proof.
  intros Hext. unfold key.
  rewrite !key_buf_eq, !key_size_eq, (childIDs_ext h h' n Hext). done.
Qed.

Lemma key_same_FC h n n' : F n = F n' → C n = C n' → key h n = key h n'.
Proof.
  intros HF HC. unfold key. rewrite !key_buf_eq, !key_size_eq.
  unfold childIDs, childID. by rewrite HF, HC.
Qed.

Lemma elem_of_childIDs h n i :
  i ∈ childIDs h n ↔ ∃ k q, C n !! k = Some q ∧ i = ID (deref h q).
Proof.
  unfold childIDs. rewrite list_elem_of_fmap. split.
  - intros [k [-> Hk]]. apply elem_of_sortedKeys in Hk as [q Hq].
    exists k, q. split; [done|]. unfold childID. by rewrite Hq.
  - intros (k & q & Hq & ->). exists k. split.
    + unfold childID. by rewrite Hq.
    + apply elem_of_sortedKeys. eauto.
Qed.

Lemma childIDs_nonneg h n :
  heap_ids h →
  (∀ k q, C n !! k = Some q → (q < length h)%nat) →
  Forall (λ i, 0 ≤ i) (childIDs h n).
Proof.
  intros Hids Hcl. apply Forall_forall. intros i Hi.
  apply elem_of_childIDs in Hi as (k & q & Hq & ->).
  rewrite heap_ids_deref; [lia|done|]. by eapply Hcl.
Qed.

Lemma key_Ok h n :
  heap_ids h →
  (∀ k q, C n !! k = Some q → (q < length h)%nat) →
  key h n = Ok (key_buf h n).
Proof.
  intros Hids Hcl.
  destruct (proj2 (key_Ok_iff h n) (childIDs_nonneg h n Hids Hcl)) as [s Hs].
  rewrite Hs. f_equal. by apply key_Ok_buf.
Qed.

(** The children of a node are determined by its labels and the identities
    of its children. *)
Lemma children_of_ids h n1 n2 :
  heap_ids h →
  (∀ k q, C n1 !! k = Some q → (q < length h)%nat) →
  (∀ k q, C n2 !! k = Some q → (q < length h)%nat) →
  sortedKeys (C n1) = sortedKeys (C n2) →
  childIDs h n1 = childIDs h n2 →
  C n1 = C n2.
Proof.
  intros Hids H1 H2 Hk Hc. apply map_eq. intros k.
  destruct (C n1 !! k) as [q1|] eqn:E1.
  - assert (k ∈ sortedKeys (C n2)) as Hin.
    { rewrite <- Hk. apply elem_of_sortedKeys. eauto. }
    pose proof Hin as Hin'.
    apply elem_of_sortedKeys in Hin as [q2 E2]. rewrite E2. f_equal.
    apply list_elem_of_lookup in Hin' as [j Hj].
    assert (childIDs h n1 !! j = Some (ID (deref h q1))) as HA.
    { unfold childIDs. rewrite list_lookup_fmap, Hk, Hj. simpl.
      unfold childID. by rewrite E1. }
    assert (childIDs h n2 !! j = Some (ID (deref h q2))) as HB.
    { unfold childIDs. rewrite list_lookup_fmap, Hj. simpl.
      unfold childID. by rewrite E2. }
    rewrite Hc, HB in HA. injection HA as HA.
    rewrite !heap_ids_deref in HA by eauto. lia.
  - destruct (C n2 !! k) as [q2|] eqn:E2; [|done].
    assert (k ∈ sortedKeys (C n1)) as Hin.
    { rewrite Hk. apply elem_of_sortedKeys. eauto. }
    apply elem_of_sortedKeys in Hin as [q1 E1']. congruence.
Qed.

(** Two nodes with the same signature have the same flag and the same
    children. *)
Lemma same_key_same_node h n1 n2 s :
  heap_ids h →
  (∀ k q, C n1 !! k = Some q → (q < length h)%nat) →
  (∀ k q, C n2 !! k = Some q → (q < length h)%nat) →
  key h n1 = Ok s → key h n2 = Ok s →
  F n1 = F n2 ∧ C n1 = C n2.
Proof.
  intros Hids H1 H2 E1 E2.
  apply key_Ok_buf in E1, E2. subst s.
  apply key_buf_inj in E2 as (HF & Hk & Hc); try by apply childIDs_nonneg.
  split; [done|]. symmetry. by apply (children_of_ids h).
Qed.

End KeyStructure.

(** ** Injectivity of the signature *)

Lemma sortedKeys_dom (m1 m2 : gmap N nat) :
  sortedKeys m1 = sortedKeys m2 ↔ dom m1 = dom m2.
Proof.
  split.
  - intros E. apply set_eq. intros k.
    rewrite !elem_of_dom, <- !elem_of_sortedKeys. by rewrite E.
  - intros E. apply (StronglySorted_unique_strong N.lt).
    + intros x1 x2 _ _ ? ?. lia.
    + apply sortedKeys_ascending.
    + apply sortedKeys_ascending.
    + apply NoDup_Permutation; [apply NoDup_sortedKeys..|].
      intros k. by rewrite !elem_of_sortedKeys, <- !elem_of_dom, E.
Qed.

(** C7: whenever [key] returns for two nodes, the two signatures are equal
    if and only if the nodes have the same terminal flag, the same set of
    edge labels and, for each label, children with the same [ID]. *)
Theorem key_injective h n1 n2 s1 s2 :
  key h n1 = Ok s1 → key h n2 = Ok s2 →
  (s1 = s2 ↔
   F n1 = F n2 ∧ dom (C n1) = dom (C n2) ∧ ∀ k, childID h n1 k = childID h n2 k).
Proof.
  intros E1 E2.
  assert (Forall (λ i, 0 ≤ i) (childIDs h n1)) as Hn1 by (apply key_Ok_iff; eauto).
  assert (Forall (λ i, 0 ≤ i) (childIDs h n2)) as Hn2 by (apply key_Ok_iff; eauto).
  apply key_Ok_buf in E1, E2. subst s1 s2. split.
  - intros E. apply key_buf_inj in E as (HF & Hk & Hc); [|done..].
    split; [done|]. split; [by apply sortedKeys_dom|].
    intros k. destruct (C n1 !! k) as [q1|] eqn:Eq1.
    + assert (k ∈ sortedKeys (C n1)) as Hin by (apply elem_of_sortedKeys; eauto).
      apply list_elem_of_lookup in Hin as [j Hj].
      assert (childIDs h n1 !! j = Some (childID h n1 k)) as HA.
      { unfold childIDs. by rewrite list_lookup_fmap, Hj. }
      assert (childIDs h n2 !! j = Some (childID h n2 k)) as HB.
      { unfold childIDs. by rewrite list_lookup_fmap, <- Hk, Hj. }
      congruence.
    + assert (C n2 !! k = None) as Eq2.
      { apply eq_None_not_Some. rewrite <- elem_of_sortedKeys, <- Hk, elem_of_sortedKeys.
        rewrite Eq1. by intros [? ?]. }
      unfold childID. by rewrite Eq1, Eq2.
  - intros (HF & Hd & Hc). rewrite !key_buf_eq.
    apply sortedKeys_dom in Hd. unfold childIDs. rewrite HF, Hd.
    do 4 f_equal. apply map_ext. intros k. apply Hc.
Qed.

Lemma key_injective_witness :
  [48; 95; 97; 95; 50]%N = [48; 95; 97; 95; 50]%N ↔
  F (deref ex_heap 0) = F (deref ex_heap 1) ∧
  dom (C (deref ex_heap 0)) = dom (C (deref ex_heap 1)) ∧
  ∀ k, childID ex_heap (deref ex_heap 0) k = childID ex_heap (deref ex_heap 1) k.
Proof.
  apply (key_injective ex_heap (deref ex_heap 0) (deref ex_heap 1)); vm_compute; reflexivity.
Defined.

(** ** The in-progress chain *)

Section Chain.

Implicit Types (us : list Unchecked.t) (u : Unchecked.t).

Lemma path_nodes_snoc us u :
  path_nodes (us ++ [u]) = path_nodes us ++ [Unchecked.c u].
Proof. unfold path_nodes. by rewrite map_app. Qed.

Lemma length_path_nodes us : length (path_nodes us) = S (length us).
Proof. unfold path_nodes. simpl. by rewrite length_map. Qed.

Lemma last_node_snoc us u : last_node (us ++ [u]) = Unchecked.c u.
Proof. unfold last_node. by rewrite last_snoc. Qed.

Lemma last_node_nil : last_node [] = root.
Proof. done. Qed.

Lemma path_nodes_last us : path_nodes us !! length us = Some (last_node us).
Proof.
  destruct us as [|u us _] using rev_ind; [done|].
  rewrite path_nodes_snoc, last_node_snoc.
  apply list_lookup_middle. rewrite length_path_nodes, length_app. simpl. lia.
Qed.

Lemma last_node_in_path us : last_node us ∈ path_nodes us.
Proof. eapply list_elem_of_lookup_2, path_nodes_last. Qed.

Lemma labels_snoc us u : labels (us ++ [u]) = labels us ++ [Unchecked.b u].
Proof. unfold labels. by rewrite map_app. Qed.

Lemma length_labels us : length (labels us) = length us.
Proof. unfold labels. by rewrite length_map. Qed.

Lemma labels_take us i : labels (take i us) = take i (labels us).
Proof. unfold labels. apply (fmap_take Unchecked.b). Qed.

Lemma labels_lookup us i u : us !! i = Some u → labels us !! i = Some (Unchecked.b u).
Proof. intros Hu. unfold labels. by rewrite (list_lookup_fmap Unchecked.b), Hu. Qed.

Lemma path_nodes_take us i :
  (i ≤ length us)%nat → path_nodes (take i us) = take (S i) (path_nodes us).
Proof. intros Hi. unfold path_nodes. simpl. by rewrite <- fmap_take. Qed.

Lemma last_node_take us i u :
  us !! i = Some u → path_nodes us !! i = Some (last_node (take i us)).
Proof.
  intros Hu. pose proof (lookup_lt_Some _ _ _ Hu) as Hlt.
  pose proof (path_nodes_last (take i us)) as Hl.
  rewrite length_take, Nat.min_l in Hl by lia.
  rewrite path_nodes_take in Hl by lia.
  by rewrite lookup_take_lt in Hl by lia.
Qed.

End Chain.

(** ** Lookups after a change of the heap *)

Section LookupFrame.

Implicit Types (h : list Node) (a q : nat) (k : N) (w : list N).

Lemma lookup_from_same_node h h' q q' w :
  F (deref h' q') = F (deref h q) →
  C (deref h' q') = C (deref h q) →
  (∀ k c, C (deref h q) !! k = Some c → ∀ w', lookup_from h' c w' = lookup_from h c w') →
  lookup_from h' q' w = lookup_from h q w.
Proof.
  intros HF HC Hrec. destruct w as [|k w]; simpl; [done|].
  rewrite HC. destruct (C (deref h q) !! k) as [c|] eqn:E; [|done]. by eapply Hrec.
Qed.

(** Redirecting an edge to a node with the same flag and the same children
    leaves every lookup as it was. *)
Lemma lookup_from_set_child h a k c0 m :
  (a < length h)%nat →
  C (deref h a) !! k = Some c0 →
  F (deref h c0) = F (deref h m) →
  C (deref h c0) = C (deref h m) →
  ∀ w q, lookup_from (set_child h a k m) q w = lookup_from h q w.
Proof.
  intros Hlt Hk HF HC w. induction w as [|x w IH]; intros q; simpl.
  - apply F_set_child.
  - destruct (decide (a = q)) as [<-|Hne].
    + rewrite C_set_child_eq by done.
      destruct (decide (k = x)) as [<-|Hkx].
      * rewrite lookup_insert_eq, Hk, IH.
        symmetry. apply lookup_from_same_node; auto.
      * rewrite lookup_insert_ne by done.
        destruct (C (deref h a) !! x); [apply IH|done].
    + rewrite deref_set_child_ne by done.
      destruct (C (deref h q) !! x); [apply IH|done].
Qed.

Lemma dom_set_child h a k c0 m q :
  C (deref h a) !! k = Some c0 →
  dom (C (deref (set_child h a k m) q)) = dom (C (deref h q)).
Proof.
  intros Hk. destruct (decide (a = q)) as [<-|Hne]; [|by rewrite deref_set_child_ne].
  destruct (decide (a < length h)%nat) as [Hlt|Hge].
  - rewrite C_set_child_eq by done. rewrite dom_insert_L.
    assert (k ∈ dom (C (deref h a))) by (apply elem_of_dom; eauto). set_solver.
  - unfold set_child. by rewrite list_insert_ge by lia.
Qed.

End LookupFrame.

(** ** One round of [minimize] *)

Section MinimizeStep.

Variables (h : list Node) (pw : list N) (sq : Z) (us : list Unchecked.t)
          (u : Unchecked.t) (mz : gmap (list N) nat) (reg : list nat).

Hypothesis HG : GInv (mkDAWG h pw sq (us ++ [u]) mz) reg.
Hypothesis Hlive : live h (Unchecked.c u).

Let pn := Unchecked.p u.
Let cn := Unchecked.c u.
Let bu := Unchecked.b u.

Lemma ms_entry : (us ++ [u]) !! length us = Some u.
Proof. by apply list_lookup_middle. Qed.

Lemma ms_parent : pn = last_node us.
Proof.
  destruct (g_chain _ _ HG _ _ ms_entry) as [Hp _]. simpl in Hp.
  rewrite path_nodes_snoc, lookup_app_l in Hp by (rewrite length_path_nodes; lia).
  rewrite path_nodes_last in Hp. by injection Hp.
Qed.

Lemma ms_edge : C (deref h pn) !! bu = Some cn.
Proof. by destruct (g_chain _ _ HG _ _ ms_entry) as [_ Hc]. Qed.

Lemma ms_path_sub q : q ∈ path_nodes us → q ∈ path_nodes (us ++ [u]).
Proof. rewrite path_nodes_snoc, elem_of_app. auto. Qed.

Lemma ms_child_in_path : cn ∈ path_nodes (us ++ [u]).
Proof. rewrite path_nodes_snoc, elem_of_app, list_elem_of_singleton. auto. Qed.

Lemma ms_child_not_in_path : cn ∉ path_nodes us.
Proof.
  pose proof (g_path_nodup _ _ HG) as Hnd. simpl in Hnd.
  rewrite path_nodes_snoc in Hnd. apply NoDup_app in Hnd as (_ & Hdis & _).
  intros Hin. apply (Hdis _ Hin). by apply list_elem_of_singleton.
Qed.

Lemma ms_parent_in_path : pn ∈ path_nodes us.
Proof. rewrite ms_parent. apply last_node_in_path. Qed.

Lemma ms_parent_lt : (pn < length h)%nat.
Proof. apply (g_path_lt _ _ HG), ms_path_sub, ms_parent_in_path. Qed.

Lemma ms_child_lt : (cn < length h)%nat.
Proof. apply (g_path_lt _ _ HG), ms_child_in_path. Qed.

Lemma ms_parent_ne_child : pn ≠ cn.
Proof. intros E. apply ms_child_not_in_path. rewrite <- E. apply ms_parent_in_path. Qed.

Lemma ms_child_children k q : C (deref h cn) !! k = Some q → q ∈ reg.
Proof.
  intros Hq. apply (g_last_children _ _ HG k). simpl. by rewrite last_node_snoc.
Qed.

Lemma ms_parent_children k q :
  C (deref h pn) !! k = Some q → (k = bu ∧ q = cn) ∨ ((k < bu)%N ∧ q ∈ reg).
Proof. intros Hq. by apply (g_chain_children _ _ HG (length us) u k q ms_entry). Qed.

Lemma ms_reg_lt m : m ∈ reg → (m < length h)%nat.
Proof. apply (g_reg_lt _ _ HG). Qed.

Lemma ms_key : key h (deref h cn) = Ok (key_buf h (deref h cn)).
Proof.
  apply key_Ok; [apply (g_ids _ _ HG)|].
  intros k q Hq. by eapply ms_reg_lt, ms_child_children.
Qed.

Lemma ms_prev_entry i v :
  us !! i = Some v →
  path_nodes us !! i = Some (Unchecked.p v) ∧
  C (deref h (Unchecked.p v)) !! Unchecked.b v = Some (Unchecked.c v) ∧
  Unchecked.p v ≠ pn.
Proof.
  intros Hv. pose proof (lookup_lt_Some _ _ _ Hv) as Hlt.
  assert ((us ++ [u]) !! i = Some v) as Hv' by (by rewrite lookup_app_l).
  destruct (g_chain _ _ HG _ _ Hv') as [Hp Hc]. simpl in Hp, Hc.
  rewrite path_nodes_snoc, lookup_app_l in Hp by (rewrite length_path_nodes; lia).
  split; [done|]. split; [done|].
  intros E. pose proof (path_nodes_last us) as Hl. rewrite <- ms_parent, <- E in Hl.
  pose proof (g_path_nodup _ _ HG) as Hnd. simpl in Hnd.
  rewrite path_nodes_snoc in Hnd. apply NoDup_app in Hnd as (Hnd & _ & _).
  pose proof (NoDup_lookup _ _ _ _ Hnd Hp Hl). lia.
Qed.

(** The first case: an equal signature is registered, and the edge of the
    parent moves to the registered node. *)
Lemma minimize_step_merge m :
  mz !! key_buf h (deref h cn) = Some m →
  GInv (mkDAWG (set_child h pn bu m) pw sq us mz) reg ∧
  (∀ q, F (deref (set_child h pn bu m) q) = F (deref h q)) ∧
  (∀ q, dom (C (deref (set_child h pn bu m) q)) = dom (C (deref h q))) ∧
  (∀ w q, lookup_from (set_child h pn bu m) q w = lookup_from h q w).
Proof.
  intros Hm.
  assert (m ∈ reg) as Hmreg by (apply (g_reg_min _ _ HG); eauto).
  pose proof (g_min_key _ _ HG _ _ Hm) as Hmkey. simpl in Hmkey.
  pose proof (ms_reg_lt m Hmreg) as Hmlt.
  assert (F (deref h cn) = F (deref h m) ∧ C (deref h cn) = C (deref h m)) as [HF HC].
  { apply (same_key_same_node h _ _ (key_buf h (deref h cn)));
      [apply (g_ids _ _ HG)| | |apply ms_key|exact Hmkey].
    - intros k q Hq. by eapply ms_reg_lt, ms_child_children.
    - intros k q. by apply (heap_closed_deref _ _ _ _ (g_closed _ _ HG)). }
  assert (Hreg_same : ∀ r, r ∈ reg → deref (set_child h pn bu m) r = deref h r).
  { intros r Hr. apply deref_set_child_ne. intros <-.
    apply (g_path_reg _ _ HG pn); [apply ms_path_sub, ms_parent_in_path|done]. }
  split; [|split; [|split]].
  - constructor; simpl.
    + unfold set_child. apply heap_ids_insert; [apply (g_ids _ _ HG)|done].
    + rewrite length_set_child. apply (g_len _ _ HG).
    + intros i n k q Hi Hq. rewrite length_set_child.
      pose proof (lookup_lt_Some _ _ _ Hi) as Hlt. rewrite length_set_child in Hlt.
      apply deref_lookup in Hi. subst n.
      destruct (decide (pn = i)) as [<-|Hne].
      * rewrite C_set_child_eq in Hq by done.
        destruct (decide (bu = k)) as [<-|Hk].
        -- rewrite lookup_insert_eq in Hq. by injection Hq as <-.
        -- rewrite lookup_insert_ne in Hq by done.
           by eapply (heap_closed_deref _ _ _ _ (g_closed _ _ HG)).
      * rewrite deref_set_child_ne in Hq by done.
        by eapply (heap_closed_deref _ _ _ _ (g_closed _ _ HG)).
    + rewrite F_set_child. apply (g_root_F _ _ HG).
    + intros q Hq. rewrite length_set_child. by apply (g_path_lt _ _ HG), ms_path_sub.
    + pose proof (g_path_nodup _ _ HG) as Hnd. simpl in Hnd.
      rewrite path_nodes_snoc in Hnd. by apply NoDup_app in Hnd as (Hnd & _ & _).
    + intros q Hq. by apply (g_path_reg _ _ HG), ms_path_sub.
    + pose proof (g_labels _ _ HG) as Hl. simpl in Hl. rewrite labels_snoc in Hl.
      etrans; [|exact Hl]. by apply prefix_app_r.
    + intros i v Hv. destruct (ms_prev_entry i v Hv) as (Hp & Hc & Hne).
      split; [done|]. by rewrite deref_set_child_ne.
    + intros i v k q Hv Hq. destruct (ms_prev_entry i v Hv) as (Hp & Hc & Hne).
      rewrite deref_set_child_ne in Hq by done.
      apply (g_chain_children _ _ HG i v k q); [|done].
      simpl. rewrite lookup_app_l; [done|]. by eapply lookup_lt_Some.
    + intros k q. rewrite <- ms_parent, C_set_child_eq by apply ms_parent_lt.
      destruct (decide (bu = k)) as [<-|Hk].
      * rewrite lookup_insert_eq. by intros [= <-].
      * rewrite lookup_insert_ne by done. intros Hq.
        destruct (ms_parent_children k q Hq) as [[-> _]|[_ ?]]; done.
    + apply (g_reg_nodup _ _ HG).
    + intros r Hr. rewrite length_set_child. by apply ms_reg_lt.
    + apply (g_reg_min _ _ HG).
    + intros k r Hr.
      assert (r ∈ reg) as Hrreg by (apply (g_reg_min _ _ HG); eauto).
      rewrite Hreg_same by done.
      rewrite (key_ext h) by (intros; apply ID_set_child).
      by apply (g_min_key _ _ HG).
    + intros j r k q Hr. rewrite Hreg_same by (by eapply list_elem_of_lookup_2).
      by apply (g_reg_children _ _ HG).
    + intros r Hr. unfold live. rewrite Hreg_same by done.
      by apply (g_reg_live _ _ HG).
  - intros q. apply F_set_child.
  - intros q. eapply dom_set_child, ms_edge.
  - apply (lookup_from_set_child h pn bu cn m); auto using ms_parent_lt, ms_edge.
Qed.

(** The second case: the signature is new, and the child is registered. *)
Lemma minimize_step_register :
  mz !! key_buf h (deref h cn) = None →
  GInv (mkDAWG h pw sq us (<[key_buf h (deref h cn) := cn]> mz)) (reg ++ [cn]).
Proof.
  intros Hnone.
  assert (cn ∉ reg) as Hcreg by (apply (g_path_reg _ _ HG), ms_child_in_path).
  constructor; simpl.
  - apply (g_ids _ _ HG).
  - apply (g_len _ _ HG).
  - apply (g_closed _ _ HG).
  - apply (g_root_F _ _ HG).
  - intros q Hq. by apply (g_path_lt _ _ HG), ms_path_sub.
  - pose proof (g_path_nodup _ _ HG) as Hnd. simpl in Hnd.
    rewrite path_nodes_snoc in Hnd. by apply NoDup_app in Hnd as (Hnd & _ & _).
  - intros q Hq. rewrite elem_of_app, list_elem_of_singleton. intros [Hr| ->].
    + apply (g_path_reg _ _ HG q); [by apply ms_path_sub|done].
    + by apply ms_child_not_in_path.
  - pose proof (g_labels _ _ HG) as Hl. simpl in Hl. rewrite labels_snoc in Hl.
    etrans; [|exact Hl]. by apply prefix_app_r.
  - intros i v Hv. destruct (ms_prev_entry i v Hv) as (Hp & Hc & Hne). done.
  - intros i v k q Hv Hq. rewrite elem_of_app.
    destruct (g_chain_children _ _ HG i v k q) as [?|[? ?]]; auto.
    simpl. rewrite lookup_app_l; [done|]. by eapply lookup_lt_Some.
  - intros k q. rewrite <- ms_parent. intros Hq.
    rewrite elem_of_app, list_elem_of_singleton.
    destruct (ms_parent_children k q Hq) as [[_ ->]|[_ ?]]; auto.
  - apply NoDup_app. split; [apply (g_reg_nodup _ _ HG)|]. split.
    + intros r Hr. rewrite list_elem_of_singleton. by intros ->.
    + apply NoDup_singleton.
  - intros r. rewrite elem_of_app, list_elem_of_singleton. intros [Hr| ->].
    + by apply ms_reg_lt.
    + apply ms_child_lt.
  - intros r. rewrite elem_of_app, list_elem_of_singleton. split.
    + intros [Hr| ->].
      * apply (g_reg_min _ _ HG) in Hr as [k Hk]. simpl in Hk. exists k.
        rewrite lookup_insert_ne; [done|]. intros <-. congruence.
      * eexists. apply lookup_insert_eq.
    + intros [k Hk]. destruct (decide (key_buf h (deref h cn) = k)) as [<-|Hne].
      * rewrite lookup_insert_eq in Hk. injection Hk as <-. by right.
      * rewrite lookup_insert_ne in Hk by done. left. apply (g_reg_min _ _ HG). eauto.
  - intros k r. destruct (decide (key_buf h (deref h cn) = k)) as [<-|Hne].
    + rewrite lookup_insert_eq. intros [= <-]. apply ms_key.
    + rewrite lookup_insert_ne by done. apply (g_min_key _ _ HG).
  - intros j r k q Hr Hq. apply lookup_app_Some in Hr as [Hr|[Hge Hr]].
    + pose proof (lookup_lt_Some _ _ _ Hr).
      rewrite take_app_le by lia. by apply (g_reg_children _ _ HG j r k q).
    + destruct (j - length reg)%nat as [|j'] eqn:Ej; simpl in Hr; [|done].
      injection Hr as <-. replace j with (length reg) by lia.
      rewrite take_app_length. by eapply ms_child_children.
  - intros r. rewrite elem_of_app, list_elem_of_singleton. intros [Hr| ->].
    + by apply (g_reg_live _ _ HG).
    + exact Hlive.
Qed.

Lemma minimize_step_GInv :
  ∃ h' mz' reg',
    minimize_step (h, mz) u = Ok (h', mz') ∧
    GInv (mkDAWG h' pw sq us mz') reg' ∧
    live h' (last_node us) ∧
    length h' = length h ∧
    (∀ q, F (deref h' q) = F (deref h q)) ∧
    (∀ q, dom (C (deref h' q)) = dom (C (deref h q))) ∧
    (∀ w q, lookup_from h' q w = lookup_from h q w).
Proof.
  unfold minimize_step. fold cn pn bu. rewrite ms_key. simpl.
  destruct (mz !! key_buf h (deref h cn)) as [m|] eqn:Hm.
  - destruct (minimize_step_merge m Hm) as (HG' & HF & Hd & Hl).
    exists (set_child h pn bu m), mz, reg. split; [done|]. split; [done|].
    split; [|split; [apply length_set_child|done]].
    right. rewrite <- ms_parent, C_set_child_eq by apply ms_parent_lt.
    intros E. pose proof (lookup_insert_eq (C (deref h pn)) bu m) as Hl'.
    rewrite E, lookup_empty in Hl'. done.
  - exists h, (<[key_buf h (deref h cn) := cn]> mz), (reg ++ [cn]).
    split; [done|]. split; [by apply minimize_step_register|].
    split; [|done]. right. rewrite <- ms_parent. intros E.
    pose proof ms_edge as He. rewrite E, lookup_empty in He. done.
Qed.

End MinimizeStep.

(** ** [minimize] *)

Section Minimize.

Lemma heap_frame_refl h : heap_frame h h.
Proof. by repeat split. Qed.

Lemma heap_frame_trans h1 h2 h3 :
  heap_frame h1 h2 → heap_frame h2 h3 → heap_frame h1 h3.
Proof.
  intros (Hl1 & HF1 & Hd1 & Hw1) (Hl2 & HF2 & Hd2 & Hw2). repeat split.
  - congruence.
  - intros q. by rewrite HF2.
  - intros q. by rewrite Hd2.
  - intros w q. by rewrite Hw2.
Qed.

Lemma minimize_loop_GInv pw sq us rest :
  ∀ h mz reg,
  GInv (mkDAWG h pw sq (us ++ rest) mz) reg →
  (rest ≠ [] → live h (last_node (us ++ rest))) →
  ∃ h' mz' reg',
    minimize_loop (h, mz) (rev rest) = Ok (h', mz') ∧
    GInv (mkDAWG h' pw sq us mz') reg' ∧
    heap_frame h h'.
Proof.
  induction rest as [|u rest IH] using rev_ind; intros h mz reg HG Hlive.
  - rewrite app_nil_r in HG. exists h, mz, reg. simpl.
    split; [done|]. split; [done|]. apply heap_frame_refl.
  - rewrite app_assoc in HG, Hlive. rewrite rev_unit.
    cbn [minimize_loop].
    rewrite last_node_snoc in Hlive.
    destruct (minimize_step_GInv h pw sq (us ++ rest) u mz reg HG)
      as (h1 & mz1 & reg1 & Hstep & HG1 & Hlive1 & Hfr1).
    { apply Hlive. by destruct rest. }
    rewrite Hstep. simpl.
    destruct (IH h1 mz1 reg1 HG1) as (h2 & mz2 & reg2 & Hloop & HG2 & Hfr2); [done|].
    exists h2, mz2, reg2. split; [done|]. split; [done|].
    by apply (heap_frame_trans h h1 h2).
Qed.

Lemma minimize_GInv d reg to :
  GInv d reg → (to ≤ length (unchecked d))%nat →
  (unchecked d ≠ [] → live (heap d) (last_node (unchecked d))) →
  ∃ d' reg',
    minimize d to = Ok d' ∧
    GInv d' reg' ∧
    unchecked d' = take to (unchecked d) ∧
    prevWord d' = prevWord d ∧
    heap_frame (heap d) (heap d').
Proof.
  intros HG Hto Hlive. destruct d as [h pw sq us mz]. simpl in *.
  rewrite <- (take_drop to us) in HG.
  destruct (minimize_loop_GInv pw sq (take to us) (drop to us) h mz reg HG)
    as (h' & mz' & reg' & Hloop & HG' & Hfr).
  { intros Hne. rewrite take_drop. apply Hlive. intros ->. by rewrite drop_nil in Hne. }
  unfold minimize. simpl. rewrite Hloop. simpl.
  destruct (decide (to ≤ length us)%nat); [|lia].
  eexists _, reg'. split; [done|]. simpl. done.
Qed.

End Minimize.

(** ** One round of the loop of [Insert] *)

Section Extend.

Lemma extend_eq d curr k :
  extend (d, curr) k =
  (mkDAWG (set_child (heap d ++ [mkNode (seq d + 1) false ∅]) curr k (length (heap d)))
          (prevWord d) (seq d + 1)
          (unchecked d ++ [Unchecked.mk curr (length (heap d)) k]) (minimized d),
   length (heap d)).
Proof. done. Qed.

(** A new edge to a new node, which is not terminal and has no edges yet,
    changes no lookup that starts at an old node. *)
Lemma lookup_from_extend h curr k nn :
  heap_closed h → (curr < length h)%nat →
  C (deref h curr) !! k = None →
  F nn = false → C nn = ∅ →
  ∀ w q, (q < length h)%nat →
  lookup_from (set_child (h ++ [nn]) curr k (length h)) q w = lookup_from h q w.
Proof.
  intros Hcl Hcurr Hk HF HC w.
  assert (curr < length (h ++ [nn]))%nat as Hcurr' by (rewrite length_app; lia).
  induction w as [|x w IH]; intros q Hq; simpl.
  - by rewrite F_set_child, deref_app_l.
  - destruct (decide (curr = q)) as [<-|Hne].
    + rewrite C_set_child_eq, deref_app_l by done.
      destruct (decide (k = x)) as [<-|Hkx].
      * rewrite lookup_insert_eq, Hk.
        assert (deref (set_child (h ++ [nn]) curr k (length h)) (length h) = nn) as Hnew.
        { rewrite deref_set_child_ne by lia. apply deref_app_new. }
        destruct w as [|y w]; simpl; rewrite Hnew; [done|]. by rewrite HC, lookup_empty.
      * rewrite lookup_insert_ne by done.
        destruct (C (deref h curr) !! x) as [c|] eqn:Ec; [|done].
        apply IH. by eapply heap_closed_deref.
    + rewrite deref_set_child_ne, deref_app_l by done.
      destruct (C (deref h q) !! x) as [c|] eqn:Ec; [|done].
      apply IH. by eapply heap_closed_deref.
Qed.

Variables (d : DAWG) (reg : list nat) (k : N).
Hypothesis HG : GInv d reg.
Hypothesis Hlab : labels (unchecked d) ++ [k] `prefix_of` prevWord d.
Hypothesis Hbound :
  ∀ k' q, C (deref (heap d) (last_node (unchecked d))) !! k' = Some q → (k' < k)%N.

Let h := heap d.
Let us := unchecked d.
Let curr := last_node us.
Let next := length h.
Let nn := mkNode (seq d + 1) false ∅.
Let h' := set_child (h ++ [nn]) curr k next.

Lemma ex_curr_lt : (curr < length h)%nat.
Proof. apply (g_path_lt _ _ HG), last_node_in_path. Qed.

Lemma ex_length : length h' = S (length h).
Proof. unfold h'. rewrite length_set_child, length_app. simpl. lia. Qed.

Lemma ex_fresh : C (deref h curr) !! k = None.
Proof.
  destruct (C (deref h curr) !! k) as [q|] eqn:E; [|done].
  apply Hbound in E. lia.
Qed.

Lemma ex_old q : (q < length h)%nat → q ≠ curr → deref h' q = deref h q.
Proof. intros Hq Hne. unfold h'. by rewrite deref_set_child_ne, deref_app_l. Qed.

Lemma ex_new : deref h' next = nn.
Proof.
  unfold h'. pose proof ex_curr_lt. rewrite deref_set_child_ne by (unfold next; lia).
  apply deref_app_new.
Qed.

Lemma ex_curr : C (deref h' curr) = <[k := next]> (C (deref h curr)).
Proof.
  unfold h'. pose proof ex_curr_lt.
  rewrite C_set_child_eq by (rewrite length_app; lia). by rewrite deref_app_l.
Qed.

Lemma ex_ID q : (q < length h)%nat → ID (deref h' q) = ID (deref h q).
Proof. intros Hq. unfold h'. by rewrite ID_set_child, deref_app_l. Qed.

Lemma ex_F q : (q < length h)%nat → F (deref h' q) = F (deref h q).
Proof. intros Hq. unfold h'. by rewrite F_set_child, deref_app_l. Qed.

Lemma ex_prev_entry i v :
  us !! i = Some v →
  path_nodes us !! i = Some (Unchecked.p v) ∧
  C (deref h (Unchecked.p v)) !! Unchecked.b v = Some (Unchecked.c v) ∧
  Unchecked.p v ≠ curr ∧ (Unchecked.p v < length h)%nat.
Proof.
  intros Hv. destruct (g_chain _ _ HG _ _ Hv) as [Hp Hc].
  split; [done|]. split; [done|]. split.
  - intros E. pose proof (path_nodes_last us) as Hl. fold curr in Hl. rewrite <- E in Hl.
    pose proof (NoDup_lookup _ _ _ _ (g_path_nodup _ _ HG) Hp Hl).
    apply lookup_lt_Some in Hv. lia.
  - apply (g_path_lt _ _ HG). by eapply list_elem_of_lookup_2.
Qed.

Lemma ex_reg_same m : m ∈ reg → deref h' m = deref h m.
Proof.
  intros Hm. apply ex_old; [by apply (g_reg_lt _ _ HG)|].
  intros ->. apply (g_path_reg _ _ HG curr); [apply last_node_in_path|done].
Qed.

Lemma extend_GInv :
  GInv (extend (d, curr) k).1 reg.
Proof.
  rewrite extend_eq. fold h us next nn h'. simpl.
  pose proof ex_curr_lt as Hcurr.
  constructor; simpl.
  - unfold h', set_child. apply heap_ids_insert; [|done].
    apply heap_ids_app; [apply (g_ids _ _ HG)|]. simpl.
    pose proof (g_len _ _ HG). unfold h. lia.
  - rewrite ex_length. pose proof (g_len _ _ HG). unfold h. lia.
  - intros i n k' q Hi Hq. rewrite ex_length.
    pose proof (lookup_lt_Some _ _ _ Hi) as Hlt. rewrite ex_length in Hlt.
    apply deref_lookup in Hi. subst n.
    destruct (decide (i = curr)) as [->|Hne].
    + rewrite ex_curr in Hq. destruct (decide (k = k')) as [<-|Hk].
      * rewrite lookup_insert_eq in Hq. injection Hq as <-. unfold next. lia.
      * rewrite lookup_insert_ne in Hq by done.
        pose proof (heap_closed_deref _ _ _ _ (g_closed _ _ HG) Hcurr Hq). unfold h. lia.
    + destruct (decide (i = next)) as [->|Hne'].
      * rewrite ex_new in Hq. simpl in Hq. by rewrite lookup_empty in Hq.
      * assert (i < length h)%nat as Hi by (unfold next in Hne'; lia).
        rewrite ex_old in Hq by done.
        pose proof (heap_closed_deref _ _ _ _ (g_closed _ _ HG) Hi Hq). unfold h. lia.
  - rewrite ex_F; [apply (g_root_F _ _ HG)|].
    apply (g_path_lt _ _ HG). unfold path_nodes. by left.
  - intros q. rewrite ex_length, path_nodes_snoc, elem_of_app, list_elem_of_singleton.
    simpl. intros [Hq| ->]; [|unfold next; lia].
    pose proof (g_path_lt _ _ HG q Hq). unfold h. lia.
  - rewrite path_nodes_snoc. apply NoDup_app. split; [apply (g_path_nodup _ _ HG)|].
    split; [|apply NoDup_singleton].
    intros q Hq. rewrite list_elem_of_singleton. simpl. intros ->.
    pose proof (g_path_lt _ _ HG _ Hq). unfold next, h in *. lia.
  - intros q. rewrite path_nodes_snoc, elem_of_app, list_elem_of_singleton.
    simpl. intros [Hq| ->]; [by apply (g_path_reg _ _ HG)|].
    intros Hr. pose proof (g_reg_lt _ _ HG _ Hr). unfold next, h in *. lia.
  - by rewrite labels_snoc.
  - intros i v Hv. apply lookup_app_Some in Hv as [Hv|[Hge Hv]].
    + destruct (ex_prev_entry i v Hv) as (Hp & Hc & Hne & Hlt).
      rewrite path_nodes_snoc, lookup_app_l by (by eapply lookup_lt_Some).
      split; [done|]. by rewrite ex_old.
    + destruct (i - length us)%nat as [|j] eqn:Ej; simpl in Hv; [|done].
      injection Hv as <-. simpl. split.
      * rewrite path_nodes_snoc, lookup_app_l by (rewrite length_path_nodes; lia).
        replace i with (length us) by lia. apply path_nodes_last.
      * rewrite ex_curr. apply lookup_insert_eq.
  - intros i v k' q Hv Hq. apply lookup_app_Some in Hv as [Hv|[Hge Hv]].
    + destruct (ex_prev_entry i v Hv) as (Hp & Hc & Hne & Hlt).
      rewrite ex_old in Hq by done. by apply (g_chain_children _ _ HG i).
    + destruct (i - length us)%nat as [|j] eqn:Ej; simpl in Hv; [|done].
      injection Hv as <-. simpl in *. rewrite ex_curr in Hq.
      destruct (decide (k = k')) as [<-|Hk].
      * rewrite lookup_insert_eq in Hq. injection Hq as <-. by left.
      * rewrite lookup_insert_ne in Hq by done. right. split.
        -- by eapply Hbound.
        -- by eapply (g_last_children _ _ HG).
  - intros k' q. rewrite last_node_snoc. simpl. rewrite ex_new. simpl.
    by rewrite lookup_empty.
  - apply (g_reg_nodup _ _ HG).
  - intros m Hm. rewrite ex_length. pose proof (g_reg_lt _ _ HG _ Hm). unfold h. lia.
  - apply (g_reg_min _ _ HG).
  - intros s m Hm.
    assert (m ∈ reg) as Hmreg by (apply (g_reg_min _ _ HG); eauto).
    rewrite ex_reg_same by done.
    rewrite (key_ext h); [by apply (g_min_key _ _ HG)|].
    intros k' q Hq. apply ex_ID.
    eapply (heap_closed_deref _ _ _ _ (g_closed _ _ HG)); [|done].
    by apply (g_reg_lt _ _ HG).
  - intros j m k' q Hm. rewrite ex_reg_same by (by eapply list_elem_of_lookup_2).
    by apply (g_reg_children _ _ HG).
  - intros m Hm. unfold live. rewrite ex_reg_same by done. by apply (g_reg_live _ _ HG).
Qed.

Lemma extend_facts :
  let d' := (extend (d, curr) k).1 in
  (extend (d, curr) k).2 = last_node (unchecked d') ∧
  labels (unchecked d') = labels us ++ [k] ∧
  prevWord d' = prevWord d ∧
  C (deref (heap d') (last_node (unchecked d'))) = ∅ ∧
  F (deref (heap d') (last_node (unchecked d'))) = false ∧
  (length (unchecked d') = S (length us)) ∧
  (length (heap d') = S (length h)) ∧
  (∀ w q, (q < length h)%nat → lookup_from (heap d') q w = lookup_from h q w).
Proof.
  rewrite extend_eq. fold h us next nn h'. simpl.
  rewrite last_node_snoc, labels_snoc. simpl. rewrite ex_new.
  repeat split.
  - rewrite length_app. simpl. lia.
  - apply ex_length.
  - apply lookup_from_extend; auto using ex_curr_lt, ex_fresh. apply (g_closed _ _ HG).
Qed.

End Extend.

(** ** The loop of [Insert] *)

Section ExtendAll.

Lemma extend_all_GInv ks :
  ∀ d reg,
  GInv d reg →
  labels (unchecked d) ++ ks `prefix_of` prevWord d →
  (∀ k0 k' q, head ks = Some k0 →
     C (deref (heap d) (last_node (unchecked d))) !! k' = Some q → (k' < k0)%N) →
  let r := foldl extend (d, last_node (unchecked d)) ks in
  GInv r.1 reg ∧
  r.2 = last_node (unchecked r.1) ∧
  labels (unchecked r.1) = labels (unchecked d) ++ ks ∧
  prevWord r.1 = prevWord d ∧
  (ks ≠ [] → C (deref (heap r.1) r.2) = ∅) ∧
  length (unchecked r.1) = (length (unchecked d) + length ks)%nat ∧
  (∀ w q, (q < length (heap d))%nat →
     lookup_from (heap r.1) q w = lookup_from (heap d) q w).
Proof.
  induction ks as [|k ks IH]; intros d reg HG Hlab Hbound; cbn [foldl].
  - cbn zeta. simpl. rewrite app_nil_r. split; [done|]. do 3 (split; [done|]).
    split; [done|]. split; [lia|]. done.
  - assert (Hlab1 : labels (unchecked d) ++ [k] `prefix_of` prevWord d).
    { destruct Hlab as [r Hr]. exists (ks ++ r). rewrite Hr. by rewrite <- !app_assoc. }
    assert (Hb1 : ∀ k' q,
      C (deref (heap d) (last_node (unchecked d))) !! k' = Some q → (k' < k)%N).
    { intros k' q. by apply Hbound. }
    pose proof (extend_GInv d reg k HG Hlab1 Hb1) as HG1.
    destruct (extend_facts d reg k HG Hb1)
      as (Hc & Hl & Hp & HC & HF & Hlen & Hhl & Hfr).
    set (e := extend (d, last_node (unchecked d)) k) in *.
    assert (e = (e.1, last_node (unchecked e.1))) as Ee.
    { rewrite <- Hc. apply surjective_pairing. }
    rewrite Ee.
    destruct (IH e.1 reg HG1) as (HG2 & Hc2 & Hl2 & Hp2 & HC2 & Hlen2 & Hfr2).
    { rewrite Hl, Hp, <- app_assoc. done. }
    { intros k0 k' q _. rewrite HC, lookup_empty. done. }
    split; [done|]. split; [done|]. split.
    { rewrite Hl2, Hl, <- app_assoc. done. }
    split; [congruence|]. split.
    { intros _. destruct ks as [|k1 ks]; [|by apply HC2].
      cbn [foldl fst snd]. apply HC. }
    split; [rewrite Hlen2, Hlen; simpl; lia|].
    intros w q Hq. rewrite Hfr2, Hfr; [done..|]. rewrite Hhl. lia.
Qed.

End ExtendAll.

(** ** Marking the last node as terminal *)

Section Walk.

Implicit Types (h : list Node) (w : list N).

Lemma walk_snoc h a w k :
  walk h a (w ++ [k]) = walk h a w ≫= λ q, C (deref h q) !! k.
Proof.
  revert a. induction w as [|x w IH]; intros a; simpl.
  - by destruct (C (deref h a) !! k).
  - destruct (C (deref h a) !! x); [apply IH|done].
Qed.

Lemma lookup_from_walk h a w :
  lookup_from h a w = match walk h a w with
                      | Some q => F (deref h q)
                      | None => false
                      end.
Proof.
  revert a. induction w as [|x w IH]; intros a; simpl; [done|].
  destruct (C (deref h a) !! x); [apply IH|done].
Qed.

Lemma walk_set_final h t a w : walk (set_final h t) a w = walk h a w.
Proof.
  revert a. induction w as [|x w IH]; intros a; simpl; [done|].
  rewrite C_set_final. destruct (C (deref h a) !! x); [apply IH|done].
Qed.

Lemma lookup_from_set_final h t a w :
  (t < length h)%nat →
  lookup_from (set_final h t) a w
  = lookup_from h a w || bool_decide (walk h a w = Some t).
Proof.
  intros Ht. rewrite !lookup_from_walk, walk_set_final.
  destruct (walk h a w) as [q|]; [|done].
  destruct (decide (q = t)) as [->|Hne].
  - rewrite deref_set_final_eq by done. simpl.
    rewrite bool_decide_eq_true_2 by done. by rewrite orb_true_r.
  - rewrite deref_set_final_ne by done.
    rewrite bool_decide_eq_false_2 by congruence. by rewrite orb_false_r.
Qed.

Variables (d : DAWG) (reg : list nat).
Hypothesis HG : GInv d reg.

Let h := heap d.
Let us := unchecked d.

(** The chain is a path from the root, labelled by [labels]. *)
Lemma walk_chain i :
  (i ≤ length us)%nat → walk h root (take i (labels us)) = path_nodes us !! i.
Proof.
  induction i as [|i IH]; intros Hi; [done|].
  destruct (lookup_lt_is_Some_2 us i) as [u Hu]; [lia|].
  assert (labels us !! i = Some (Unchecked.b u)) as Hb.
  { unfold labels. by rewrite list_lookup_fmap, Hu. }
  rewrite (take_S_r _ _ _ Hb), walk_snoc, IH by lia.
  destruct (g_chain _ _ HG i u Hu) as [Hp Hc]. fold us in Hp. rewrite Hp. simpl.
  fold h in Hc. rewrite Hc. unfold path_nodes. simpl.
  by rewrite list_lookup_fmap, Hu.
Qed.

(** A node reached from the root is registered, or it is the node of the
    chain at the depth of the word that reaches it. *)
Lemma walk_classify w q :
  walk h root w = Some q →
  q ∈ reg ∨ ∃ i, (i ≤ length us)%nat ∧ path_nodes us !! i = Some q ∧ w = take i (labels us).
Proof.
  revert q. induction w as [|k w IH] using rev_ind; intros q Hw.
  - injection Hw as <-. right. exists 0%nat. split; [lia|]. done.
  - rewrite walk_snoc in Hw. destruct (walk h root w) as [a|] eqn:Ea; [|done].
    simpl in Hw. destruct (IH a eq_refl) as [Ha|(i & Hi & Hp & ->)].
    + left. apply list_elem_of_lookup in Ha as [j Hj].
      apply (subseteq_take j reg), (g_reg_children _ _ HG j a k q); [done|]. apply Hw.
    + destruct (decide (i = length us)) as [->|Hne].
      * left. apply (g_last_children _ _ HG k).
        pose proof (path_nodes_last us) as Hl. rewrite Hp in Hl. injection Hl as Hl.
        fold us h. rewrite <- Hl. apply Hw.
      * destruct (lookup_lt_is_Some_2 us i) as [u Hu]; [lia|].
        destruct (g_chain _ _ HG i u Hu) as [Hp' Hc]. fold us in Hp'.
        rewrite Hp in Hp'. injection Hp' as ->.
        destruct (g_chain_children _ _ HG i u k q Hu Hw) as [[-> ->]|[_ ?]]; [|by left].
        right. exists (S i). split; [lia|]. split.
        -- unfold path_nodes. simpl. by rewrite list_lookup_fmap, Hu.
        -- symmetry. apply take_S_r. unfold labels. by rewrite list_lookup_fmap, Hu.
Qed.

(** Only the word spelled by the chain reaches its last node. *)
Lemma walk_last w :
  walk h root w = Some (last_node us) ↔ w = labels us.
Proof.
  split.
  - intros Hw. destruct (walk_classify w _ Hw) as [Hr|(i & Hi & Hp & ->)].
    + exfalso. apply (g_path_reg _ _ HG (last_node us)); [apply last_node_in_path|done].
    + pose proof (NoDup_lookup _ _ _ _ (g_path_nodup _ _ HG) Hp (path_nodes_last us)) as ->.
      apply take_ge. by rewrite length_labels.
  - intros ->. rewrite <- (path_nodes_last us), <- walk_chain by done.
    by rewrite take_ge by (by rewrite length_labels).
Qed.

Lemma last_node_lt : (last_node us < length h)%nat.
Proof. apply (g_path_lt _ _ HG), last_node_in_path. Qed.

Lemma last_node_not_root : us ≠ [] → last_node us ≠ root.
Proof.
  intros Hne E. pose proof (path_nodes_last us) as Hl. rewrite E in Hl.
  assert (path_nodes us !! 0%nat = Some root) as H0 by done.
  pose proof (NoDup_lookup _ _ _ _ (g_path_nodup _ _ HG) Hl H0).
  destruct us; simpl in *; [done|lia].
Qed.

Lemma set_final_GInv :
  us ≠ [] → GInv (set_heap d (set_final h (last_node us))) reg.
Proof.
  intros Hne. pose proof (last_node_not_root Hne) as Hroot.
  pose proof last_node_lt as Hlt.
  constructor; simpl.
  - unfold set_final. apply heap_ids_insert; [apply (g_ids _ _ HG)|done].
  - rewrite length_set_final. apply (g_len _ _ HG).
  - intros i n k q Hi Hq. rewrite length_set_final.
    pose proof (lookup_lt_Some _ _ _ Hi) as Hi'. rewrite length_set_final in Hi'.
    apply deref_lookup in Hi. subst n. rewrite C_set_final in Hq.
    by eapply (heap_closed_deref _ _ _ _ (g_closed _ _ HG)).
  - rewrite F_set_final_ne by done. apply (g_root_F _ _ HG).
  - intros q Hq. rewrite length_set_final. by apply (g_path_lt _ _ HG).
  - apply (g_path_nodup _ _ HG).
  - apply (g_path_reg _ _ HG).
  - apply (g_labels _ _ HG).
  - intros i u Hu. rewrite C_set_final. by apply (g_chain _ _ HG).
  - intros i u k q Hu. rewrite C_set_final. by apply (g_chain_children _ _ HG i).
  - intros k q. rewrite C_set_final. apply (g_last_children _ _ HG).
  - apply (g_reg_nodup _ _ HG).
  - intros m Hm. rewrite length_set_final. by apply (g_reg_lt _ _ HG).
  - apply (g_reg_min _ _ HG).
  - intros s m Hm.
    assert (m ∈ reg) as Hmreg by (apply (g_reg_min _ _ HG); eauto).
    rewrite deref_set_final_ne.
    + rewrite (key_ext h); [by apply (g_min_key _ _ HG)|].
      intros k q _. apply ID_set_final.
    + intros E. apply (g_path_reg _ _ HG (last_node us)); [apply last_node_in_path|].
      by rewrite E.
  - intros j m k q Hm. rewrite C_set_final. by apply (g_reg_children _ _ HG).
  - intros m Hm. unfold live. rewrite deref_set_final_ne.
    + by apply (g_reg_live _ _ HG).
    + intros E. apply (g_path_reg _ _ HG (last_node us)); [apply last_node_in_path|].
      by rewrite E.
Qed.

End Walk.

(** ** The order on words *)

Section WordOrder.

Implicit Types (x y : list N).

Lemma str_le_false_lcp word prev :
  str_le word prev = false →
  (lcpLength word prev ≤ length prev)%nat ∧
  take (lcpLength word prev) word = take (lcpLength word prev) prev ∧
  ∃ a, word !! lcpLength word prev = Some a ∧
       ∀ b, prev !! lcpLength word prev = Some b → (b < a)%N.
Proof.
  revert prev. induction word as [|a word IH]; intros prev; simpl; [done|].
  destruct prev as [|b prev]; simpl.
  - intros _. split; [lia|]. split; [done|]. exists a. split; [done|]. done.
  - destruct (N.ltb_spec a b) as [Hlt|Hge]; [done|].
    destruct (N.eqb_spec a b) as [->|Hne].
    + intros Hle. destruct (IH prev Hle) as (Hl & Ht & a & Ha & Hb).
      split; [simpl; lia|]. split; [simpl; by f_equal|]. exists a. done.
    + intros _. split; [lia|]. split; [done|]. exists a. split; [done|].
      simpl. intros b' [= <-]. lia.
Qed.

Lemma str_le_nil_l y : str_le [] y = true.
Proof. done. Qed.

Lemma str_lt_lex x y : str_lt x y = true ↔ lex_lt x y.
Proof.
  unfold str_lt. rewrite negb_true_iff. revert x.
  induction y as [|b y IH]; intros x; simpl.
  - split; [done|]. intros [(r & Hr & E)|(pre & a & b & x' & y' & _ & E & _)].
    + symmetry in E. apply app_eq_nil in E as [_ ->]. done.
    + by destruct pre.
  - destruct x as [|a x].
    { split; [|done]. intros _. left. by exists (b :: y). }
    destruct (N.ltb_spec b a) as [Hlt|Hge].
    { split; [done|]. intros [(r & Hr & E)|(pre & a' & b' & x' & y' & E1 & E2 & Hab)].
      - injection E as -> _. lia.
      - destruct pre; simpl in *; injection E1 as -> ->; injection E2 as -> ->; lia. }
    destruct (N.eqb_spec b a) as [->|Hne].
    + rewrite IH. split.
      * intros [(r & Hr & ->)|(pre & a' & b' & x' & y' & -> & -> & Hab)].
        -- left. by exists r.
        -- right. by exists (a :: pre), a', b', x', y'.
      * intros [(r & Hr & E)|(pre & a' & b' & x' & y' & E1 & E2 & Hab)].
        -- injection E as ->. left. by exists r.
        -- destruct pre as [|c pre]; simpl in *.
           ++ injection E1 as -> ->. injection E2 as -> ->. lia.
           ++ injection E1 as -> ->. injection E2 as ->.
              right. by exists pre, a', b', x', y'.
    + split; [|done]. intros _. right. exists [], a, b, x, y.
      split; [done|]. split; [done|]. lia.
Qed.

End WordOrder.

(** ** [Insert] and [Finish] keep the invariant *)

Section InsertInv.

Lemma GInv_set_prevWord d reg pw :
  GInv d reg → labels (unchecked d) `prefix_of` pw →
  GInv (mkDAWG (heap d) pw (seq d) (unchecked d) (minimized d)) reg.
Proof. intros [] Hp. by constructor. Qed.

Lemma Inv_newDAWG : Inv newDAWG [] [].
Proof.
  constructor; [constructor|..]; simpl; try done.
  - intros [|i] n; simpl; [by intros [= <-]|done].
  - intros [|i] n k q; simpl; [intros [= <-]|done]. simpl. by rewrite lookup_empty.
  - intros q. unfold path_nodes. simpl. rewrite list_elem_of_singleton. intros ->.
    unfold root. lia.
  - unfold path_nodes. simpl. apply NoDup_singleton.
  - intros q _. apply not_elem_of_nil.
  - apply NoDup_nil_2.
  - intros m Hm. by apply not_elem_of_nil in Hm.
  - intros m. split; [intros Hm; by apply not_elem_of_nil in Hm|].
    intros [k Hk]. by rewrite lookup_empty in Hk.
  - intros m Hm. by apply not_elem_of_nil in Hm.
  - intros w. unfold Lookup. simpl. split.
    + destruct w; [done|]. simpl. unfold deref. simpl. by rewrite lookup_empty.
    + intros Hw. by apply not_elem_of_nil in Hw.
Qed.

Lemma Insert_Inv d reg ws word :
  Inv d reg ws → str_le word (prevWord d) = false →
  ∃ d' reg', Insert d word = Ok d' ∧ Inv d' reg' (ws ++ [word]).
Proof.
  intros [HG Hlab Hleaf Hprev Hlang Hfinal] Hle.
  destruct (str_le_false_lcp word (prevWord d) Hle) as (Hl & Htake & x & Hx & Hy).
  set (l := lcpLength word (prevWord d)) in *.
  assert (length (unchecked d) = length (prevWord d)) as Hlen
    by (by rewrite <- Hlab, length_labels).
  destruct (minimize_GInv d reg l HG) as (d1 & reg1 & Hmin & HG1 & Hus1 & Hpw1 & Hfr);
    [lia|intros Hne; left; by apply Hfinal|].
  destruct Hfr as (Hlenh & HFfr & Hdom & Hlook).
  unfold Insert. rewrite Hle. fold l. rewrite Hmin. cbn [mbind result_bind].
  set (d2 := mkDAWG (heap d1) word (seq d1) (unchecked d1) (minimized d1)).
  change (match last (unchecked d2) with
          | Some u => Unchecked.c u
          | None => root
          end) with (last_node (unchecked d2)).
  assert (labels (unchecked d1) = take l word) as Hlab1.
  { by rewrite Hus1, labels_take, Hlab. }
  assert (GInv d2 reg1) as HG2.
  { apply GInv_set_prevWord; [done|]. rewrite Hlab1. apply prefix_take. }
  assert (Hbound : ∀ k0 k' q, head (drop l word) = Some k0 →
            C (deref (heap d2) (last_node (unchecked d2))) !! k' = Some q → (k' < k0)%N).
  { intros k0 k' q Hk0 Hq. simpl in Hq.
    rewrite head_lookup, lookup_drop, Nat.add_0_r, Hx in Hk0. injection Hk0 as <-.
    assert (k' ∈ dom (C (deref (heap d) (last_node (unchecked d1))))) as Hin.
    { rewrite <- Hdom. apply elem_of_dom. eauto. }
    apply elem_of_dom in Hin as [q0 Hq0]. rewrite Hus1 in Hq0.
    destruct (unchecked d !! l) as [u|] eqn:Eu.
    - pose proof (last_node_take _ _ _ Eu) as Hp.
      destruct (g_chain _ _ HG _ _ Eu) as [Hp' _]. rewrite Hp in Hp'.
      injection Hp' as Hp'. rewrite Hp' in Hq0.
      assert (prevWord d !! l = Some (Unchecked.b u)) as Hb.
      { rewrite <- Hlab. unfold labels. by rewrite list_lookup_fmap, Eu. }
      specialize (Hy _ Hb).
      destruct (g_chain_children _ _ HG l u k' q0 Eu Hq0) as [[-> _]|[? _]]; lia.
    - apply lookup_ge_None in Eu. rewrite take_ge in Hq0 by lia.
      rewrite Hleaf, lookup_empty in Hq0. done. }
  assert (labels (unchecked d2) ++ drop l word = word) as Hword.
  { simpl. rewrite Hlab1. apply take_drop. }
  destruct (extend_all_GInv (drop l word) d2 reg1 HG2)
    as (HG3 & Hc3 & Hl3 & Hp3 & HC3 & Hlen3 & Hfr3); [by rewrite Hword|done|].
  assert (drop l word ≠ []) as Hne.
  { intros E. assert (drop l word !! 0%nat = Some x) as E'
      by (by rewrite lookup_drop, Nat.add_0_r).
    by rewrite E in E'. }
  destruct (foldl extend (d2, last_node (unchecked d2)) (drop l word))
    as [d3 c3] eqn:E3.
  cbn [fst snd] in *. subst c3. rewrite Hword in Hl3.
  assert (unchecked d3 ≠ []) as Hne3.
  { intros E. rewrite E in Hlen3. simpl in Hlen3.
    destruct (drop l word); [done|]. simpl in Hlen3. lia. }
  eexists _, reg1. split; [reflexivity|].
  constructor; simpl.
  - by apply (set_final_GInv d3 reg1).
  - by rewrite Hl3.
  - rewrite C_set_final. by apply HC3.
  - by rewrite Hp3, last_snoc.
  - intros w. unfold Lookup. simpl.
    rewrite lookup_from_set_final by (by eapply last_node_lt).
    rewrite orb_true_iff, bool_decide_eq_true, (walk_last d3 reg1 HG3), Hl3.
    rewrite Hfr3.
    + simpl. rewrite Hlook. fold (Lookup d w). rewrite Hlang.
      rewrite elem_of_app, list_elem_of_singleton. done.
    + simpl. rewrite Hlenh. apply (g_path_lt _ _ HG). unfold path_nodes. by left.
  - intros _. rewrite deref_set_final_eq by (by eapply last_node_lt). done.
Qed.

Lemma Finish_Inv d reg ws :
  Inv d reg ws →
  ∃ d' reg', Finish d = Ok d' ∧ GInv d' reg' ∧ unchecked d' = [] ∧
    prevWord d' = prevWord d ∧ ∀ w, Lookup d' w = true ↔ w ∈ ws.
Proof.
  intros [HG Hlab Hleaf Hprev Hlang Hfinal].
  destruct (minimize_GInv d reg 0 HG) as (d1 & reg1 & Hmin & HG1 & Hus1 & Hpw1 & Hfr);
    [lia|intros Hne; left; by apply Hfinal|].
  exists d1, reg1. split; [done|]. split; [done|]. split; [by rewrite Hus1|].
  split; [done|]. intros w. destruct Hfr as (_ & _ & _ & Hlook).
  unfold Lookup. rewrite Hlook. apply Hlang.
Qed.

Lemma Insert_Ok_order d word d' : Insert d word = Ok d' → str_le word (prevWord d) = false.
Proof. unfold Insert. by destruct (str_le word (prevWord d)). Qed.

Lemma insert_all_Inv ws' :
  ∀ d reg ws d',
  Inv d reg ws → insert_all d ws' = Ok d' → ∃ reg', Inv d' reg' (ws ++ ws').
Proof.
  induction ws' as [|w ws' IH]; intros d reg ws d' HI Hins; simpl in Hins.
  - injection Hins as <-. exists reg. by rewrite app_nil_r.
  - destruct (Insert d w) as [d1|e] eqn:E1; [|done]. cbn [mbind result_bind] in Hins.
    destruct (Insert_Inv d reg ws w HI (Insert_Ok_order _ _ _ E1)) as (d1' & reg1 & E & HI1).
    rewrite E1 in E. injection E as <-.
    destruct (IH d1 reg1 _ d' HI1 Hins) as [reg' HI'].
    exists reg'. by rewrite <- app_assoc in HI'.
Qed.

Lemma building_Inv ws d : insert_all newDAWG ws = Ok d → ∃ reg, Inv d reg ws.
Proof. intros H. by apply (insert_all_Inv ws newDAWG [] [] d Inv_newDAWG). Qed.

Lemma insert_all_ascending ws' :
  ∀ d reg ws,
  Inv d reg ws → ascending (prevWord d) ws' = true → ∃ d', insert_all d ws' = Ok d'.
Proof.
  induction ws' as [|w ws' IH]; intros d reg ws HI Hasc; simpl in *; [eauto|].
  apply andb_true_iff in Hasc as [Hlt Hasc].
  unfold str_lt in Hlt. apply negb_true_iff in Hlt.
  destruct (Insert_Inv d reg ws w HI Hlt) as (d1 & reg1 & E & HI1).
  rewrite E. cbn [mbind result_bind]. apply (IH d1 reg1 _ HI1).
  rewrite (i_prev _ _ _ HI1), last_snoc. done.
Qed.

Lemma build_Ok_inv ws d :
  build ws = Ok d →
  ∃ d0, insert_all newDAWG ws = Ok d0 ∧ Finish d0 = Ok d.
Proof.
  unfold build. destruct (insert_all newDAWG ws) as [d0|e]; [|done].
  cbn [mbind result_bind]. eauto.
Qed.

Lemma finished_GInv ws d :
  build ws = Ok d →
  ∃ reg, GInv d reg ∧ unchecked d = [] ∧ ∀ w, Lookup d w = true ↔ w ∈ ws.
Proof.
  intros Hb. apply build_Ok_inv in Hb as (d0 & Hins & Hfin).
  destruct (building_Inv ws d0 Hins) as [reg HI].
  destruct (Finish_Inv d0 reg ws HI) as (d' & reg' & Hfin' & HG & Hus & _ & Hlang).
  rewrite Hfin in Hfin'. injection Hfin' as <-. eauto.
Qed.

Lemma build_ascending ws : ascending [] ws = true → ∃ d, build ws = Ok d.
Proof.
  intros Hasc.
  destruct (insert_all_ascending ws newDAWG [] [] Inv_newDAWG Hasc) as [d0 Hins].
  destruct (building_Inv ws d0 Hins) as [reg HI].
  destruct (Finish_Inv d0 reg ws HI) as (d' & reg' & Hfin' & _).
  exists d'. unfold build. rewrite Hins. done.
Qed.

Lemma reachable_GInv d : reachable d → ∃ reg, GInv d reg.
Proof.
  intros [[ws Hb]|[ws Hf]].
  - destruct (building_Inv ws d Hb) as [reg HI]. exists reg. apply HI.
  - destruct (finished_GInv ws d Hf) as (reg & HG & _). eauto.
Qed.

End InsertInv.

(** ** Membership *)

(** C1: for every list of words that is strictly increasing (the first one
    above the empty initial [prevWord]), inserting them in order and
    finishing succeeds, and [Lookup] is true exactly for the inserted
    words. *)
Theorem lookup_iff_inserted ws :
  ascending [] ws = true →
  ∃ d, build ws = Ok d ∧ ∀ w, Lookup d w = true ↔ w ∈ ws.
Proof.
  intros Hasc. destruct (build_ascending ws Hasc) as [d Hd].
  exists d. split; [done|].
  destruct (finished_GInv ws d Hd) as (reg & _ & _ & Hlang). done.
Qed.

Lemma lookup_iff_inserted_witness :
  ∃ d, build ex_words = Ok d ∧ ∀ w, Lookup d w = true ↔ w ∈ ex_words.
Proof. apply (lookup_iff_inserted ex_words). vm_compute. reflexivity. Defined.

(** ** The ordering check of [Insert] *)

Lemma Insert_unordered d w : str_le w (prevWord d) = true → Insert d w = Panic ErrOrder.
Proof. intros H. unfold Insert. by rewrite H. Qed.

(** C5: after any successful sequence of insertions, [Insert] panics with
    the ordering violation exactly when the word is not lexicographically
    above the previously inserted word (the empty word before the first
    insertion); a word that is above it is inserted without any panic. *)
Theorem Insert_ordering ws d w :
  insert_all newDAWG ws = Ok d →
  (Insert d w = Panic ErrOrder ↔ ¬ lex_lt (default [] (last ws)) w) ∧
  (lex_lt (default [] (last ws)) w → ∃ d', Insert d w = Ok d').
Proof.
  intros Hins. destruct (building_Inv ws d Hins) as [reg HI].
  rewrite <- (i_prev _ _ _ HI), <- str_lt_lex. unfold str_lt.
  destruct (str_le w (prevWord d)) eqn:Hle; simpl.
  - rewrite (Insert_unordered d w Hle). split; [|done]. split; [|done]. by intros _ ?.
  - destruct (Insert_Inv d reg ws w HI Hle) as (d' & reg' & E & _). rewrite E.
    split; [|eauto]. split; [done|]. intros H. by destruct H.
Qed.

Lemma Insert_ordering_witness :
  (Insert newDAWG (bytes "a") = Panic ErrOrder ↔ ¬ lex_lt [] (bytes "a")) ∧
  (lex_lt [] (bytes "a") → ∃ d', Insert newDAWG (bytes "a") = Ok d').
Proof. apply (Insert_ordering [] newDAWG (bytes "a")). reflexivity. Defined.

Example Insert_b_then_a :
  insert_all newDAWG [bytes "b"; bytes "a"] = Panic ErrOrder.
Proof. vm_compute. reflexivity. Qed.

Example Insert_a_then_a :
  insert_all newDAWG [bytes "a"; bytes "a"] = Panic ErrOrder.
Proof. vm_compute. reflexivity. Qed.

(** ** The empty word *)

Lemma Insert_nil d : Insert d [] = Panic ErrOrder.
Proof. by apply Insert_unordered. Qed.

Lemma reachable_ex_dawg : reachable ex_dawg.
Proof. right. exists ex_words. vm_compute. reflexivity. Defined.

(** C10: in every reachable state, [Insert] of the empty word panics with the
    ordering violation, the root is not terminal, and [Lookup] of the empty
    word is false. *)
Theorem empty_word_never_member d :
  reachable d →
  Insert d [] = Panic ErrOrder ∧
  F (deref (heap d) root) = false ∧
  Lookup d [] = false.
Proof.
  intros Hr. destruct (reachable_GInv d Hr) as [reg HG].
  split; [apply Insert_nil|]. split; apply (g_root_F _ _ HG).
Qed.

Lemma empty_word_never_member_witness :
  Insert ex_dawg [] = Panic ErrOrder ∧
  F (deref (heap ex_dawg) root) = false ∧
  Lookup ex_dawg [] = false.
Proof. apply empty_word_never_member. exact reachable_ex_dawg. Defined.

(** ** Acyclicity *)

Section Rank.

Lemma index_of_lookup (l : list nat) i q :
  NoDup l → l !! i = Some q → index_of q l = i.
Proof.
  revert i. induction l as [|x l IH]; intros i Hnd Hi; [done|].
  apply NoDup_cons in Hnd as [Hx Hnd]. simpl.
  destruct i as [|i]; simpl in Hi.
  - injection Hi as ->. by rewrite decide_True.
  - rewrite decide_False.
    + f_equal. by apply IH.
    + intros ->. apply Hx. by eapply list_elem_of_lookup_2.
Qed.

Variables (d : DAWG) (reg : list nat).
Hypothesis HG : GInv d reg.

Let h := heap d.
Let us := unchecked d.

Lemma rank_reg j q : reg !! j = Some q → rank reg us q = j.
Proof.
  intros Hj. unfold rank. rewrite decide_True by (by eapply list_elem_of_lookup_2).
  apply index_of_lookup; [apply (g_reg_nodup _ _ HG)|done].
Qed.

Lemma rank_path i q :
  path_nodes us !! i = Some q → rank reg us q = (length reg + S (length us) - i)%nat.
Proof.
  intros Hi. unfold rank. rewrite decide_False.
  - f_equal. apply index_of_lookup; [apply (g_path_nodup _ _ HG)|done].
  - apply (g_path_reg _ _ HG). by eapply list_elem_of_lookup_2.
Qed.

Lemma edge_rank a q :
  known reg us a → edge h a q → known reg us q ∧ (rank reg us q < rank reg us a)%nat.
Proof.
  intros [Ha|Ha] [k Hk].
  - apply list_elem_of_lookup in Ha as [j Hj].
    pose proof (g_reg_children _ _ HG j a k q Hj Hk) as Hq.
    apply elem_of_take in Hq as (j' & Hj' & Hlt).
    split; [left; by eapply list_elem_of_lookup_2|].
    by rewrite (rank_reg j a), (rank_reg j' q).
  - apply list_elem_of_lookup in Ha as [i Hi].
    pose proof (lookup_lt_Some _ _ _ Hi) as Hlt. rewrite length_path_nodes in Hlt.
    rewrite (rank_path i a Hi).
    assert (∀ q', q' ∈ reg → (rank reg us q' < length reg)%nat) as Hregrank.
    { intros q' Hq'. apply list_elem_of_lookup in Hq' as [j Hj].
      rewrite (rank_reg j q' Hj). by eapply lookup_lt_Some. }
    destruct (decide (i = length us)) as [->|Hne].
    + pose proof (path_nodes_last us) as Hl. rewrite Hi in Hl. injection Hl as ->.
      pose proof (g_last_children _ _ HG k q Hk) as Hq.
      split; [by left|]. specialize (Hregrank q Hq). lia.
    + destruct (lookup_lt_is_Some_2 us i) as [u Hu]; [lia|].
      destruct (g_chain _ _ HG i u Hu) as [Hp Hc]. fold us in Hp.
      rewrite Hi in Hp. injection Hp as ->.
      destruct (g_chain_children _ _ HG i u k q Hu Hk) as [[-> ->]|[_ Hq]].
      * assert (path_nodes us !! S i = Some (Unchecked.c u)) as Hc'.
        { unfold path_nodes. simpl. by rewrite (list_lookup_fmap Unchecked.c), Hu. }
        split; [right; by eapply list_elem_of_lookup_2|].
        rewrite (rank_path (S i) _ Hc'). lia.
      * split; [by left|]. specialize (Hregrank q Hq). lia.
Qed.

Lemma known_root : known reg us root.
Proof. right. unfold path_nodes. by left. Qed.

Lemma rtc_known a q : known reg us a → rtc (edge h) a q → known reg us q.
Proof.
  intros Ha Hr. induction Hr as [|a q' q He Hr IH]; [done|].
  apply IH. by apply (edge_rank a q').
Qed.

Lemma rtc_rank a q :
  known reg us a → rtc (edge h) a q → (rank reg us q ≤ rank reg us a)%nat.
Proof.
  intros Ha Hr. induction Hr as [|a q' q He Hr IH]; [done|].
  destruct (edge_rank a q' Ha He) as [Hq' Hlt]. specialize (IH Hq'). lia.
Qed.

Lemma tc_rank a q :
  known reg us a → tc (edge h) a q → (rank reg us q < rank reg us a)%nat.
Proof.
  intros Ha Ht. revert Ha.
  induction Ht as [a q He|a q' q He Ht IH]; intros Ha.
  - by apply edge_rank.
  - destruct (edge_rank a q' Ha He) as [Hq' Hlt]. specialize (IH Hq'). lia.
Qed.

Lemma GInv_acyclic q : rtc (edge h) root q → ¬ tc (edge h) q q.
Proof.
  intros Hr Ht. pose proof (rtc_known root q known_root Hr) as Hq.
  pose proof (tc_rank q q Hq Ht). lia.
Qed.

End Rank.

(** C6: in every state reached by insertions, finished or not, no node that
    is reachable from the root lies on a cycle. *)
Theorem acyclic d :
  reachable d → ∀ q, rtc (edge (heap d)) root q → ¬ tc (edge (heap d)) q q.
Proof.
  intros Hr q. destruct (reachable_GInv d Hr) as [reg HG].
  by apply (GInv_acyclic d reg HG).
Qed.

Lemma ex_dawg_reach_1 : rtc (edge (heap ex_dawg)) root 1%nat.
Proof.
  apply (rtc_l _ _ 1%nat); [|apply rtc_refl].
  exists 97%N. vm_compute. reflexivity.
Defined.

Lemma ex_dawg_reach_3 : rtc (edge (heap ex_dawg)) root 3%nat.
Proof.
  apply (rtc_l _ _ 1%nat); [exists 97%N; vm_compute; reflexivity|].
  apply (rtc_l _ _ 3%nat); [|apply rtc_refl].
  exists 115%N. vm_compute. reflexivity.
Defined.

Lemma acyclic_witness :
  rtc (edge (heap ex_dawg)) root 1%nat ∧ ¬ tc (edge (heap ex_dawg)) 1%nat 1%nat.
Proof.
  split; [exact ex_dawg_reach_1|].
  apply (acyclic ex_dawg reachable_ex_dawg 1%nat ex_dawg_reach_1).
Defined.

(** ** Minimality *)

Section Minimal.

Variables (d : DAWG) (reg : list nat).
Hypothesis HG : GInv d reg.
Hypothesis Hfin : unchecked d = [].

Let h := heap d.

Lemma known_lt q : known reg (unchecked d) q → (q < length h)%nat.
Proof. intros [Hq|Hq]; [by apply (g_reg_lt _ _ HG)|by apply (g_path_lt _ _ HG)]. Qed.

Lemma known_key q :
  known reg (unchecked d) q → key h (deref h q) = Ok (key_buf h (deref h q)).
Proof.
  intros Hq. apply key_Ok; [apply (g_ids _ _ HG)|].
  intros k c. apply (heap_closed_deref _ _ _ _ (g_closed _ _ HG)). by apply known_lt.
Qed.

Lemma finished_known q : known reg (unchecked d) q → q ∈ reg ∨ q = root.
Proof.
  intros [Hq|Hq]; [by left|]. rewrite Hfin in Hq. unfold path_nodes in Hq. simpl in Hq.
  apply list_elem_of_singleton in Hq. by right.
Qed.

Lemma reg_same_key q1 q2 :
  q1 ∈ reg → q2 ∈ reg → key h (deref h q1) = key h (deref h q2) → q1 = q2.
Proof.
  intros H1 H2 E.
  apply (g_reg_min _ _ HG) in H1 as [k1 Hk1]. apply (g_reg_min _ _ HG) in H2 as [k2 Hk2].
  pose proof (g_min_key _ _ HG _ _ Hk1) as E1. pose proof (g_min_key _ _ HG _ _ Hk2) as E2.
  fold h in E1, E2. rewrite E, E2 in E1. injection E1 as ->. congruence.
Qed.

(** No registered node that is reachable from the root has the signature of
    the root: the two would have the same children, and the node would lie
    on a cycle. *)
Lemma root_key_unique q :
  q ∈ reg → rtc (edge h) root q → key h (deref h root) ≠ key h (deref h q).
Proof.
  intros Hq Hr E.
  assert (q ≠ root) as Hne.
  { intros ->. apply (g_path_reg _ _ HG root); [|done]. unfold path_nodes. by left. }
  assert (C (deref h root) = C (deref h q)) as HC.
  { pose proof (known_key root (known_root d reg)) as E1.
    rewrite E in E1.
    eapply (same_key_same_node h (deref h root) (deref h q));
      [apply (g_ids _ _ HG)| | |by rewrite E|exact E1].
    - intros k c. apply (heap_closed_deref _ _ _ _ (g_closed _ _ HG)).
      apply known_lt, known_root.
    - intros k c. apply (heap_closed_deref _ _ _ _ (g_closed _ _ HG)).
      by apply (g_reg_lt _ _ HG). }
  apply (GInv_acyclic d reg HG q Hr).
  inversion Hr as [|? c1 ? He Hr']; subst; [done|].
  destruct He as [k Hk]. fold h in Hk. rewrite HC in Hk.
  eapply tc_rtc_r; [|exact Hr']. apply tc_once. by exists k.
Qed.

Lemma GInv_minimal q1 q2 :
  rtc (edge h) root q1 → rtc (edge h) root q2 →
  (∃ s, key h (deref h q1) = Ok s) ∧
  (key h (deref h q1) = key h (deref h q2) → q1 = q2).
Proof.
  intros H1 H2.
  pose proof (rtc_known d reg HG root q1 (known_root d reg) H1) as K1.
  pose proof (rtc_known d reg HG root q2 (known_root d reg) H2) as K2.
  split; [rewrite known_key by done; eauto|]. intros E.
  destruct (finished_known q1 K1) as [R1| ->], (finished_known q2 K2) as [R2| ->].
  - by apply reg_same_key.
  - exfalso. by apply (root_key_unique q1 R1 H1).
  - exfalso. by apply (root_key_unique q2 R2 H2).
  - done.
Qed.

End Minimal.

Lemma build_ex_dawg : build ex_words = Ok ex_dawg.
Proof. vm_compute. reflexivity. Defined.

(** ** [LookupPrefix] *)

(** C3, at the words [a], [are], [as], [at] and the prefix [a]: whatever
    order the map iteration takes, [LookupPrefix] returns the empty string
    with [true]; the buffer starts empty and holds only the bytes after the
    prefix. The empty string is none of the inserted words. *)
Theorem LookupPrefix_drops_prefix picks :
  build ex_words = Ok ex_dawg ∧
  LookupPrefix picks ex_dawg (bytes "a") = Some ([], true) ∧
  [] ∉ ex_words.
Proof.
  split; [vm_compute; reflexivity|]. split.
  - destruct picks; vm_compute; reflexivity.
  - intros H. repeat (apply elem_of_cons in H as [H|H]; [discriminate|]).
    by apply not_elem_of_nil in H.
Qed.

(** The same at the prefix [ar]: the result is [e], not [are]. *)
Example LookupPrefix_ar picks :
  LookupPrefix (0%nat :: picks) ex_dawg (bytes "ar") = Some (bytes "e", true).
Proof. destruct picks; vm_compute; reflexivity. Qed.

(** C4, at the automaton without words and the empty prefix: the root is not
    terminal and has no edge, so the loop of [LookupPrefix] never leaves,
    however long it runs. *)
Theorem LookupPrefix_empty_diverges picks :
  build [] = Ok newDAWG ∧ LookupPrefix picks newDAWG [] = None.
Proof.
  split; [vm_compute; reflexivity|].
  unfold LookupPrefix. simpl.
  assert (complete [zeroNode] picks root [] = None) as ->; [|done].
  induction picks as [|i picks IH]; [done|]. simpl. exact IH.
Qed.

(** ** First occurrences *)

Section Dedup.

Implicit Types (S : gset nat) (l : list nat).

Lemma dedup_from_app S l1 l2 :
  dedup_from S (l1 ++ l2) = dedup_from S l1 ++ dedup_from (S ∪ list_to_set l1) l2.
Proof.
  revert S. induction l1 as [|x l1 IH]; intros S; simpl.
  - f_equal. set_solver.
  - destruct (decide (x ∈ S)) as [Hx|Hx].
    + rewrite IH. do 2 f_equal. set_solver.
    + simpl. rewrite IH. do 3 f_equal. set_solver.
Qed.

Lemma elem_of_dedup_from S l x : x ∈ dedup_from S l ↔ x ∈ l ∧ x ∉ S.
Proof.
  revert S. induction l as [|y l IH]; intros S; simpl.
  - split; [by intros ?%not_elem_of_nil|]. by intros [?%not_elem_of_nil _].
  - destruct (decide (y ∈ S)) as [Hy|Hy].
    + rewrite IH, elem_of_cons. split; [naive_solver|].
      intros [[->|?] ?]; [done|]. done.
    + rewrite !elem_of_cons, IH. split.
      * intros [->|[? ?]]; [auto|]. split; [auto|]. set_solver.
      * intros [[->|?] ?]; [auto|].
        destruct (decide (x = y)) as [->|?]; [auto|]. right. split; [done|]. set_solver.
Qed.

Lemma NoDup_dedup_from S l : NoDup (dedup_from S l).
Proof.
  revert S. induction l as [|y l IH]; intros S; simpl; [constructor|].
  destruct (decide (y ∈ S)); [apply IH|].
  constructor; [|apply IH]. rewrite elem_of_dedup_from. set_solver.
Qed.

Lemma dedup_from_snoc S l x :
  dedup_from S (l ++ [x]) =
  dedup_from S l ++ (if decide (x ∈ S ∪ list_to_set l) then [] else [x]).
Proof.
  rewrite dedup_from_app. simpl. by destruct (decide _).
Qed.

End Dedup.

Lemma elem_of_concat {A} (ls : list (list A)) (x : A) :
  x ∈ concat ls ↔ ∃ l, l ∈ ls ∧ x ∈ l.
Proof.
  rewrite list_elem_of_In, in_concat. split.
  - intros (l & Hl & Hx). exists l. by rewrite !list_elem_of_In.
  - intros (l & Hl & Hx). exists l. by rewrite <- !list_elem_of_In.
Qed.

Lemma NoDup_bounded_length (l : list nat) (n : nat) :
  NoDup l → (∀ x, x ∈ l → (x < n)%nat) → (length l ≤ n)%nat.
Proof.
  intros Hnd Hlt.
  assert (l ⊆+ List.seq 0 n) as Hsub.
  { apply NoDup_submseteq; [done|]. intros x Hx. apply elem_of_seq. specialize (Hlt x Hx). lia. }
  apply submseteq_length in Hsub. by rewrite length_seq in Hsub.
Qed.

(** ** The loops of [Flatten] *)

Section FlattenLoops.

Variable h : list Node.
Hypothesis Hids : heap_ids h.
Hypothesis Hcl : heap_closed h.
Hypothesis Hroot : (root < length h)%nat.
Hypothesis Hnoroot : ∀ a, rtc (edge h) root a → ¬ edge h a root.

Lemma reach_valid a : rtc (edge h) root a → (a < length h)%nat.
Proof.
  intros Hr. apply rtc_nsteps in Hr as [n Hn]. revert a Hn.
  induction n as [|n IH]; intros a Hn.
  - by inversion Hn.
  - apply nsteps_inv_r in Hn as (q & Hq & [k Hk]).
    apply (heap_closed_deref h q k a); auto.
Qed.

Lemma ID_of_inj a a' :
  (a < length h)%nat → (a' < length h)%nat → ID_of h a = ID_of h a' → a = a'.
Proof.
  intros Ha Ha' E. unfold ID_of in E. rewrite !heap_ids_deref in E by done. lia.
Qed.

Lemma elem_of_out_edges a k c :
  (k, c) ∈ out_edges h a ↔ C (deref h a) !! k = Some c.
Proof.
  unfold out_edges. rewrite list_elem_of_fmap. split.
  - intros (k' & [= -> ->] & Hk). apply elem_of_sortedKeys in Hk as [c Hc].
    by rewrite Hc.
  - intros Hc. exists k. rewrite Hc. split; [done|]. apply elem_of_sortedKeys. eauto.
Qed.

Lemma elem_of_kids a c : c ∈ kids h a ↔ edge h a c.
Proof.
  unfold kids. rewrite list_elem_of_fmap. split.
  - intros ([k c'] & -> & Hin). apply elem_of_out_edges in Hin. by exists k.
  - intros [k Hk]. exists (k, c). split; [done|]. by apply elem_of_out_edges.
Qed.

Lemma seen_fresh T c :
  (∀ x, x ∈ T → (x < length h)%nat ∧ x ≠ root) → (c < length h)%nat →
  ID_of h c ∈ (list_to_set (ID_of h <$> T) : gset Z) ↔ c ∈ T.
Proof.
  intros HT Hc. rewrite elem_of_list_to_set, list_elem_of_fmap. split.
  - intros (x & E & Hx). apply ID_of_inj in E; [by subst|done|]. by apply HT.
  - intros Hin. by exists c.
Qed.

(** One round of the inner loop. *)
Lemma flatten_edges_cons nd n j k keys st c :
  C nd !! k = Some c →
  flatten_edges h nd n j (k :: keys) st =
  flatten_edges h nd n (S j) keys
    (mkFState
       (f_result st ++ [entry_of h (λ _, 0) n j (k, c)])
       (f_to st ++ [ID_of h c])
       (f_hasChildren st ++ [has_children h c])
       (if bool_decide (ID_of h c ∉ f_seen st) then {[ID_of h c]} ∪ f_seen st else f_seen st)
       (f_indexes st)
       (f_index st + 1)
       (if bool_decide (ID_of h c ∉ f_seen st) then f_nodes st ++ [c] else f_nodes st)).
Proof. intros Hc. cbn [flatten_edges]. rewrite Hc. reflexivity. Qed.

Lemma EInv_step T R st n j k c :
  EInv h T R st → (c < length h)%nat → c ≠ root →
  EInv h (T ++ [c]) (R ++ [entry_of h (λ _, 0) n j (k, c)])
    (mkFState
       (f_result st ++ [entry_of h (λ _, 0) n j (k, c)])
       (f_to st ++ [ID_of h c])
       (f_hasChildren st ++ [has_children h c])
       (if bool_decide (ID_of h c ∉ f_seen st) then {[ID_of h c]} ∪ f_seen st else f_seen st)
       (f_indexes st)
       (f_index st + 1)
       (if bool_decide (ID_of h c ∉ f_seen st) then f_nodes st ++ [c] else f_nodes st)).
Proof.
  intros [Hn Hs Ht Hh Hr Hi Hv] Hc Hcr.
  pose proof (seen_fresh T c Hv Hc) as Hfresh. rewrite <- Hs in Hfresh.
  constructor; cbn [f_nodes f_seen f_to f_hasChildren f_result f_index f_indexes].
  - rewrite dedup_from_snoc, Hn.
    destruct (decide (c ∈ ∅ ∪ list_to_set T)) as [Hin|Hin].
    + rewrite bool_decide_eq_false_2; [by rewrite app_nil_r|].
      intros Hnot. apply Hnot, Hfresh. set_solver.
    + rewrite bool_decide_eq_true_2; [done|].
      intros Hs'. apply Hin. apply Hfresh in Hs'. set_solver.
  - rewrite fmap_app, list_to_set_app_L, <- Hs.
    change (ID_of h <$> [c]) with [ID_of h c]. rewrite list_to_set_singleton_L.
    destruct (decide (ID_of h c ∈ f_seen st)) as [Hin|Hin].
    + rewrite bool_decide_eq_false_2 by (by intros ?). apply set_eq. intros x.
      rewrite elem_of_union, elem_of_singleton. split; [auto|]. by intros [?| ->].
    + rewrite bool_decide_eq_true_2 by done. apply set_eq. intros x.
      rewrite !elem_of_union, elem_of_singleton. tauto.
  - by rewrite fmap_app, Ht.
  - by rewrite fmap_app, Hh.
  - by rewrite Hr.
  - rewrite Hi, length_app. simpl. lia.
  - intros x. rewrite elem_of_app, list_elem_of_singleton. intros [Hx| ->]; auto.
Qed.

Lemma flatten_edges_EInv nd n keys :
  ∀ j T R st,
  EInv h T R st →
  (∀ k, k ∈ keys → ∃ c, C nd !! k = Some c ∧ (c < length h)%nat ∧ c ≠ root) →
  EInv h (T ++ ((λ k, default root (C nd !! k)) <$> keys))
         (R ++ imap (λ i k, entry_of h (λ _, 0) n (j + i) (k, default root (C nd !! k))) keys)
         (flatten_edges h nd n j keys st) ∧
  f_indexes (flatten_edges h nd n j keys st) = f_indexes st.
Proof.
  induction keys as [|k keys IH]; intros j T R st HE Hkeys.
  - simpl. by rewrite !app_nil_r.
  - destruct (Hkeys k) as (c & Hc & Hlt & Hne); [by left|].
    rewrite (flatten_edges_cons nd n j k keys st c Hc).
    pose proof (EInv_step T R st n j k c HE Hlt Hne) as HE1.
    destruct (IH (S j) _ _ _ HE1) as [HE2 Hidx].
    { intros k' Hk'. apply Hkeys. by right. }
    split; [|by rewrite Hidx].
    rewrite fmap_cons, imap_cons, Hc. simpl.
    rewrite <- !app_assoc in HE2. simpl in HE2.
    rewrite Nat.add_0_r.
    erewrite (imap_ext _ (λ i k0, entry_of h (λ _, 0) n (S j + i) (k0, default root (C nd !! k0))));
      [exact HE2|].
    intros i x _. simpl. do 2 f_equal. lia.
Qed.

Lemma kids_eq a :
  kids h a = (λ k, default root (C (deref h a) !! k)) <$> sortedKeys (C (deref h a)).
Proof. unfold kids, out_edges. by rewrite <- list_fmap_compose. Qed.

Lemma entries_eq ci a :
  entries h ci a =
  imap (λ i k, entry_of h ci (length (sortedKeys (C (deref h a)))) (0 + i)
                 (k, default root (C (deref h a) !! k)))
       (sortedKeys (C (deref h a))).
Proof. unfold entries, out_edges. by rewrite imap_fmap, length_fmap. Qed.

Lemma length_entries ci a : length (entries h ci a) = length (kids h a).
Proof. unfold entries, kids. by rewrite length_imap, length_fmap. Qed.

Lemma EInv_NoDup T R st : EInv h T R st → NoDup (f_nodes st).
Proof.
  intros HE. rewrite (ei_nodes _ _ _ _ HE). constructor; [|apply NoDup_dedup_from].
  rewrite elem_of_dedup_from. intros [Hin _]. by destruct (ei_valid _ _ _ _ HE _ Hin).
Qed.

Lemma EInv_set_indexes T R st idx :
  EInv h T R st →
  EInv h T R (mkFState (f_result st) (f_to st) (f_hasChildren st) (f_seen st) idx
                       (f_index st) (f_nodes st)).
Proof. intros []. by constructor. Qed.

Lemma edge_count_snoc P a : edge_count h (P ++ [a]) = (edge_count h P + length (kids h a))%nat.
Proof.
  unfold edge_count. rewrite fmap_app, concat_app, length_app. simpl.
  by rewrite app_nil_r.
Qed.

(** One round of the outer loop. *)
Lemma flatten_visit_OInv P st a :
  OInv h P st → f_nodes st !! length P = Some a →
  OInv h (P ++ [a]) (flatten_visit h a st).
Proof.
  intros [HE Hpre Hreach Hidx] Ha.
  assert (rtc (edge h) root a) as Hra by (by eapply Hreach, list_elem_of_lookup_2).
  pose proof (reach_valid a Hra) as Hva.
  pose proof (EInv_NoDup _ _ _ HE) as Hnd.
  set (st1 := mkFState (f_result st) (f_to st) (f_hasChildren st) (f_seen st)
                (<[ID (deref h a) := f_index st]> (f_indexes st)) (f_index st) (f_nodes st)).
  assert (EInv h (concat (kids h <$> P)) (concat (entries0 h <$> P)) st1) as HE1
    by (by apply EInv_set_indexes).
  destruct (flatten_edges_EInv (deref h a) (length (sortedKeys (C (deref h a))))
              (sortedKeys (C (deref h a))) 0 _ _ st1 HE1) as [HE2 Hidx2].
  { intros k Hk. apply elem_of_sortedKeys in Hk as [c Hc]. exists c.
    split; [done|]. split; [by eapply heap_closed_deref|].
    intros ->. apply (Hnoroot a Hra). by exists k. }
  rewrite <- kids_eq, <- (entries_eq (λ _, 0)) in HE2.
  change (flatten_edges h (deref h a) (length (sortedKeys (C (deref h a)))) 0
            (sortedKeys (C (deref h a))) st1) with (flatten_visit h a st) in *.
  assert (concat (kids h <$> P ++ [a]) = concat (kids h <$> P) ++ kids h a) as ET.
  { rewrite fmap_app, concat_app. simpl. by rewrite app_nil_r. }
  assert (concat (entries0 h <$> P ++ [a]) = concat (entries0 h <$> P) ++ entries0 h a) as ER.
  { rewrite fmap_app, concat_app. simpl. by rewrite app_nil_r. }
  assert (∃ extra, f_nodes (flatten_visit h a st) = f_nodes st ++ extra ∧
                   ∀ x, x ∈ extra → x ∈ kids h a) as (extra & Hex & Hsub).
  { rewrite (ei_nodes _ _ _ _ HE2), (ei_nodes _ _ _ _ HE), dedup_from_app.
    eexists. split; [by rewrite app_comm_cons|].
    intros x Hx. by apply elem_of_dedup_from in Hx as [Hx _]. }
  pose proof (lookup_lt_Some _ _ _ Ha) as Hlt.
  constructor.
  - by rewrite ET, ER.
  - rewrite Hex, length_app. simpl.
    rewrite take_app_le by lia.
    replace (length P + 1)%nat with (S (length P)) by lia.
    rewrite (take_S_r _ _ _ Ha). by rewrite <- Hpre.
  - intros x. rewrite Hex, elem_of_app. intros [Hx|Hx]; [by apply Hreach|].
    apply Hsub, elem_of_kids in Hx. by eapply rtc_r.
  - intros j x Hx. rewrite Hidx2. unfold st1. cbn [f_indexes].
    apply lookup_app_Some in Hx as [Hx|[Hge Hx]].
    + pose proof (lookup_lt_Some _ _ _ Hx) as Hj.
      rewrite take_app_le by lia.
      assert (f_nodes st !! j = Some x) as Hx'.
      { rewrite Hpre in Hx. by rewrite lookup_take_lt in Hx by lia. }
      assert (x ≠ a) as Hne.
      { intros ->. pose proof (NoDup_lookup _ _ _ _ Hnd Hx' Ha). lia. }
      rewrite lookup_insert_ne; [by apply Hidx|].
      intros E. apply Hne. symmetry. apply ID_of_inj; [| |done].
      * done.
      * apply reach_valid, Hreach. by eapply list_elem_of_lookup_2.
    + destruct (j - length P)%nat as [|j'] eqn:Ej; simpl in Hx; [|done].
      injection Hx as <-. replace j with (length P) by lia.
      rewrite take_app_length. unfold ID_of. rewrite lookup_insert_eq.
      rewrite (ei_index _ _ _ _ HE). done.
Qed.

Lemma OInv_nodes_bound P st : OInv h P st → (length (f_nodes st) ≤ length h)%nat.
Proof.
  intros HO. apply NoDup_bounded_length.
  - eapply EInv_NoDup, (oi_einv _ _ _ HO).
  - intros x Hx. by apply reach_valid, (oi_reach _ _ _ HO).
Qed.

(** The outer loop ends, after at most as many rounds as the heap has
    nodes. *)
Lemma flatten_loop_OInv n :
  ∀ P st,
  OInv h P st → (length h - length P ≤ n)%nat →
  ∃ st', flatten_loop n h (length P) st = Some st' ∧ OInv h (f_nodes st') st'.
Proof.
  induction n as [|n IH]; intros P st HO Hn.
  - pose proof (OInv_nodes_bound P st HO) as Hb.
    assert (f_nodes st !! length P = None) as Hnone by (apply lookup_ge_None; lia).
    cbn [flatten_loop]. rewrite Hnone. exists st. split; [done|].
    rewrite (oi_prefix _ _ _ HO) in HO at 1. by rewrite take_ge in HO by lia.
  - cbn [flatten_loop]. destruct (f_nodes st !! length P) as [a|] eqn:Ea.
    + pose proof (flatten_visit_OInv P st a HO Ea) as HO1.
      destruct (IH (P ++ [a]) _ HO1) as (st' & Hl & HO').
      { rewrite length_app. simpl. lia. }
      exists st'. split; [|done]. rewrite length_app in Hl. simpl in Hl.
      by replace (length P + 1)%nat with (S (length P)) in Hl by lia.
    + exists st. split; [done|]. apply lookup_ge_None in Ea.
      rewrite (oi_prefix _ _ _ HO) in HO at 1. by rewrite take_ge in HO by lia.
Qed.

Lemma OInv_init : OInv h [] (mkFState [] [] [] ∅ ∅ 0 [root]).
Proof.
  constructor; [constructor|..]; simpl; try done.
  - intros c Hc. by apply not_elem_of_nil in Hc.
  - intros a Ha. apply list_elem_of_singleton in Ha as ->. apply rtc_refl.
Qed.

End FlattenLoops.

(** ** The last loop of [Flatten] *)

Section FlattenFix.

Variable h : list Node.

Lemma flatten_fix_app idx r1 r2 t1 t2 c1 c2 :
  length t1 = length r1 → length c1 = length r1 →
  flatten_fix idx (r1 ++ r2) (t1 ++ t2) (c1 ++ c2)
  = flatten_fix idx r1 t1 c1 ++ flatten_fix idx r2 t2 c2.
Proof.
  revert t1 c1. induction r1 as [|e r1 IH]; intros [|t t1] [|c c1] Ht Hc;
    simpl in *; try done.
  f_equal. apply IH; lia.
Qed.

Lemma flatten_fix_node idx ci n (es : list (N * nat)) :
  ∀ j,
  (∀ e, e ∈ es →
     ci e.2 = if has_children h e.2 then default 0 (idx !! ID_of h e.2) else 0) →
  flatten_fix idx (imap (λ i, entry_of h (λ _, 0) n (j + i)) es)
                  (ID_of h <$> (snd <$> es)) (has_children h <$> (snd <$> es))
  = imap (λ i, entry_of h ci n (j + i)) es.
Proof.
  induction es as [|[k c] es IH]; intros j Hci; [done|].
  rewrite !imap_cons, !fmap_cons. cbn [flatten_fix].
  pose proof (Hci (k, c)) as Hc. cbn [snd] in *. f_equal.
  - unfold entry_of. cbn [fst snd ArrayNode.B ArrayNode.F ArrayNode.EOL].
    rewrite Hc by (by left). by destruct (has_children h c).
  - rewrite (imap_ext _ (λ i, entry_of h (λ _, 0) n (S j + i))) by
      (intros; simpl; f_equal; lia).
    rewrite (imap_ext (_ ∘ S) (λ i, entry_of h ci n (S j + i))) by
      (intros; simpl; f_equal; lia).
    apply IH. intros e He. apply Hci. by right.
Qed.

Lemma flatten_fix_flat idx ci P :
  (∀ a c, a ∈ P → c ∈ kids h a →
     ci c = if has_children h c then default 0 (idx !! ID_of h c) else 0) →
  flatten_fix idx (concat (entries0 h <$> P))
                  (ID_of h <$> concat (kids h <$> P))
                  (has_children h <$> concat (kids h <$> P))
  = concat (entries h ci <$> P).
Proof.
  induction P as [|a P IH]; intros Hci; [done|].
  rewrite !fmap_cons. cbn [concat]. rewrite !fmap_app.
  rewrite flatten_fix_app.
  - f_equal.
    + unfold entries0, entries, kids.
      apply (flatten_fix_node idx ci _ (out_edges h a) 0).
      intros e He. apply (Hci a); [by left|]. unfold kids. by apply list_elem_of_fmap_2.
    + apply IH. intros a' c Ha' Hc. apply (Hci a'); [by right|done].
  - unfold entries0, entries, kids. by rewrite length_fmap, length_imap, length_fmap.
  - unfold entries0, entries, kids. by rewrite length_fmap, length_imap, length_fmap.
Qed.

Lemma offset_app l1 l2 a :
  a ∉ l1 → offset h (l1 ++ a :: l2) a = edge_count h l1.
Proof.
  induction l1 as [|x l1 IH]; intros Hin; simpl.
  - by rewrite decide_True.
  - rewrite decide_False by (intros ->; apply Hin; by left).
    rewrite IH by (intros ?; apply Hin; by right).
    unfold edge_count. rewrite fmap_cons. cbn [concat]. by rewrite length_app.
Qed.

Lemma offset_lookup order j a :
  NoDup order → order !! j = Some a → offset h order a = edge_count h (take j order).
Proof.
  intros Hnd Hj. pose proof (lookup_lt_Some _ _ _ Hj) as Hlt.
  rewrite <- (take_drop_middle _ _ _ Hj) at 1.
  apply offset_app. intros Hin. apply elem_of_take in Hin as (i & Hi & Hij).
  pose proof (NoDup_lookup _ _ _ _ Hnd Hi Hj). lia.
Qed.

Lemma length_flat_prefix ci l :
  length (concat (entries h ci <$> l)) = edge_count h l.
Proof.
  unfold edge_count. induction l as [|a l IH]; [done|].
  rewrite !fmap_cons. cbn [concat]. rewrite !length_app, IH. f_equal.
  unfold entries, kids. by rewrite length_imap, length_fmap.
Qed.

(** The entries of a node start at its offset. *)
Lemma flat_drop order a :
  NoDup order → a ∈ order →
  ∃ rest, drop (offset h order a) (flat h order)
          = entries h (child_index h order) a ++ rest.
Proof.
  intros Hnd Ha. apply list_elem_of_lookup in Ha as [j Hj].
  rewrite (offset_lookup order j a Hnd Hj). unfold flat.
  set (E := entries h (child_index h order)).
  assert (concat (E <$> order)
          = concat (E <$> take j order) ++ E a ++ concat (E <$> drop (S j) order)) as ->.
  { rewrite <- (take_drop_middle _ _ _ Hj) at 1.
    by rewrite fmap_app, concat_app, fmap_cons. }
  rewrite <- (length_flat_prefix (child_index h order)). fold E.
  rewrite drop_app_length. eauto.
Qed.

(** [flatten_loop] gives the same result with more fuel. *)
Lemma flatten_loop_mono n m i st st' :
  (n ≤ m)%nat → flatten_loop n h i st = Some st' → flatten_loop m h i st = Some st'.
Proof.
  revert m i st. induction n as [|n IH]; intros m i st Hnm Hn.
  - cbn [flatten_loop] in Hn. destruct (f_nodes st !! i) eqn:E; [done|].
    destruct m; cbn [flatten_loop]; by rewrite E.
  - destruct m as [|m]; [lia|]. cbn [flatten_loop] in *.
    destruct (f_nodes st !! i); [|done]. apply IH; [lia|done].
Qed.

End FlattenFix.

(** ** The result of [Flatten] *)

Section FlattenResult.

Lemma GInv_no_edge_to_root d reg :
  GInv d reg → ∀ a, rtc (edge (heap d)) root a → ¬ edge (heap d) a root.
Proof.
  intros HG a Hr He.
  pose proof (rtc_known d reg HG root a (known_root d reg) Hr) as Ka.
  pose proof (rtc_rank d reg HG root a (known_root d reg) Hr).
  destruct (edge_rank d reg HG a root Ka He) as [_ Hlt]. lia.
Qed.

Lemma Flatten_mono n m d arr :
  (n ≤ m)%nat → Flatten n d = Some arr → Flatten m d = Some arr.
Proof.
  intros Hnm. unfold Flatten.
  destruct (flatten_loop n (heap d) 0 _) as [st|] eqn:E; [|done].
  by rewrite (flatten_loop_mono (heap d) n m _ _ st Hnm E).
Qed.

Variable d : DAWG.
Let h := heap d.
Hypothesis Hids : heap_ids h.
Hypothesis Hcl : heap_closed h.
Hypothesis Hroot : (root < length h)%nat.
Hypothesis Hnoroot : ∀ a, rtc (edge h) root a → ¬ edge h a root.

Lemma Flatten_flat :
  ∃ order,
    NoDup order ∧ bfs_order h order ∧
    (∀ q, q ∈ order ↔ rtc (edge h) root q) ∧
    Flatten (length h) d = Some (flat h order) ∧
    (∀ fuel arr, Flatten fuel d = Some arr → arr = flat h order).
Proof.
  destruct (flatten_loop_OInv h Hids Hcl Hroot Hnoroot (length h) [] _ (OInv_init h))
    as (st & Hloop & HO); [simpl; lia|].
  simpl in Hloop.
  pose proof (oi_einv _ _ _ HO) as HE.
  set (order := f_nodes st) in *.
  assert (∀ c, c ∈ concat (kids h <$> order) → c ∈ order) as Hclosed.
  { intros c Hc. unfold order. rewrite (ei_nodes _ _ _ _ HE). right.
    apply elem_of_dedup_from. split; [done|]. apply not_elem_of_empty. }
  assert (NoDup order) as Hnd by (by eapply EInv_NoDup).
  assert (Flatten (length h) d = Some (flat h order)) as Hflat.
  { unfold Flatten. fold h. rewrite Hloop. f_equal.
    rewrite (ei_result _ _ _ _ HE), (ei_to _ _ _ _ HE), (ei_hc _ _ _ _ HE).
    apply flatten_fix_flat. intros a c Ha Hc. unfold child_index.
    destruct (has_children h c); [|done].
    assert (c ∈ order) as Hco.
    { apply Hclosed. apply elem_of_concat. exists (kids h a).
      split; [|done]. by apply list_elem_of_fmap_2. }
    apply list_elem_of_lookup in Hco as [j Hj].
    rewrite (oi_indexes _ _ _ HO j c Hj). simpl.
    by rewrite (offset_lookup h order j c Hnd Hj). }
  exists order. split; [done|]. split; [apply (ei_nodes _ _ _ _ HE)|]. split; [|split].
  - intros q. split; [apply (oi_reach _ _ _ HO)|].
    intros Hr. apply rtc_nsteps in Hr as [n Hn]. revert q Hn.
    induction n as [|n IH]; intros q Hn.
    + inversion Hn; subst. unfold order. rewrite (ei_nodes _ _ _ _ HE). by left.
    + apply nsteps_inv_r in Hn as (a & Ha & He).
      apply Hclosed. apply elem_of_concat. exists (kids h a).
      split; [|by apply elem_of_kids]. apply list_elem_of_fmap_2. by apply IH.
  - done.
  - intros fuel arr Hf.
    pose proof (Flatten_mono fuel (max fuel (length h)) d arr (Nat.le_max_l _ _) Hf) as H1.
    pose proof (Flatten_mono _ (max fuel (length h)) d _ (Nat.le_max_r _ _) Hflat) as H2.
    congruence.
Qed.

End FlattenResult.

Lemma reachable_Flatten_flat d :
  reachable d →
  ∃ order,
    NoDup order ∧ bfs_order (heap d) order ∧
    (∀ q, q ∈ order ↔ rtc (edge (heap d)) root q) ∧
    Flatten (length (heap d)) d = Some (flat (heap d) order) ∧
    (∀ fuel arr, Flatten fuel d = Some arr → arr = flat (heap d) order).
Proof.
  intros Hr. destruct (reachable_GInv d Hr) as [reg HG].
  apply Flatten_flat.
  - apply (g_ids _ _ HG).
  - apply (g_closed _ _ HG).
  - apply (g_path_lt _ _ HG). unfold path_nodes. by left.
  - by apply (GInv_no_edge_to_root d reg).
Qed.

Lemma fst_out_edges h a : fst <$> out_edges h a = sortedKeys (C (deref h a)).
Proof.
  unfold out_edges. rewrite <- list_fmap_compose.
  induction (sortedKeys (C (deref h a))) as [|k l IH]; [done|].
  rewrite fmap_cons, IH. done.
Qed.

Lemma out_edges_ascending h a : StronglySorted N.lt (fst <$> out_edges h a).
Proof. rewrite fst_out_edges. apply sortedKeys_ascending. Qed.

Lemma out_edges_edges h a k c :
  (k, c) ∈ out_edges h a ↔ C (deref h a) !! k = Some c.
Proof.
  unfold out_edges. rewrite list_elem_of_fmap. split.
  - intros (k' & [= -> ->] & Hk). apply elem_of_sortedKeys in Hk as [c Hc].
    by rewrite Hc.
  - intros Hc. exists k. rewrite Hc. split; [done|]. apply elem_of_sortedKeys. eauto.
Qed.

Lemma entries_lookup h ci a j k c :
  out_edges h a !! j = Some (k, c) →
  entries h ci a !! j =
    Some (ArrayNode.mk (ci c) k (F (deref h c))
                       (bool_decide (S j = length (out_edges h a)))).
Proof.
  intros Hj. unfold entries. rewrite list_lookup_imap, Hj. simpl.
  unfold entry_of. simpl. do 2 f_equal. apply bool_decide_ext. lia.
Qed.

Lemma entries_labels h ci a : ArrayNode.B <$> entries h ci a = fst <$> out_edges h a.
Proof.
  apply list_eq. intros j. unfold entries.
  rewrite !list_lookup_fmap, list_lookup_imap.
  by destruct (out_edges h a !! j).
Qed.

(** C9: in every reachable state [Flatten] returns, after at most as many
    rounds of its outer loop as there are nodes, the sequence [flat]: the
    nodes reachable from the root are visited once each in breadth-first
    order, and each contributes one entry per edge in ascending label order.
    The order of the edges is stated on its own: the edges listed for a
    node are exactly the entries of its map, their labels are strictly
    increasing, and these are the labels of its entries in the array. The
    entry for the edge at position [j] carries the label, the terminal flag
    of the target, the end-of-list flag exactly when it is the last edge of
    the node, and as child index the position of the first entry of the
    target, or 0 when the target has no edge. *)
Theorem Flatten_bfs d :
  reachable d →
  ∃ order,
    NoDup order ∧ bfs_order (heap d) order ∧
    (∀ q, q ∈ order ↔ rtc (edge (heap d)) root q) ∧
    Flatten (length (heap d)) d = Some (flat (heap d) order) ∧
    (∀ fuel arr, Flatten fuel d = Some arr → arr = flat (heap d) order) ∧
    (∀ a, StronglySorted N.lt (fst <$> out_edges (heap d) a)) ∧
    (∀ a k c, (k, c) ∈ out_edges (heap d) a ↔ C (deref (heap d) a) !! k = Some c) ∧
    (∀ a, ArrayNode.B <$> entries (heap d) (child_index (heap d) order) a
          = fst <$> out_edges (heap d) a) ∧
    (∀ a j k c, out_edges (heap d) a !! j = Some (k, c) →
       entries (heap d) (child_index (heap d) order) a !! j =
         Some (ArrayNode.mk
                 (if bool_decide (C (deref (heap d) c) = ∅) then 0
                  else Z.of_nat (offset (heap d) order c))
                 k (F (deref (heap d) c))
                 (bool_decide (S j = length (out_edges (heap d) a))))).
Proof.
  intros Hd.
  destruct (reachable_Flatten_flat d Hd) as (order & Hnd & Hbfs & Hiff & HF & Huniq).
  exists order. do 5 (split; [done|]).
  split; [apply out_edges_ascending|]. split; [apply out_edges_edges|].
  split; [intros a; apply entries_labels|].
  intros a j k c Hj. rewrite (entries_lookup _ _ _ _ _ _ Hj). do 2 f_equal.
  unfold child_index, has_children.
  destruct (decide (C (deref (heap d) c) = ∅)) as [E|E].
  - rewrite E, map_size_empty, bool_decide_eq_false_2 by lia.
    by rewrite bool_decide_eq_true_2.
  - rewrite bool_decide_eq_true_2, bool_decide_eq_false_2; [done|done|].
    apply map_size_non_empty_iff in E. lia.
Qed.

Lemma Flatten_bfs_witness :
  ∃ order,
    NoDup order ∧ bfs_order (heap ex_dawg) order ∧
    (∀ q, q ∈ order ↔ rtc (edge (heap ex_dawg)) root q) ∧
    Flatten (length (heap ex_dawg)) ex_dawg = Some (flat (heap ex_dawg) order) ∧
    (∀ fuel arr, Flatten fuel ex_dawg = Some arr → arr = flat (heap ex_dawg) order) ∧
    (∀ a, StronglySorted N.lt (fst <$> out_edges (heap ex_dawg) a)) ∧
    (∀ a k c, (k, c) ∈ out_edges (heap ex_dawg) a
              ↔ C (deref (heap ex_dawg) a) !! k = Some c) ∧
    (∀ a, ArrayNode.B <$> entries (heap ex_dawg) (child_index (heap ex_dawg) order) a
          = fst <$> out_edges (heap ex_dawg) a) ∧
    (∀ a j k c, out_edges (heap ex_dawg) a !! j = Some (k, c) →
       entries (heap ex_dawg) (child_index (heap ex_dawg) order) a !! j =
         Some (ArrayNode.mk
                 (if bool_decide (C (deref (heap ex_dawg) c) = ∅) then 0
                  else Z.of_nat (offset (heap ex_dawg) order c))
                 k (F (deref (heap ex_dawg) c))
                 (bool_decide (S j = length (out_edges (heap ex_dawg) a))))).
Proof. apply (Flatten_bfs ex_dawg). exact reachable_ex_dawg. Defined.

(** ** Traversing the flattened array *)

Section Scan.

Variable h : list Node.

Lemma scan_cons e es k :
  scan (e :: es) k =
  if (ArrayNode.B e =? k)%N then Some e
  else if ArrayNode.EOL e then None else scan es k.
Proof. done. Qed.

Lemma B_entry_of ci n j e : ArrayNode.B (entry_of h ci n j e) = e.1.
Proof. done. Qed.

Lemma EOL_entry_of ci n j e :
  ArrayNode.EOL (entry_of h ci n j e) = bool_decide (Z.of_nat j = Z.of_nat n - 1).
Proof. done. Qed.

(** Scanning the entries of a node for a label it has. *)
Lemma scan_keys_found ci nd n keys rest k :
  ∀ j, (j + length keys = n)%nat → k ∈ keys →
  ∃ e, scan (imap (λ i k', entry_of h ci n (j + i) (k', default root (C nd !! k'))) keys
             ++ rest) k = Some e ∧
       ArrayNode.Index e = ci (default root (C nd !! k)) ∧
       ArrayNode.F e = F (deref h (default root (C nd !! k))).
Proof.
  induction keys as [|k' keys IH]; intros j Hj Hk; [by apply not_elem_of_nil in Hk|].
  rewrite imap_cons. cbn [app]. rewrite scan_cons, B_entry_of, EOL_entry_of.
  cbn [fst snd].
  destruct (N.eqb_spec k' k) as [->|Hne]; [eauto|].
  apply elem_of_cons in Hk as [->|Hk]; [done|].
  simpl in Hj. assert (keys ≠ []) as Hnil by (intros ->; by apply not_elem_of_nil in Hk).
  rewrite bool_decide_eq_false_2.
  - rewrite (imap_ext _ (λ i k', entry_of h ci n (S j + i) (k', default root (C nd !! k'))))
      by (intros; simpl; f_equal; lia).
    apply IH; [lia|done].
  - destruct keys; [done|]. simpl in Hj. lia.
Qed.

(** Scanning the entries of a node for a label it does not have: the scan
    stops at the end-of-list flag of the last entry. *)
Lemma scan_keys_missing ci nd n keys rest k :
  ∀ j, (j + length keys = n)%nat → k ∉ keys → keys ≠ [] →
  scan (imap (λ i k', entry_of h ci n (j + i) (k', default root (C nd !! k'))) keys
        ++ rest) k = None.
Proof.
  induction keys as [|k' keys IH]; intros j Hj Hk Hnil; [done|].
  rewrite imap_cons. cbn [app]. rewrite scan_cons, B_entry_of, EOL_entry_of.
  cbn [fst snd].
  destruct (N.eqb_spec k' k) as [->|Hne]; [exfalso; apply Hk; by left|].
  simpl in Hj. destruct keys as [|k'' keys].
  - rewrite bool_decide_eq_true_2; [done|]. simpl in Hj. lia.
  - rewrite bool_decide_eq_false_2 by (simpl in Hj; lia).
    rewrite (imap_ext _ (λ i k', entry_of h ci n (S j + i) (k', default root (C nd !! k'))))
      by (intros; simpl; f_equal; lia).
    apply IH; [simpl in *; lia| |done]. intros Hin. apply Hk. by right.
Qed.

Lemma scan_found ci a rest k c :
  C (deref h a) !! k = Some c →
  ∃ e, scan (entries h ci a ++ rest) k = Some e ∧
       ArrayNode.Index e = ci c ∧ ArrayNode.F e = F (deref h c).
Proof.
  intros Hc. rewrite entries_eq.
  destruct (scan_keys_found ci (deref h a) (length (sortedKeys (C (deref h a))))
              (sortedKeys (C (deref h a))) rest k 0) as (e & He & Hi & Hf).
  - done.
  - apply elem_of_sortedKeys. eauto.
  - rewrite Hc in Hi, Hf. eauto.
Qed.

Lemma has_children_keys a :
  has_children h a = true ↔ sortedKeys (C (deref h a)) ≠ [].
Proof.
  unfold has_children. rewrite bool_decide_eq_true, <- length_sortedKeys.
  destruct (sortedKeys (C (deref h a))); simpl; split; try done; lia.
Qed.

Lemma scan_missing ci a rest k :
  C (deref h a) !! k = None → has_children h a = true →
  scan (entries h ci a ++ rest) k = None.
Proof.
  intros Hc Hhas. rewrite entries_eq. apply scan_keys_missing.
  - done.
  - rewrite elem_of_sortedKeys, Hc. by intros [? ?].
  - by apply has_children_keys.
Qed.

Lemma no_children_lookup a k : has_children h a = false → C (deref h a) !! k = None.
Proof.
  intros Hhas. apply eq_None_not_Some. intros Hk.
  apply elem_of_sortedKeys in Hk.
  assert (has_children h a = true); [|congruence].
  apply has_children_keys. intros E. rewrite E in Hk. by apply not_elem_of_nil in Hk.
Qed.

End Scan.

Section ArrayWalk.

Variables (h : list Node) (order : list nat).
Hypothesis Hnd : NoDup order.
Hypothesis Hbfs : bfs_order h order.
Hypothesis Hreach : ∀ q, q ∈ order ↔ rtc (edge h) root q.
Hypothesis Hnoroot : ∀ a, rtc (edge h) root a → ¬ edge h a root.
Hypothesis HrootF : F (deref h root) = false.

Let arr := flat h order.

Lemma offset_root : offset h order root = 0%nat.
Proof. rewrite Hbfs. cbn [offset]. by rewrite decide_True. Qed.

Lemma offset_pos c :
  c ∈ order → c ≠ root → (0 < offset h order c)%nat.
Proof.
  intros Hc Hne. apply Hreach in Hc.
  assert (kids h root ≠ []) as Hk.
  { inversion Hc as [|? q ? He Hr]; subst; [done|].
    apply elem_of_kids in He. intros E. rewrite E in He. by apply not_elem_of_nil in He. }
  rewrite Hbfs. cbn [offset]. rewrite decide_False by (by intros <-).
  destruct (kids h root); [done|]. simpl. lia.
Qed.

(** From a node, the traversal of the array answers as the lookup from the
    node does. *)
Lemma array_walk_node w :
  ∀ a, a ∈ order →
  array_walk arr (array_state h order a) (F (deref h a)) w = lookup_from h a w.
Proof.
  induction w as [|k w IH]; intros a Ha; [done|].
  cbn [array_walk lookup_from]. unfold array_state at 1.
  destruct (has_children h a) eqn:Hhas.
  - rewrite Nat2Z.id.
    destruct (flat_drop h order a Hnd Ha) as [rest Hdrop]. fold arr in Hdrop.
    rewrite Hdrop.
    destruct (C (deref h a) !! k) as [c|] eqn:Hc.
    + destruct (scan_found h (child_index h order) a rest k c Hc) as (e & -> & Hi & Hf).
      assert (edge h a c) as He by (by exists k).
      assert (c ∈ order) as Hco.
      { apply Hreach. eapply rtc_r; [|exact He]. by apply Hreach. }
      assert (c ≠ root) as Hcr.
      { intros ->. apply (Hnoroot a); [by apply Hreach|done]. }
      rewrite Hi, Hf, <- (IH c Hco). f_equal.
      unfold child_index, array_state. destruct (has_children h c); [|done].
      pose proof (offset_pos c Hco Hcr). rewrite decide_False by lia. done.
    + by rewrite (scan_missing h _ a rest k Hc Hhas).
  - by rewrite (no_children_lookup h a k Hhas).
Qed.

Lemma array_lookup_flat w : array_lookup arr w = lookup_from h root w.
Proof.
  unfold array_lookup. destruct (has_children h root) eqn:Hhas.
  - rewrite <- (array_walk_node w root) by (apply Hreach, rtc_refl).
    unfold array_state. by rewrite Hhas, offset_root, HrootF.
  - destruct w as [|k w]; [by rewrite <- HrootF|].
    cbn [array_walk lookup_from]. rewrite (no_children_lookup h root k Hhas).
    assert (order = [root]) as Ho.
    { rewrite Hbfs. f_equal.
      destruct (dedup_from ∅ (concat (kids h <$> order))) as [|x l] eqn:E; [done|].
      exfalso. assert (x ∈ order) as Hx by (rewrite Hbfs, E; right; by left).
      assert (x = root) as ->.
      { apply Hreach in Hx. inversion Hx as [|? q ? [k' Hk'] Hr]; subst; [done|].
        by rewrite (no_children_lookup h root k' Hhas) in Hk'. }
      rewrite Hbfs, E in Hnd. apply NoDup_cons in Hnd as [Hn _].
      apply Hn. by left. }
    unfold arr, flat. rewrite Ho. simpl.
    rewrite entries_eq.
    assert (sortedKeys (C (deref h root)) = []) as ->; [|done].
    destruct (sortedKeys (C (deref h root))) eqn:E; [done|].
    assert (has_children h root = true); [|congruence].
    apply has_children_keys. by rewrite E.
Qed.

End ArrayWalk.

Lemma reachable_array_lookup d fuel arr w :
  reachable d → Flatten fuel d = Some arr → array_lookup arr w = Lookup d w.
Proof.
  intros Hr Hf. destruct (reachable_GInv d Hr) as [reg HG].
  destruct (reachable_Flatten_flat d Hr) as (order & Hnd & Hbfs & Hreach & _ & Hall).
  rewrite (Hall fuel arr Hf). apply array_lookup_flat; try done.
  - by apply (GInv_no_edge_to_root d reg).
  - apply (g_root_F _ _ HG).
Qed.

(** C8: for every finished automaton [Flatten] returns an array, and on
    every array it returns the traversal (scan from the first-edge index to
    the label or the end-of-list flag, then jump to the child index) answers
    every word as [Lookup] does. *)
Theorem array_lookup_Lookup ws d :
  build ws = Ok d →
  (∃ arr, Flatten (length (heap d)) d = Some arr) ∧
  ∀ fuel arr w, Flatten fuel d = Some arr → array_lookup arr w = Lookup d w.
Proof.
  intros Hb. assert (reachable d) as Hr by (right; by exists ws). split.
  - destruct (reachable_Flatten_flat d Hr) as (order & _ & _ & _ & Hf & _). eauto.
  - intros fuel arr w Hf. by apply (reachable_array_lookup d fuel).
Qed.

Lemma array_lookup_Lookup_witness :
  (∃ arr, Flatten (length (heap ex_dawg)) ex_dawg = Some arr) ∧
  ∀ fuel arr w, Flatten fuel ex_dawg = Some arr → array_lookup arr w = Lookup ex_dawg w.
Proof. apply (array_lookup_Lookup ex_words ex_dawg build_ex_dawg). Defined.

(** ** Minimality in terms of languages *)

Section LanguageMinimal.

Variables (d : DAWG) (reg : list nat).
Hypothesis HG : GInv d reg.

Let h := heap d.

(** Every registered node accepts some word. *)
Lemma reg_nonempty j :
  ∀ m, reg !! j = Some m → ∃ w, lookup_from h m w = true.
Proof.
  induction j as [j IH] using lt_wf_ind. intros m Hm.
  destruct (g_reg_live _ _ HG m) as [HF|HC]; [by eapply list_elem_of_lookup_2| |].
  - by exists [].
  - apply map_choose in HC as (k & c & Hc).
    pose proof (g_reg_children _ _ HG j m k c Hm Hc) as Hin.
    apply elem_of_take in Hin as (j' & Hj' & Hlt).
    destruct (IH j' Hlt c Hj') as [w Hw].
    exists (k :: w). simpl. unfold h. by rewrite Hc.
Qed.

(** Two nodes with the same language have the same flag and, if their
    children are told apart by their languages, the same children. *)
Lemma lang_same_FC q1 q2 :
  (∀ k c, C (deref h q1) !! k = Some c → ∃ w, lookup_from h c w = true) →
  (∀ k c, C (deref h q2) !! k = Some c → ∃ w, lookup_from h c w = true) →
  (∀ k c1 c2, C (deref h q1) !! k = Some c1 → C (deref h q2) !! k = Some c2 →
     (∀ w, lookup_from h c1 w = lookup_from h c2 w) → c1 = c2) →
  (∀ w, lookup_from h q1 w = lookup_from h q2 w) →
  F (deref h q1) = F (deref h q2) ∧ C (deref h q1) = C (deref h q2).
Proof.
  intros H1 H2 Hinj Hl. split; [apply (Hl [])|].
  apply map_eq. intros k.
  destruct (C (deref h q1) !! k) as [c1|] eqn:E1,
           (C (deref h q2) !! k) as [c2|] eqn:E2; [| | |done].
  - f_equal. apply (Hinj k); [done..|]. intros w.
    specialize (Hl (k :: w)). simpl in Hl. by rewrite E1, E2 in Hl.
  - destruct (H1 k c1 E1) as [w Hw]. specialize (Hl (k :: w)). simpl in Hl.
    rewrite E1, E2, Hw in Hl. done.
  - destruct (H2 k c2 E2) as [w Hw]. specialize (Hl (k :: w)). simpl in Hl.
    rewrite E1, E2, Hw in Hl. done.
Qed.

Lemma reg_child_nonempty m k c :
  m ∈ reg → C (deref h m) !! k = Some c → ∃ w, lookup_from h c w = true.
Proof.
  intros Hm Hc. apply list_elem_of_lookup in Hm as [j Hj].
  pose proof (g_reg_children _ _ HG j m k c Hj Hc) as Hin.
  apply elem_of_take in Hin as (j' & Hj' & _). by apply (reg_nonempty j').
Qed.

(** Two registered nodes with the same language are the same node. *)
Lemma reg_lang_inj n :
  ∀ j1 j2 m1 m2, (j1 + j2 < n)%nat →
  reg !! j1 = Some m1 → reg !! j2 = Some m2 →
  (∀ w, lookup_from h m1 w = lookup_from h m2 w) → m1 = m2.
Proof.
  induction n as [|n IH]; intros j1 j2 m1 m2 Hn H1 H2 Hl; [lia|].
  assert (m1 ∈ reg) as R1 by (by eapply list_elem_of_lookup_2).
  assert (m2 ∈ reg) as R2 by (by eapply list_elem_of_lookup_2).
  destruct (lang_same_FC m1 m2) as [HF HC]; [..|done|].
  - intros k c. by apply reg_child_nonempty.
  - intros k c. by apply reg_child_nonempty.
  - intros k c1 c2 E1 E2 Hc.
    pose proof (g_reg_children _ _ HG j1 m1 k c1 H1 E1) as Hin1.
    pose proof (g_reg_children _ _ HG j2 m2 k c2 H2 E2) as Hin2.
    apply elem_of_take in Hin1 as (i1 & Hi1 & Hlt1).
    apply elem_of_take in Hin2 as (i2 & Hi2 & Hlt2).
    apply (IH i1 i2); [lia|done..].
  - apply (reg_same_key d reg HG); [done..|]. by apply key_same_FC.
Qed.

Hypothesis Hfin : unchecked d = [].

Lemma root_child_reg k c : C (deref h root) !! k = Some c → c ∈ reg.
Proof.
  intros Hc. apply (g_last_children _ _ HG k). by rewrite Hfin.
Qed.

Lemma root_lang_unique q :
  q ∈ reg → rtc (edge h) root q →
  ¬ ∀ w, lookup_from h root w = lookup_from h q w.
Proof.
  intros Hq Hr Hl.
  destruct (lang_same_FC root q) as [HF HC]; [..|done|].
  - intros k c Hc. apply root_child_reg, list_elem_of_lookup in Hc as [j Hj].
    by apply (reg_nonempty j).
  - intros k c. by apply reg_child_nonempty.
  - intros k c1 c2 E1 E2 Hc.
    apply root_child_reg, list_elem_of_lookup in E1 as [i1 Hi1].
    apply list_elem_of_lookup in Hq as [j Hj].
    pose proof (g_reg_children _ _ HG j q k c2 Hj E2) as Hin2.
    apply elem_of_take in Hin2 as (i2 & Hi2 & _).
    apply (reg_lang_inj (S (i1 + i2)) i1 i2); [lia|done..].
  - apply (root_key_unique d reg HG q Hq Hr). by apply key_same_FC.
Qed.

Lemma GInv_lang_minimal q1 q2 :
  rtc (edge h) root q1 → rtc (edge h) root q2 →
  (∀ w, lookup_from h q1 w = lookup_from h q2 w) → q1 = q2.
Proof.
  intros H1 H2 Hl.
  pose proof (rtc_known d reg HG root q1 (known_root d reg) H1) as K1.
  pose proof (rtc_known d reg HG root q2 (known_root d reg) H2) as K2.
  destruct (finished_known d reg Hfin q1 K1) as [R1| ->],
           (finished_known d reg Hfin q2 K2) as [R2| ->].
  - apply list_elem_of_lookup in R1 as [j1 Hj1]. apply list_elem_of_lookup in R2 as [j2 Hj2].
    apply (reg_lang_inj (S (j1 + j2)) j1 j2); [lia|done..].
  - exfalso. apply (root_lang_unique q1 R1 H1). intros w. by rewrite Hl.
  - exfalso. by apply (root_lang_unique q2 R2 H2).
  - done.
Qed.

End LanguageMinimal.

(** C2: after a successful sequence of insertions and [Finish], [key]
    returns a signature for every node reachable from the root, and two
    reachable nodes are the same node as soon as they have the same
    signature, or the same terminal flag and the same edges, or accept the
    same words: the automaton is minimal. *)
Theorem finished_minimal ws d :
  build ws = Ok d →
  ∀ q1 q2,
  rtc (edge (heap d)) root q1 → rtc (edge (heap d)) root q2 →
  (∃ s, key (heap d) (deref (heap d) q1) = Ok s) ∧
  (key (heap d) (deref (heap d) q1) = key (heap d) (deref (heap d) q2) → q1 = q2) ∧
  (F (deref (heap d) q1) = F (deref (heap d) q2) →
   C (deref (heap d) q1) = C (deref (heap d) q2) → q1 = q2) ∧
  ((∀ w, lookup_from (heap d) q1 w = lookup_from (heap d) q2 w) → q1 = q2).
Proof.
  intros Hb q1 q2 H1 H2. destruct (finished_GInv ws d Hb) as (reg & HG & Hus & _).
  destruct (GInv_minimal d reg HG Hus q1 q2 H1 H2) as [Hk Hinj].
  split; [done|]. split; [done|]. split.
  - intros HF HC. apply Hinj. by apply key_same_FC.
  - by apply (GInv_lang_minimal d reg HG Hus).
Qed.

Lemma finished_minimal_witness :
  (∃ s, key (heap ex_dawg) (deref (heap ex_dawg) 1%nat) = Ok s) ∧
  (key (heap ex_dawg) (deref (heap ex_dawg) 1%nat)
   = key (heap ex_dawg) (deref (heap ex_dawg) 3%nat) → 1%nat = 3%nat) ∧
  (F (deref (heap ex_dawg) 1%nat) = F (deref (heap ex_dawg) 3%nat) →
   C (deref (heap ex_dawg) 1%nat) = C (deref (heap ex_dawg) 3%nat) → 1%nat = 3%nat) ∧
  ((∀ w, lookup_from (heap ex_dawg) 1%nat w = lookup_from (heap ex_dawg) 3%nat w)
   → 1%nat = 3%nat).
Proof.
  apply (finished_minimal ex_words ex_dawg build_ex_dawg 1%nat 3%nat
           ex_dawg_reach_1 ex_dawg_reach_3).
Defined.

(** ** [LookupPrefix] on an automaton with at least one word *)

Section Complete.

Lemma lookup_from_app h q p s :
  lookup_from h q (p ++ s) = match walk h q p with
                             | Some q' => lookup_from h q' s
                             | None => false
                             end.
Proof.
  revert q. induction p as [|k p IH]; intros q; simpl; [done|].
  destruct (C (deref h q) !! k); [apply IH|done].
Qed.

Lemma walk_rtc h q p q' : walk h q p = Some q' → rtc (edge h) q q'.
Proof.
  revert q. induction p as [|k p IH]; intros q; simpl.
  - intros [= ->]. apply rtc_refl.
  - destruct (C (deref h q) !! k) as [c|] eqn:E; [|done].
    intros Hw. eapply rtc_l; [by exists k|]. by apply IH.
Qed.

Variables (d : DAWG) (reg : list nat).
Hypothesis HG : GInv d reg.
Hypothesis Hlive : all_live d reg.

Lemma rank_bound q : known reg (unchecked d) q → (rank reg (unchecked d) q ≤ length (heap d))%nat.
Proof.
  intros Hq.
  assert (length reg + S (length (unchecked d)) ≤ length (heap d))%nat as Hb.
  { rewrite <- length_path_nodes, <- length_app. apply NoDup_bounded_length.
    - apply NoDup_app. split; [apply (g_reg_nodup _ _ HG)|]. split.
      + intros x Hx Hp. by apply (g_path_reg _ _ HG x).
      + apply (g_path_nodup _ _ HG).
    - intros x. rewrite elem_of_app. intros [Hx|Hx].
      + by apply (g_reg_lt _ _ HG).
      + by apply (g_path_lt _ _ HG). }
  destruct Hq as [Hq|Hq].
  - apply list_elem_of_lookup in Hq as [j Hj]. rewrite (rank_reg d reg HG j q Hj).
    apply lookup_lt_Some in Hj. lia.
  - apply list_elem_of_lookup in Hq as [i Hi]. rewrite (rank_path d reg HG i q Hi). lia.
Qed.

(** The second loop of [LookupPrefix] ends within as many rounds as the rank
    of the node it starts from, whatever entries the map iteration yields,
    and the bytes it collects spell a word accepted from that node. *)
Lemma complete_returns picks :
  ∀ q buf, known reg (unchecked d) q → (rank reg (unchecked d) q ≤ length picks)%nat →
  ∃ sfx, complete (heap d) picks q buf = Some (buf ++ sfx) ∧ lookup_from (heap d) q sfx = true.
Proof.
  induction picks as [|i picks IH]; intros q buf Hq Hr.
  - cbn [complete]. destruct (F (deref (heap d) q)) eqn:HF.
    + exists []. by rewrite app_nil_r.
    + exfalso. destruct (Hlive q Hq) as [HF'|HC]; [congruence|].
      apply map_choose in HC as (k & c & Hc).
      assert (edge (heap d) q c) as He by (by exists k).
      destruct (edge_rank d reg HG q c Hq He) as [_ Hlt]. simpl in Hr. lia.
  - cbn [complete]. destruct (F (deref (heap d) q)) eqn:HF.
    + exists []. by rewrite app_nil_r.
    + destruct (Hlive q Hq) as [HF'|HC]; [congruence|].
      assert (map_to_list (C (deref (heap d) q)) ≠ []) as Hne
        by (by rewrite map_to_list_empty_iff).
      assert (i mod length (map_to_list (C (deref (heap d) q)))
              < length (map_to_list (C (deref (heap d) q))))%nat as Hlt.
      { apply Nat.mod_upper_bound. by destruct (map_to_list (C (deref (heap d) q))). }
      destruct (lookup_lt_is_Some_2 _ _ Hlt) as [[k c] Hkc]. rewrite Hkc.
      assert (C (deref (heap d) q) !! k = Some c) as Hc.
      { apply elem_of_map_to_list. by eapply list_elem_of_lookup_2. }
      assert (edge (heap d) q c) as He by (by exists k).
      destruct (edge_rank d reg HG q c Hq He) as [Kc Hrk].
      destruct (IH c (buf ++ [k]) Kc) as (sfx & Hs & Hl); [simpl in Hr; lia|].
      exists (k :: sfx). rewrite Hs, <- app_assoc. split; [done|].
      simpl. by rewrite Hc.
Qed.

Lemma LookupPrefix_returns picks prefix :
  (length (heap d) ≤ length picks)%nat →
  (walk (heap d) root prefix = None ∧ LookupPrefix picks d prefix = Some ([], false)) ∨
  (∃ sfx, LookupPrefix picks d prefix = Some (sfx, true) ∧
          Lookup d (prefix ++ sfx) = true).
Proof.
  intros Hp. unfold LookupPrefix, Lookup.
  destruct (walk (heap d) root prefix) as [q|] eqn:Hw; [right|by left].
  assert (known reg (unchecked d) q) as Kq.
  { apply (rtc_known d reg HG root q (known_root d reg)). by eapply walk_rtc. }
  destruct (complete_returns picks q [] Kq) as (sfx & Hs & Hl).
  { pose proof (rank_bound q Kq). lia. }
  exists sfx. rewrite Hs, lookup_from_app, Hw. done.
Qed.

End Complete.

Section AllLive.

Lemma Inv_words_nonempty d reg ws w : Inv d reg ws → w ∈ ws → w ≠ [].
Proof.
  intros HI Hw ->. apply (i_lang _ _ _ HI) in Hw. unfold Lookup in Hw. simpl in Hw.
  rewrite (g_root_F _ _ (i_ginv _ _ _ HI)) in Hw. done.
Qed.

Lemma chain_node_live d reg i q :
  GInv d reg → (i < length (unchecked d))%nat →
  path_nodes (unchecked d) !! i = Some q → live (heap d) q.
Proof.
  intros HG Hi Hq. destruct (lookup_lt_is_Some_2 _ _ Hi) as [u Hu].
  destruct (g_chain _ _ HG i u Hu) as [Hp Hc]. rewrite Hq in Hp. injection Hp as ->.
  right. intros E. rewrite E, lookup_empty in Hc. done.
Qed.

Lemma building_all_live ws d :
  insert_all newDAWG ws = Ok d → ws ≠ [] → ∃ reg, GInv d reg ∧ all_live d reg.
Proof.
  intros Hins Hne. destruct (building_Inv ws d Hins) as [reg HI].
  pose proof (i_ginv _ _ _ HI) as HG. exists reg. split; [done|].
  assert (unchecked d ≠ []) as Hus.
  { intros E. pose proof (i_labels _ _ _ HI) as Hl. rewrite E, (i_prev _ _ _ HI) in Hl.
    destruct ws as [|w0 ws0] using rev_ind; [done|]. rewrite last_snoc in Hl. simpl in Hl.
    apply (Inv_words_nonempty d reg _ w0 HI); [|done].
    apply elem_of_app. right. by left. }
  intros q [Hq|Hq]; [by apply (g_reg_live _ _ HG)|].
  apply list_elem_of_lookup in Hq as [i Hi].
  pose proof (lookup_lt_Some _ _ _ Hi) as Hlt. rewrite length_path_nodes in Hlt.
  destruct (decide (i = length (unchecked d))) as [->|Hne'].
  - rewrite path_nodes_last in Hi. injection Hi as <-. left.
    by apply (i_last_final _ _ _ HI).
  - apply (chain_node_live d reg i); [done|lia|done].
Qed.

Lemma finished_all_live ws d :
  build ws = Ok d → ws ≠ [] → ∃ reg, GInv d reg ∧ all_live d reg.
Proof.
  intros Hb Hne. pose proof Hb as Hb'. apply build_Ok_inv in Hb' as (d0 & Hins & _).
  destruct (building_Inv ws d0 Hins) as [reg0 HI0].
  destruct (finished_GInv ws d Hb) as (reg & HG & Hus & Hlang).
  exists reg. split; [done|].
  intros q [Hq|Hq]; [by apply (g_reg_live _ _ HG)|].
  rewrite Hus in Hq. apply list_elem_of_singleton in Hq as ->.
  destruct ws as [|w ws]; [done|].
  assert (w ∈ w :: ws) as Hw by (by left).
  pose proof (Inv_words_nonempty d0 reg0 _ w HI0 Hw) as Hwne.
  apply Hlang in Hw. unfold Lookup in Hw.
  destruct w as [|k w]; [done|]. simpl in Hw.
  right. intros E. rewrite E, lookup_empty in Hw. done.
Qed.

End AllLive.

(** On an automaton that holds at least one word, finished or not,
    [LookupPrefix] returns once the map iteration has had as many rounds as
    the heap has nodes: not found when the prefix cannot be followed, and
    otherwise the bytes after the prefix of a word of the automaton. *)
Lemma LookupPrefix_completes ws d picks prefix :
  (insert_all newDAWG ws = Ok d ∨ build ws = Ok d) → ws ≠ [] →
  (length (heap d) ≤ length picks)%nat →
  (walk (heap d) root prefix = None ∧ LookupPrefix picks d prefix = Some ([], false)) ∨
  (∃ sfx, LookupPrefix picks d prefix = Some (sfx, true) ∧
          Lookup d (prefix ++ sfx) = true).
Proof.
  intros Hd Hne Hp.
  assert (∃ reg, GInv d reg ∧ all_live d reg) as (reg & HG & Hl).
  { destruct Hd; [by apply (building_all_live ws)|by apply (finished_all_live ws)]. }
  by apply (LookupPrefix_returns d reg HG Hl).
Qed.

(** * Further properties of the builder and the queries *)

(** ** Lookups while the automaton is built *)

Lemma insert_ex_building : insert_all newDAWG ex_words = Ok ex_building.
Proof. vm_compute. reflexivity. Defined.

Lemma insert_ex_two : insert_all newDAWG [bytes "a"; bytes "are"] = Ok ex_two.
Proof. vm_compute. reflexivity. Defined.

Lemma Insert_ex_three : Insert ex_two (bytes "as") = Ok ex_three.
Proof. vm_compute. reflexivity. Defined.

(** X1: after any successful sequence of insertions, before [Finish],
    [Lookup] is already true exactly for the inserted words. *)
Theorem Lookup_in_progress ws d :
  insert_all newDAWG ws = Ok d → ∀ w, Lookup d w = true ↔ w ∈ ws.
Proof.
  intros Hins. destruct (building_Inv ws d Hins) as [reg HI]. apply (i_lang _ _ _ HI).
Qed.

Lemma Lookup_in_progress_witness :
  insert_all newDAWG ex_words = Ok ex_building ∧
  (Lookup ex_building (bytes "as") = true ↔ bytes "as" ∈ ex_words).
Proof.
  split; [exact insert_ex_building|].
  apply (Lookup_in_progress ex_words ex_building insert_ex_building).
Defined.

(** X2: an insertion that returns adds its word and nothing else: a word
    is accepted afterwards if and only if it was accepted before or is the
    word inserted. *)
Theorem Insert_adds_word ws d w d' :
  insert_all newDAWG ws = Ok d → Insert d w = Ok d' →
  ∀ x, Lookup d' x = true ↔ (Lookup d x = true ∨ x = w).
Proof.
  intros Hins Hi x. destruct (building_Inv ws d Hins) as [reg HI].
  destruct (Insert_Inv d reg ws w HI (Insert_Ok_order _ _ _ Hi)) as (d1 & reg1 & E & HI1).
  rewrite Hi in E. injection E as <-.
  rewrite (i_lang _ _ _ HI1), (i_lang _ _ _ HI), elem_of_app, list_elem_of_singleton.
  done.
Qed.

Lemma Insert_adds_word_witness :
  insert_all newDAWG [bytes "a"; bytes "are"] = Ok ex_two ∧
  Insert ex_two (bytes "as") = Ok ex_three ∧
  (Lookup ex_three (bytes "are") = true ↔
   (Lookup ex_two (bytes "are") = true ∨ bytes "are" = bytes "as")).
Proof.
  split; [exact insert_ex_two|]. split; [exact Insert_ex_three|].
  apply (Insert_adds_word _ ex_two (bytes "as") ex_three insert_ex_two Insert_ex_three).
Defined.

(** ** [Finish] *)

Lemma Finish_frame ws d :
  insert_all newDAWG ws = Ok d →
  ∃ d', Finish d = Ok d' ∧ unchecked d' = [] ∧ prevWord d' = prevWord d ∧
        seq d' = seq d ∧ heap_frame (heap d) (heap d').
Proof.
  intros Hins. destruct (building_Inv ws d Hins) as [reg [HG Hlab Hleaf Hprev Hlang Hfinal]].
  destruct (minimize_GInv d reg 0 HG) as (d1 & reg1 & Hmin & HG1 & Hus1 & Hpw1 & Hfr);
    [lia|intros Hne; left; by apply Hfinal|].
  exists d1. split; [done|]. split; [by rewrite Hus1|]. split; [done|]. split; [|done].
  pose proof (g_len _ _ HG). pose proof (g_len _ _ HG1).
  destruct Hfr as (Hlen & _). lia.
Qed.

(** X3: [Finish] cannot fail after insertions that succeeded. It empties
    the list of unchecked nodes, allocates nothing, and changes the answer
    of no [Lookup]. *)
Theorem Finish_keeps_lookups ws d :
  insert_all newDAWG ws = Ok d →
  ∃ d', Finish d = Ok d' ∧ unchecked d' = [] ∧
        length (heap d') = length (heap d) ∧
        ∀ w, Lookup d' w = Lookup d w.
Proof.
  intros Hins. destruct (Finish_frame ws d Hins) as (d' & Hf & Hus & _ & _ & Hfr).
  exists d'. split; [done|]. split; [done|].
  destruct Hfr as (Hlen & _ & _ & Hlook). split; [done|].
  intros w. apply Hlook.
Qed.

Lemma Finish_keeps_lookups_witness :
  insert_all newDAWG ex_words = Ok ex_building ∧
  ∃ d', Finish ex_building = Ok d' ∧ unchecked d' = [] ∧
        length (heap d') = length (heap ex_building) ∧
        ∀ w, Lookup d' w = Lookup ex_building w.
Proof.
  split; [exact insert_ex_building|].
  apply (Finish_keeps_lookups ex_words ex_building insert_ex_building).
Defined.

Lemma minimize_nil d : unchecked d = [] → minimize d 0 = Ok d.
Proof.
  intros Hus. unfold minimize. rewrite Hus. destruct d as [h pw sq us mz].
  simpl in *. by subst.
Qed.

(** X4: [Finish] is idempotent: on a finished automaton it returns the
    automaton unchanged. *)
Theorem Finish_idempotent ws d : build ws = Ok d → Finish d = Ok d.
Proof.
  intros Hb. destruct (finished_GInv ws d Hb) as (reg & _ & Hus & _).
  by apply minimize_nil.
Qed.

Lemma Finish_idempotent_witness :
  build ex_words = Ok ex_dawg ∧ Finish ex_dawg = Ok ex_dawg.
Proof.
  split; [exact build_ex_dawg|]. apply (Finish_idempotent ex_words ex_dawg build_ex_dawg).
Defined.

(** ** Allocation *)

Lemma minimize_step_length h mz n h' mz' :
  minimize_step (h, mz) n = Ok (h', mz') → length h' = length h.
Proof.
  unfold minimize_step. destruct (key h (deref h (Unchecked.c n))) as [k|e]; [|done].
  cbn [mbind result_bind]. destruct (mz !! k); intros [= <- <-]; [|done].
  apply length_set_child.
Qed.

Lemma minimize_loop_length ns : ∀ h mz h' mz',
  minimize_loop (h, mz) ns = Ok (h', mz') → length h' = length h.
Proof.
  induction ns as [|n ns IH]; intros h mz h' mz'; cbn [minimize_loop].
  - by intros [= <- <-].
  - destruct (minimize_step (h, mz) n) as [[h1 mz1]|e] eqn:E; [|done].
    cbn [mbind result_bind]. intros H. rewrite (IH _ _ _ _ H).
    by eapply minimize_step_length.
Qed.

Lemma minimize_Ok d to d' :
  minimize d to = Ok d' →
  length (heap d') = length (heap d) ∧ seq d' = seq d ∧ prevWord d' = prevWord d ∧
  unchecked d' = take to (unchecked d) ∧ (to ≤ length (unchecked d))%nat.
Proof.
  unfold minimize.
  destruct (minimize_loop _ _) as [[h1 mz1]|e] eqn:E; [|done].
  cbn [mbind result_bind]. destruct (decide _) as [Hto|]; [|done].
  intros [= <-]. simpl. split; [by eapply minimize_loop_length|]. done.
Qed.

Lemma extend_all_counts ks : ∀ d curr,
  let r := foldl extend (d, curr) ks in
  length (heap r.1) = (length (heap d) + length ks)%nat ∧
  seq r.1 = seq d + Z.of_nat (length ks) ∧
  prevWord r.1 = prevWord d ∧
  length (unchecked r.1) = (length (unchecked d) + length ks)%nat.
Proof.
  induction ks as [|k ks IH]; intros d curr.
  - simpl. split; [lia|]. split; [lia|]. split; [done|lia].
  - cbn [foldl]. set (e := extend (d, curr) k).
    rewrite (surjective_pairing e). destruct (IH e.1 e.2) as (H1 & H2 & H3 & H4).
    cbn zeta. rewrite H1, H2, H3, H4. subst e. unfold extend, node. cbn [fst snd heap seq prevWord unchecked].
    rewrite length_set_child, !length_app. simpl. split; [lia|]. split; [lia|]. split; [done|lia].
Qed.

Lemma Insert_counts d w d' :
  Insert d w = Ok d' →
  let fresh := (length w - lcpLength w (prevWord d))%nat in
  length (heap d') = (length (heap d) + fresh)%nat ∧
  seq d' = seq d + Z.of_nat fresh ∧
  prevWord d' = w ∧
  length (unchecked d') = length w.
Proof.
  unfold Insert. destruct (str_le w (prevWord d)) eqn:Hle; [done|].
  destruct (minimize d _) as [d1|e] eqn:Hmin; [|done]. cbn [mbind result_bind].
  apply minimize_Ok in Hmin as (Hlen & Hseq & Hpw & Hus & Hto).
  set (d2 := mkDAWG _ _ _ _ _). set (curr := match last _ with Some u => _ | None => _ end).
  pose proof (extend_all_counts (drop (lcpLength w (prevWord d)) w) d2 curr) as Hc.
  destruct (foldl extend (d2, curr) _) as [d3 curr'] eqn:E.
  intros [= <-]. cbn zeta in Hc. cbn [fst] in Hc. destruct Hc as (H1 & H2 & H3 & H4).
  unfold set_heap. cbn [heap seq prevWord unchecked].
  rewrite length_drop in H1, H2, H4. subst d2. cbn [heap seq prevWord unchecked] in *.
  assert (lcpLength w (prevWord d) ≤ length w)%nat as Hlcp.
  { clear. generalize (prevWord d). induction w as [|a w IH]; intros [|b y]; simpl; try lia.
    destruct (a =? b)%N; [specialize (IH y)|]; lia. }
  split; [rewrite length_set_final; lia|]. split; [lia|]. split; [done|].
  rewrite H4, Hus, length_take. lia.
Qed.

(** X5: an insertion that returns allocates one node for every byte of
    the word beyond its common prefix with the previous word, and no other;
    afterwards the previous word is the word inserted and the list of
    unchecked nodes has one entry for every byte of it. *)
Theorem Insert_allocates d w d' :
  Insert d w = Ok d' →
  length (heap d') = (length (heap d) + (length w - lcpLength w (prevWord d)))%nat ∧
  seq d' = seq d + Z.of_nat (length w - lcpLength w (prevWord d)) ∧
  prevWord d' = w ∧
  length (unchecked d') = length w.
Proof. apply Insert_counts. Qed.

Lemma Insert_allocates_witness :
  Insert ex_two (bytes "as") = Ok ex_three ∧
  length (heap ex_three) = (length (heap ex_two) + 1)%nat.
Proof.
  split; [exact Insert_ex_three|].
  exact (proj1 (Insert_allocates ex_two (bytes "as") ex_three Insert_ex_three)).
Defined.

Lemma insert_all_counts ws : ∀ d0 d,
  insert_all d0 ws = Ok d →
  (length (heap d) ≤ length (heap d0) + total_length ws)%nat ∧
  seq d - seq d0 = Z.of_nat (length (heap d)) - Z.of_nat (length (heap d0)).
Proof.
  induction ws as [|w ws IH]; intros d0 d.
  - simpl. intros [= <-]. lia.
  - simpl. destruct (Insert d0 w) as [d1|e] eqn:Hi; [|done]. cbn [mbind result_bind].
    intros H. apply IH in H as [H1 H2].
    apply Insert_counts in Hi. cbn zeta in Hi. destruct Hi as (Hl & Hs & _). lia.
Qed.

(** X6: the automaton never holds more nodes than one (the root) plus the
    total length of the inserted words, and [seq] counts the nodes
    allocated besides the root. *)
Theorem nodes_bounded ws d :
  insert_all newDAWG ws = Ok d →
  (length (heap d) ≤ 1 + total_length ws)%nat ∧
  seq d = Z.of_nat (length (heap d)) - 1.
Proof.
  intros H. apply insert_all_counts in H as [H1 H2]. simpl in *. lia.
Qed.

Lemma nodes_bounded_witness :
  insert_all newDAWG ex_words = Ok ex_building ∧
  (length (heap ex_building) ≤ 1 + total_length ex_words)%nat ∧
  seq ex_building = Z.of_nat (length (heap ex_building)) - 1.
Proof.
  split; [exact insert_ex_building|].
  apply (nodes_bounded ex_words ex_building insert_ex_building).
Defined.

(** ** Node identifiers *)

Lemma GInv_reach_valid d reg q :
  GInv d reg → rtc (edge (heap d)) root q → (q < length (heap d))%nat.
Proof.
  intros HG Hr.
  assert (known reg (unchecked d) q) as [Hq|Hq]
    by (apply (rtc_known d reg HG root q (known_root d reg) Hr)).
  - by apply (g_reg_lt _ _ HG).
  - by apply (g_path_lt _ _ HG).
Qed.

Lemma reach_ids d q :
  reachable d → rtc (edge (heap d)) root q →
  ID (deref (heap d) q) = Z.of_nat q ∧ (Z.of_nat q ≤ seq d).
Proof.
  intros Hd Hr. destruct (reachable_GInv d Hd) as [reg HG].
  pose proof (GInv_reach_valid d reg q HG Hr) as Hlt.
  split; [apply heap_ids_deref; [apply (g_ids _ _ HG)|done]|].
  pose proof (g_len _ _ HG). lia.
Qed.

(** X7: in an automaton built by [Insert] and [Finish], the nodes that
    can be reached from the root carry pairwise distinct identifiers
    between 0 and [seq]; 0 is the identifier of the root alone. *)
Theorem ids_distinct d q q' :
  reachable d → rtc (edge (heap d)) root q → rtc (edge (heap d)) root q' →
  0 ≤ ID (deref (heap d) q) ≤ seq d ∧
  (ID (deref (heap d) q) = 0 ↔ q = root) ∧
  (ID (deref (heap d) q) = ID (deref (heap d) q') ↔ q = q').
Proof.
  intros Hd Hq Hq'.
  destruct (reach_ids d q Hd Hq) as [E L], (reach_ids d q' Hd Hq') as [E' L'].
  rewrite E, E'. unfold root. split; [lia|]. split; split; intros; lia.
Qed.

Lemma ids_distinct_witness :
  reachable ex_dawg ∧
  rtc (edge (heap ex_dawg)) root 1%nat ∧ rtc (edge (heap ex_dawg)) root 3%nat ∧
  0 ≤ ID (deref (heap ex_dawg) 1%nat) ≤ seq ex_dawg ∧
  (ID (deref (heap ex_dawg) 1%nat) = 0 ↔ 1%nat = root) ∧
  (ID (deref (heap ex_dawg) 1%nat) = ID (deref (heap ex_dawg) 3%nat) ↔ 1%nat = 3%nat).
Proof.
  split; [exact reachable_ex_dawg|]. split; [exact ex_dawg_reach_1|].
  split; [exact ex_dawg_reach_3|].
  exact (ids_distinct ex_dawg 1%nat 3%nat reachable_ex_dawg ex_dawg_reach_1 ex_dawg_reach_3).
Defined.

(** ** The signature of a node *)

(** X8: [key] either returns or stops on its size check, and it stops
    exactly when some child of the node has a negative identifier (the
    minus sign is not counted by [numDigits]). *)
Theorem key_fails_iff h n :
  ((∃ s, key h n = Ok s) ∨ key h n = Panic ErrKeySize) ∧
  (key h n = Panic ErrKeySize ↔ ∃ k q, C n !! k = Some q ∧ ID (deref h q) < 0).
Proof.
  pose proof (key_Ok_iff h n) as Hiff.
  assert ((∃ s, key h n = Ok s) ∨ key h n = Panic ErrKeySize) as Hcases.
  { unfold key. destruct (decide _); eauto. }
  split; [done|]. split.
  - intros Hp.
    assert (¬ Forall (λ i, 0 ≤ i) (childIDs h n)) as Hn.
    { intros Hf. apply Hiff in Hf as [s Hs]. congruence. }
    apply not_Forall_Exists in Hn; [|intros i; apply Z_le_dec].
    apply Exists_exists in Hn as (i & Hi & Hneg).
    apply elem_of_childIDs in Hi as (k & q & Hq & ->).
    exists k, q. split; [done|]. simpl in Hneg. lia.
  - intros (k & q & Hq & Hneg). destruct Hcases as [[s Hs]|]; [|done].
    assert (Forall (λ i, 0 ≤ i) (childIDs h n)) as Hf by (apply Hiff; eauto).
    rewrite Forall_forall in Hf.
    specialize (Hf (ID (deref h q))). simpl in Hf.
    assert (0 ≤ ID (deref h q)); [|lia].
    apply Hf. apply elem_of_childIDs. eauto.
Qed.

(** X9: for a positive [n], [numDigits n] is the number of decimal digits
    of [n]. *)
Theorem numDigits_decimal n :
  1 ≤ n → 1 ≤ numDigits n ∧ 10 ^ (numDigits n - 1) ≤ n < 10 ^ numDigits n.
Proof.
  intros Hn. assert (0 ≤ n) as Hn0 by lia. revert Hn. pattern n.
  apply digits_ind; [| |done]; clear n Hn0.
  - intros n Hn Hn1. rewrite numDigits_small by lia. simpl. lia.
  - intros n Hn IH _.
    assert (1 ≤ n / 10) as H1 by (apply Z.div_le_lower_bound; lia).
    destruct (IH H1) as (Hd & Hlo & Hhi).
    rewrite numDigits_step by done.
    replace (1 + numDigits (n / 10) - 1) with (Z.succ (numDigits (n / 10) - 1)) by lia.
    replace (1 + numDigits (n / 10)) with (Z.succ (numDigits (n / 10))) by lia.
    rewrite !Z.pow_succ_r by lia.
    pose proof (Z.div_mod n 10 ltac:(lia)). pose proof (Z.mod_pos_bound n 10 ltac:(lia)).
    split; [lia|]. split; lia.
Qed.

Lemma numDigits_decimal_witness :
  1 ≤ 2024 ∧ 1 ≤ numDigits 2024 ∧ 10 ^ (numDigits 2024 - 1) ≤ 2024 < 10 ^ numDigits 2024.
Proof. split; [lia|]. apply (numDigits_decimal 2024). lia. Defined.

(** ** [lcpLength] and [sortedKeys] *)

Lemma lcpLength_nil_r x : lcpLength x [] = O.
Proof. by destruct x. Qed.

Lemma lcpLength_loop_drop rounds : ∀ a b i n,
  n = Nat.min (length a) (length b) → (rounds + i = n)%nat →
  lcpLength_loop rounds a b i n = (i + lcpLength (drop i a) (drop i b))%nat.
Proof.
  induction rounds as [|rounds IH]; intros a b i n Hn Hr.
  - simpl. simpl in Hr. subst i.
    destruct (Nat.min_spec (length a) (length b)) as [[_ E]|[_ E]].
    + rewrite (drop_ge a) by lia. simpl. lia.
    + rewrite (drop_ge b) by lia. rewrite lcpLength_nil_r. lia.
  - cbn [lcpLength_loop]. destruct (Nat.ltb_spec i n) as [Hi|Hi]; [|lia].
    destruct (lookup_lt_is_Some_2 a i ltac:(lia)) as [x Hx].
    destruct (lookup_lt_is_Some_2 b i ltac:(lia)) as [y Hy].
    rewrite (drop_S a x i Hx), (drop_S b y i Hy). cbn [lcpLength].
    rewrite Hx, Hy. destruct (decide (Some x = Some y)) as [E|E].
    + injection E as <-. rewrite N.eqb_refl. rewrite IH by lia. lia.
    + destruct (N.eqb_spec x y) as [->|_]; [done|lia].
Qed.

Lemma lcpLength_go_eq a b : lcpLength_go a b = lcpLength a b.
Proof.
  unfold lcpLength_go, min_int.
  assert (Z.to_nat (if Z.of_nat (length a) <? Z.of_nat (length b)
                    then Z.of_nat (length a) else Z.of_nat (length b))
          = Nat.min (length a) (length b)) as ->.
  { destruct (Z.ltb_spec (Z.of_nat (length a)) (Z.of_nat (length b))); lia. }
  rewrite lcpLength_loop_drop with (n := Nat.min (length a) (length b)); [done|done|lia].
Qed.

Lemma lcpLength_spec a : ∀ b,
  take (lcpLength a b) a = take (lcpLength a b) b ∧
  (lcpLength a b ≤ length a)%nat ∧ (lcpLength a b ≤ length b)%nat ∧
  ∀ x y, a !! lcpLength a b = Some x → b !! lcpLength a b = Some y → x ≠ y.
Proof.
  induction a as [|x a IH]; intros [|y b]; simpl; try (repeat split; (done || lia)).
  destruct (N.eqb_spec x y) as [->|Hne].
  - destruct (IH b) as (H1 & H2 & H3 & H4). simpl. rewrite H1.
    split; [done|]. split; [lia|]. split; [lia|]. done.
  - simpl. split; [done|]. split; [lia|]. split; [lia|]. intros ? ? [= <-] [= <-]. done.
Qed.

(** X10: [lcpLength], as an index loop up to the smaller length, returns
    the length of the longest common prefix of its arguments: they agree
    before that index and, where both have a byte at it, differ there. The
    structural recursion the builder is modelled with computes the same
    number. *)
Theorem lcpLength_longest a b :
  take (lcpLength_go a b) a = take (lcpLength_go a b) b ∧
  (lcpLength_go a b ≤ length a)%nat ∧ (lcpLength_go a b ≤ length b)%nat ∧
  (∀ x y, a !! lcpLength_go a b = Some x → b !! lcpLength_go a b = Some y → x ≠ y) ∧
  lcpLength_go a b = lcpLength a b.
Proof.
  rewrite lcpLength_go_eq. destruct (lcpLength_spec a b) as (H1 & H2 & H3 & H4). done.
Qed.

(** X11: [sortedKeys] returns the keys of the map, each once, in strictly
    ascending order. *)
Theorem sortedKeys_sorted (m : gmap N nat) :
  StronglySorted N.lt (sortedKeys m) ∧
  (∀ k, k ∈ sortedKeys m ↔ is_Some (m !! k)) ∧
  NoDup (sortedKeys m) ∧
  length (sortedKeys m) = size m.
Proof.
  split; [apply sortedKeys_ascending|]. split; [apply elem_of_sortedKeys|].
  split; [apply NoDup_sortedKeys|apply length_sortedKeys].
Qed.

(** ** [LookupPrefix] and the set of words *)

Lemma Lookup_built ws d :
  (insert_all newDAWG ws = Ok d ∨ build ws = Ok d) →
  ∀ w, Lookup d w = true ↔ w ∈ ws.
Proof.
  intros [Hins|Hb].
  - destruct (building_Inv ws d Hins) as [reg HI]. apply (i_lang _ _ _ HI).
  - destruct (finished_GInv ws d Hb) as (reg & _ & _ & Hlang). exact Hlang.
Qed.

(** X12: on an automaton that holds at least one word, finished or not,
    [LookupPrefix] reports success exactly when some inserted word begins
    with the prefix, whatever order the map iteration takes; on success the
    prefix followed by the returned bytes is an inserted word, and on
    failure the returned string is empty. *)
Theorem LookupPrefix_finds ws d picks prefix :
  (insert_all newDAWG ws = Ok d ∨ build ws = Ok d) → ws ≠ [] →
  (length (heap d) ≤ length picks)%nat →
  ∃ sfx ok, LookupPrefix picks d prefix = Some (sfx, ok) ∧
    (ok = true ↔ ∃ w, w ∈ ws ∧ has_prefix prefix w) ∧
    (ok = true → prefix ++ sfx ∈ ws) ∧
    (ok = false → sfx = []).
Proof.
  intros Hd Hne Hp. pose proof (Lookup_built ws d Hd) as Hlang.
  destruct (LookupPrefix_completes ws d picks prefix Hd Hne Hp)
    as [[Hw HL]|(sfx & HL & Hlook)].
  - exists [], false. split; [done|]. split; [|done]. split; [done|].
    intros (w & Hin & s & ->). apply Hlang in Hin. unfold Lookup in Hin.
    rewrite lookup_from_app, Hw in Hin. done.
  - exists sfx, true. split; [done|]. apply Hlang in Hlook.
    split; [|done]. split; [|done]. intros _. exists (prefix ++ sfx). split; [done|].
    by exists sfx.
Qed.

Lemma LookupPrefix_finds_witness :
  (insert_all newDAWG ex_words = Ok ex_dawg ∨ build ex_words = Ok ex_dawg) ∧
  ex_words ≠ [] ∧
  (length (heap ex_dawg) ≤ length (repeat O 8))%nat ∧
  ∃ sfx ok, LookupPrefix (repeat O 8) ex_dawg (bytes "ar") = Some (sfx, ok) ∧
    (ok = true ↔ ∃ w, w ∈ ex_words ∧ has_prefix (bytes "ar") w) ∧
    (ok = true → bytes "ar" ++ sfx ∈ ex_words) ∧
    (ok = false → sfx = []).
Proof.
  assert (length (heap ex_dawg) ≤ length (repeat O 8))%nat as Hl by (vm_compute; lia).
  assert (ex_words ≠ []) as Hne by done.
  split; [right; exact build_ex_dawg|]. split; [exact Hne|]. split; [exact Hl|].
  exact (LookupPrefix_finds ex_words ex_dawg (repeat O 8) (bytes "ar")
           (or_intror build_ex_dawg) Hne Hl).
Defined.

(** X13: a prefix that is itself accepted is completed by the empty
    string, at once and in every iteration order. *)
Theorem LookupPrefix_of_word d w picks :
  Lookup d w = true → LookupPrefix picks d w = Some ([], true).
Proof.
  unfold Lookup, LookupPrefix. rewrite lookup_from_walk.
  destruct (walk (heap d) root w) as [q|]; [|done]. intros HF.
  destruct picks; cbn [complete]; by rewrite HF.
Qed.

Lemma LookupPrefix_of_word_witness :
  Lookup ex_dawg (bytes "are") = true ∧
  LookupPrefix [] ex_dawg (bytes "are") = Some ([], true).
Proof.
  split; [vm_compute; reflexivity|].
  apply (LookupPrefix_of_word ex_dawg (bytes "are") []). vm_compute. reflexivity.
Defined.

Lemma complete_extends h picks : ∀ q buf r,
  complete h picks q buf = Some r →
  ∃ sfx, r = buf ++ sfx ∧ lookup_from h q sfx = true.
Proof.
  induction picks as [|i picks IH]; intros q buf r; cbn [complete].
  - destruct (F (deref h q)) eqn:HF; [|done]. intros [= <-]. exists [].
    by rewrite app_nil_r.
  - destruct (F (deref h q)) eqn:HF.
    { intros [= <-]. exists []. by rewrite app_nil_r. }
    destruct (map_to_list (C (deref h q)) !! _) as [[k next]|] eqn:E.
    + intros H. apply IH in H as (sfx & -> & Hl). exists (k :: sfx).
      rewrite <- app_assoc. split; [done|]. simpl.
      apply list_elem_of_lookup_2, elem_of_map_to_list in E. by rewrite E.
    + intros H. apply IH in H as (sfx & -> & Hl). exfalso.
      destruct sfx as [|k sfx]; simpl in Hl; [congruence|].
      destruct (map_to_list (C (deref h q))) as [|e es] eqn:Em.
      * apply map_to_list_empty_iff in Em. rewrite Em, lookup_empty in Hl. done.
      * apply lookup_ge_None in E. simpl in E.
        pose proof (Nat.mod_upper_bound i (S (length es))). lia.
Qed.

(** X14: whatever state the automaton is in and whatever order the map
    iteration takes, an answer of [LookupPrefix] is sound: a success
    returns bytes that complete the prefix to an accepted word, and a
    failure means that no accepted word begins with the prefix. *)
Theorem LookupPrefix_sound d picks prefix sfx ok :
  LookupPrefix picks d prefix = Some (sfx, ok) →
  (ok = true → Lookup d (prefix ++ sfx) = true) ∧
  (ok = false → sfx = [] ∧ ∀ s, Lookup d (prefix ++ s) = false).
Proof.
  unfold LookupPrefix, Lookup.
  destruct (walk (heap d) root prefix) as [q|] eqn:Hw.
  - destruct (complete (heap d) picks q []) as [buf|] eqn:Hc; [|done].
    intros [= <- <-]. split; [|done]. intros _.
    apply complete_extends in Hc as (s & -> & Hl). simpl.
    by rewrite lookup_from_app, Hw.
  - intros [= <- <-]. split; [done|]. intros _. split; [done|].
    intros s. by rewrite lookup_from_app, Hw.
Qed.

Lemma LookupPrefix_sound_witness :
  LookupPrefix [O] ex_dawg (bytes "ar") = Some (bytes "e", true) ∧
  (true = true → Lookup ex_dawg (bytes "ar" ++ bytes "e") = true) ∧
  (true = false → bytes "e" = [] ∧ ∀ s, Lookup ex_dawg (bytes "ar" ++ s) = false).
Proof.
  assert (LookupPrefix [O] ex_dawg (bytes "ar") = Some (bytes "e", true)) as H
    by (vm_compute; reflexivity).
  split; [exact H|].
  exact (LookupPrefix_sound ex_dawg [O] (bytes "ar") (bytes "e") true H).
Defined.

(** ** The registered nodes stay reachable *)

Lemma chain_reach d reg q :
  GInv d reg → q ∈ path_nodes (unchecked d) → rtc (edge (heap d)) root q.
Proof.
  intros HG Hq. apply list_elem_of_lookup in Hq as [i Hi].
  pose proof (lookup_lt_Some _ _ _ Hi) as Hlt. rewrite length_path_nodes in Hlt.
  rewrite <- (walk_chain d reg HG i) in Hi by lia. by eapply walk_rtc.
Qed.

Lemma edge_lt h a x : edge h a x → (a < length h)%nat.
Proof.
  intros [k Hk]. destruct (decide (a < length h)%nat) as [|Hge]; [done|].
  unfold deref in Hk. rewrite lookup_ge_None_2 in Hk by lia. simpl in Hk.
  by rewrite lookup_empty in Hk.
Qed.

Section MergeReach.

Variables (h : list Node) (pw : list N) (sq : Z) (us : list Unchecked.t)
          (u : Unchecked.t) (mz : gmap (list N) nat) (reg : list nat).

Hypothesis HG : GInv (mkDAWG h pw sq (us ++ [u]) mz) reg.

Lemma merge_reach m x :
  mz !! key_buf h (deref h (Unchecked.c u)) = Some m →
  rtc (edge h) root x →
  rtc (edge (set_child h (Unchecked.p u) (Unchecked.b u) m)) root
      (if decide (x = Unchecked.c u) then m else x).
Proof.
  intros Hm Hr.
  pose proof (ms_child_not_in_path h pw sq us u mz reg HG) as Hcn.
  pose proof (ms_parent_in_path h pw sq us u mz reg HG) as Hpn.
  assert (∀ r, r ∈ reg → r ≠ Unchecked.c u) as Hregcn.
  { intros r Hr' ->.
    apply (g_path_reg _ _ HG (Unchecked.c u)); [|done].
    apply (ms_child_in_path us u). }
  assert (m ∈ reg) as Hmreg by (apply (g_reg_min _ _ HG); eauto).
  pose proof (g_min_key _ _ HG _ _ Hm) as Hmkey. simpl in Hmkey.
  assert (F (deref h (Unchecked.c u)) = F (deref h m) ∧
          C (deref h (Unchecked.c u)) = C (deref h m)) as [HF HC].
  { apply (same_key_same_node h _ _ (key_buf h (deref h (Unchecked.c u))));
      [apply (g_ids _ _ HG)| | |apply (ms_key h pw sq us u mz reg HG)|exact Hmkey].
    - intros k q Hq. eapply (ms_reg_lt h pw sq us u mz reg HG).
      by eapply (ms_child_children h pw sq us u mz reg HG).
    - intros k q. apply (heap_closed_deref _ _ _ _ (g_closed _ _ HG)).
      by apply (ms_reg_lt h pw sq us u mz reg HG). }
  assert (Unchecked.p u ≠ m) as Hpm.
  { intros E. apply (g_path_reg _ _ HG (Unchecked.p u)); [|by rewrite E].
    by apply (ms_path_sub us u). }
  apply rtc_nsteps in Hr as [n Hn]. revert x Hn.
  induction n as [|n IH]; intros x Hn.
  - inversion Hn; subst. rewrite decide_False; [apply rtc_refl|].
    intros E. apply Hcn. rewrite <- E. unfold path_nodes. by left.
  - apply nsteps_inv_r in Hn as (y & Hy & [k Hk]).
    assert (known reg (us ++ [u]) y) as Ky.
    { apply (rtc_known _ reg HG root y); [apply known_root|].
      apply rtc_nsteps. eauto. }
    specialize (IH y Hy).
    destruct (decide (y = Unchecked.c u)) as [->|Hycn].
    + rewrite HC in Hk.
      assert (x ∈ reg) as Hx.
      { rewrite <- HC in Hk. by eapply (ms_child_children h pw sq us u mz reg HG). }
      rewrite decide_False by (by apply Hregcn).
      eapply rtc_r; [exact IH|]. exists k. by rewrite deref_set_child_ne.
    + destruct (decide (y = Unchecked.p u)) as [->|Hypn].
      * destruct (ms_parent_children h pw sq us u mz reg HG k x Hk) as [[-> ->]|[Hlt Hx]].
        -- rewrite decide_True by done. eapply rtc_r; [exact IH|].
           exists (Unchecked.b u).
           rewrite C_set_child_eq by apply (ms_parent_lt h pw sq us u mz reg HG).
           apply lookup_insert_eq.
        -- rewrite decide_False by (by apply Hregcn).
           eapply rtc_r; [exact IH|]. exists k.
           rewrite C_set_child_eq by apply (ms_parent_lt h pw sq us u mz reg HG).
           rewrite lookup_insert_ne by lia. done.
      * assert (x ≠ Unchecked.c u) as Hxcn.
        { destruct Ky as [Hyr|Hyp].
          - apply list_elem_of_lookup in Hyr as [j Hj].
            pose proof (g_reg_children _ _ HG j y k x Hj Hk) as Hx.
            apply Hregcn. apply elem_of_take in Hx as (i & Hi & _).
            by eapply list_elem_of_lookup_2.
          - rewrite path_nodes_snoc, elem_of_app, list_elem_of_singleton in Hyp.
            destruct Hyp as [Hyp|]; [|done].
            apply list_elem_of_lookup in Hyp as [i Hi].
            pose proof (lookup_lt_Some _ _ _ Hi) as Hlt. rewrite length_path_nodes in Hlt.
            destruct (decide (i = length us)) as [->|Hne].
            { rewrite path_nodes_last in Hi. injection Hi as Hi.
              rewrite <- (ms_parent h pw sq us u mz reg HG) in Hi. done. }
            destruct (lookup_lt_is_Some_2 us i ltac:(lia)) as [v Hv].
            destruct (ms_prev_entry h pw sq us u mz reg HG i v Hv) as (Hp & Hc & _).
            rewrite Hi in Hp. injection Hp as ->.
            assert ((us ++ [u]) !! i = Some v) as Hv' by (by apply lookup_app_l_Some).
            destruct (g_chain_children _ _ HG i v k x Hv' Hk) as [[_ ->]|[_ Hx]];
              [|by apply Hregcn].
            intros E. apply Hcn. rewrite <- E.
            apply (list_elem_of_lookup_2 _ (S i)). unfold path_nodes. simpl.
            by rewrite list_lookup_fmap, Hv. }
        rewrite decide_False by done. eapply rtc_r; [exact IH|]. exists k.
        by rewrite deref_set_child_ne.
Qed.

Lemma minimize_step_reach h' mz' :
  reg_reachable (mkDAWG h pw sq (us ++ [u]) mz) →
  minimize_step (h, mz) u = Ok (h', mz') →
  reg_reachable (mkDAWG h' pw sq us mz').
Proof.
  intros HR. unfold minimize_step.
  rewrite (ms_key h pw sq us u mz reg HG). cbn [mbind result_bind].
  destruct (mz !! key_buf h (deref h (Unchecked.c u))) as [m|] eqn:Hm.
  - intros [= <- <-] k0 m0 Hm0. cbn [heap minimized] in *.
    pose proof (merge_reach m m0 Hm (HR k0 m0 Hm0)) as Hr.
    rewrite decide_False in Hr; [done|].
    intros E. apply (g_path_reg _ _ HG (Unchecked.c u)); [apply (ms_child_in_path us u)|].
    rewrite <- E. apply (g_reg_min _ _ HG). eauto.
  - intros [= <- <-] k0 m0 Hm0. cbn [heap minimized] in *.
    apply lookup_insert_Some in Hm0 as [[_ <-]|[_ Hm0]].
    + apply (chain_reach _ reg _ HG). apply (ms_child_in_path us u).
    + by apply (HR k0).
Qed.

End MergeReach.

Lemma minimize_loop_reach pw sq us rest :
  ∀ h mz reg h' mz',
  GInv (mkDAWG h pw sq (us ++ rest) mz) reg →
  (rest ≠ [] → live h (last_node (us ++ rest))) →
  reg_reachable (mkDAWG h pw sq (us ++ rest) mz) →
  minimize_loop (h, mz) (rev rest) = Ok (h', mz') →
  reg_reachable (mkDAWG h' pw sq us mz').
Proof.
  induction rest as [|u rest IH] using rev_ind; intros h mz reg h' mz' HG Hlive HR.
  - simpl. intros [= <- <-]. done.
  - rewrite app_assoc in HG, Hlive. rewrite rev_unit. cbn [minimize_loop].
    rewrite last_node_snoc in Hlive.
    destruct (minimize_step_GInv h pw sq (us ++ rest) u mz reg HG)
      as (h1 & mz1 & reg1 & Hstep & HG1 & Hlive1 & Hfr1).
    { apply Hlive. by destruct rest. }
    rewrite Hstep. cbn [mbind result_bind]. intros Hloop.
    apply (IH h1 mz1 reg1 h' mz' HG1); [done| |done].
    apply (minimize_step_reach h pw sq (us ++ rest) u mz reg HG); [|done].
    intros k0 m0. apply HR.
Qed.

Lemma minimize_reach d reg to d' :
  GInv d reg → (to ≤ length (unchecked d))%nat →
  (unchecked d ≠ [] → live (heap d) (last_node (unchecked d))) →
  reg_reachable d → minimize d to = Ok d' → reg_reachable d'.
Proof.
  intros HG Hto Hlive HR. destruct d as [h pw sq us mz]. simpl in *.
  rewrite <- (take_drop to us) in HG.
  unfold minimize. cbn [heap minimized unchecked prevWord seq].
  destruct (minimize_loop (h, mz) (rev (drop to us))) as [[h1 mz1]|e] eqn:Hloop; [|done].
  cbn [mbind result_bind]. destruct (decide _); [|done]. intros [= <-].
  intros k0 m0. cbn [heap minimized fst snd].
  apply (minimize_loop_reach pw sq (take to us) (drop to us) h mz reg h1 mz1 HG); [|done|done].
  intros Hne. rewrite take_drop. apply Hlive. intros ->. by rewrite drop_nil in Hne.
Qed.

Lemma extend_reach d reg k :
  GInv d reg →
  (∀ k' q, C (deref (heap d) (last_node (unchecked d))) !! k' = Some q → (k' < k)%N) →
  reg_reachable d → reg_reachable (extend (d, last_node (unchecked d)) k).1.
Proof.
  intros HG Hbound HR k0 m Hm. rewrite extend_eq in *. cbn [fst heap minimized] in *.
  specialize (HR k0 m Hm). eapply rtc_subrel; [|exact HR].
  intros a x He. pose proof (edge_lt _ _ _ He) as Ha. destruct He as [k' Hk'].
  exists k'. destruct (decide (a = last_node (unchecked d))) as [->|Hne].
  - rewrite C_set_child_eq by (rewrite length_app; lia). rewrite deref_app_l by done.
    rewrite lookup_insert_ne; [done|]. intros <-. apply Hbound in Hk'. lia.
  - rewrite deref_set_child_ne by done. by rewrite deref_app_l.
Qed.

Lemma extend_all_reach ks :
  ∀ d reg,
  GInv d reg →
  labels (unchecked d) ++ ks `prefix_of` prevWord d →
  (∀ k0 k' q, head ks = Some k0 →
     C (deref (heap d) (last_node (unchecked d))) !! k' = Some q → (k' < k0)%N) →
  reg_reachable d →
  reg_reachable (foldl extend (d, last_node (unchecked d)) ks).1.
Proof.
  induction ks as [|k ks IH]; intros d reg HG Hlab Hbound HR; cbn [foldl]; [done|].
  assert (Hlab1 : labels (unchecked d) ++ [k] `prefix_of` prevWord d).
  { destruct Hlab as [r Hr]. exists (ks ++ r). rewrite Hr. by rewrite <- !app_assoc. }
  assert (Hb1 : ∀ k' q,
    C (deref (heap d) (last_node (unchecked d))) !! k' = Some q → (k' < k)%N).
  { intros k' q. by apply Hbound. }
  pose proof (extend_GInv d reg k HG Hlab1 Hb1) as HG1.
  pose proof (extend_reach d reg k HG Hb1 HR) as HR1.
  destruct (extend_facts d reg k HG Hb1)
    as (Hc & Hl & Hp & HC & HF & Hlen & Hhl & Hfr).
  set (e := extend (d, last_node (unchecked d)) k) in *.
  assert (e = (e.1, last_node (unchecked e.1))) as Ee.
  { rewrite <- Hc. apply surjective_pairing. }
  rewrite Ee. apply (IH e.1 reg HG1); [| |done].
  - rewrite Hl, Hp, <- app_assoc. done.
  - intros k0 k' q _. rewrite HC, lookup_empty. done.
Qed.

Lemma Insert_reach d reg ws word d' :
  Inv d reg ws → reg_reachable d → Insert d word = Ok d' → reg_reachable d'.
Proof.
  intros [HG Hlab Hleaf Hprev Hlang Hfinal] HR Hins.
  pose proof (Insert_Ok_order _ _ _ Hins) as Hle.
  destruct (str_le_false_lcp word (prevWord d) Hle) as (Hl & Htake & x & Hx & Hy).
  set (l := lcpLength word (prevWord d)) in *.
  assert (length (unchecked d) = length (prevWord d)) as Hlen
    by (by rewrite <- Hlab, length_labels).
  destruct (minimize_GInv d reg l HG) as (d1 & reg1 & Hmin & HG1 & Hus1 & Hpw1 & Hfr);
    [lia|intros Hne; left; by apply Hfinal|].
  assert (reg_reachable d1) as HR1.
  { apply (minimize_reach d reg l d1 HG); [lia|intros Hne; left; by apply Hfinal|done|done]. }
  destruct Hfr as (Hlenh & HFfr & Hdom & Hlook).
  unfold Insert in Hins. rewrite Hle in Hins. fold l in Hins. rewrite Hmin in Hins.
  cbn [mbind result_bind] in Hins.
  set (d2 := mkDAWG (heap d1) word (seq d1) (unchecked d1) (minimized d1)) in *.
  change (match last (unchecked d2) with
          | Some u => Unchecked.c u
          | None => root
          end) with (last_node (unchecked d2)) in Hins.
  assert (labels (unchecked d1) = take l word) as Hlab1.
  { by rewrite Hus1, labels_take, Hlab. }
  assert (GInv d2 reg1) as HG2.
  { apply GInv_set_prevWord; [done|]. rewrite Hlab1. apply prefix_take. }
  assert (Hbound : ∀ k0 k' q, head (drop l word) = Some k0 →
            C (deref (heap d2) (last_node (unchecked d2))) !! k' = Some q → (k' < k0)%N).
  { intros k0 k' q Hk0 Hq. simpl in Hq.
    rewrite head_lookup, lookup_drop, Nat.add_0_r, Hx in Hk0. injection Hk0 as <-.
    assert (k' ∈ dom (C (deref (heap d) (last_node (unchecked d1))))) as Hin.
    { rewrite <- Hdom. apply elem_of_dom. eauto. }
    apply elem_of_dom in Hin as [q0 Hq0]. rewrite Hus1 in Hq0.
    destruct (unchecked d !! l) as [u|] eqn:Eu.
    - pose proof (last_node_take _ _ _ Eu) as Hp.
      destruct (g_chain _ _ HG _ _ Eu) as [Hp' _]. rewrite Hp in Hp'.
      injection Hp' as Hp'. rewrite Hp' in Hq0.
      assert (prevWord d !! l = Some (Unchecked.b u)) as Hb.
      { rewrite <- Hlab. unfold labels. by rewrite list_lookup_fmap, Eu. }
      specialize (Hy _ Hb).
      destruct (g_chain_children _ _ HG l u k' q0 Eu Hq0) as [[-> _]|[? _]]; lia.
    - apply lookup_ge_None in Eu. rewrite take_ge in Hq0 by lia.
      rewrite Hleaf, lookup_empty in Hq0. done. }
  assert (labels (unchecked d2) ++ drop l word = word) as Hword.
  { simpl. rewrite Hlab1. apply take_drop. }
  assert (reg_reachable d2) as HR2 by (intros k0 m0; apply HR1).
  pose proof (extend_all_reach (drop l word) d2 reg1 HG2) as HR3.
  destruct (foldl extend (d2, last_node (unchecked d2)) (drop l word))
    as [d3 c3] eqn:E3.
  injection Hins as <-. cbn [fst] in HR3.
  intros k0 m0 Hm0. cbn [set_heap heap minimized] in *.
  eapply rtc_subrel; [|apply (HR3 ltac:(by rewrite Hword) Hbound HR2 k0 m0 Hm0)].
  intros a y [k' Hk']. exists k'. by rewrite C_set_final.
Qed.

Lemma insert_all_reach ws' :
  ∀ d reg ws d',
  Inv d reg ws → reg_reachable d → insert_all d ws' = Ok d' → reg_reachable d'.
Proof.
  induction ws' as [|w ws' IH]; intros d reg ws d' HI HR Hins; simpl in Hins.
  - by injection Hins as <-.
  - destruct (Insert d w) as [d1|e] eqn:E1; [|done]. cbn [mbind result_bind] in Hins.
    destruct (Insert_Inv d reg ws w HI (Insert_Ok_order _ _ _ E1)) as (d1' & reg1 & E & HI1).
    rewrite E1 in E. injection E as <-.
    apply (IH d1 reg1 _ d' HI1); [|done]. by apply (Insert_reach d reg ws w).
Qed.

Lemma building_reach ws d : insert_all newDAWG ws = Ok d → reg_reachable d.
Proof.
  apply (insert_all_reach ws newDAWG [] []); [apply Inv_newDAWG|].
  intros k m Hm. simpl in Hm. by rewrite lookup_empty in Hm.
Qed.

Lemma finished_reach ws d : build ws = Ok d → reg_reachable d.
Proof.
  intros Hb. apply build_Ok_inv in Hb as (d0 & Hins & Hfin).
  destruct (building_Inv ws d0 Hins) as [reg HI].
  apply (minimize_reach d0 reg 0 d (i_ginv _ _ _ HI)); [lia| | |exact Hfin].
  - intros Hne. left. by apply (i_last_final _ _ _ HI).
  - by apply (building_reach ws).
Qed.

Lemma reachable_reg_reachable d : reachable d → reg_reachable d.
Proof. intros [[ws H]|[ws H]]; [by eapply building_reach|by eapply finished_reach]. Qed.

(** ** Counting nodes and edges *)

Section Count.

Variables (d : DAWG) (reg : list nat).
Hypothesis HG : GInv d reg.
Hypothesis HR : reg_reachable d.

Lemma reach_iff_known q :
  rtc (edge (heap d)) root q ↔ known reg (unchecked d) q.
Proof.
  split.
  - apply (rtc_known d reg HG root q (known_root d reg)).
  - intros [Hq|Hq].
    + apply (g_reg_min _ _ HG) in Hq as [k Hk]. by apply (HR k).
    + by apply (chain_reach d reg).
Qed.

Lemma minimized_values : (map_to_list (minimized d)).*2 ≡ₚ reg.
Proof.
  apply NoDup_Permutation; [|apply (g_reg_nodup _ _ HG)|].
  - apply NoDup_fmap_2_strong; [|apply NoDup_map_to_list].
    intros [k1 m1] [k2 m2] H1 H2 E. simpl in E. subst m2.
    apply elem_of_map_to_list in H1, H2.
    pose proof (g_min_key _ _ HG _ _ H1) as K1.
    pose proof (g_min_key _ _ HG _ _ H2) as K2. congruence.
  - intros m. rewrite (g_reg_min _ _ HG), list_elem_of_fmap. split.
    + intros ([k m'] & -> & Hin). apply elem_of_map_to_list in Hin. eauto.
    + intros [k Hk]. exists (k, m). split; [done|]. by apply elem_of_map_to_list.
Qed.

Lemma size_minimized : size (minimized d) = length reg.
Proof. rewrite <- minimized_values, length_fmap. by rewrite length_map_to_list. Qed.

Lemma known_nodup : NoDup (path_nodes (unchecked d) ++ reg).
Proof.
  apply NoDup_app. split; [apply (g_path_nodup _ _ HG)|]. split.
  - intros x Hx. by apply (g_path_reg _ _ HG).
  - apply (g_reg_nodup _ _ HG).
Qed.

Lemma NodeCount_known :
  NodeCount d + Z.of_nat (length (unchecked d))
  = Z.of_nat (length (path_nodes (unchecked d) ++ reg)).
Proof.
  unfold NodeCount. rewrite size_minimized, length_app, length_path_nodes. lia.
Qed.

End Count.

Lemma edge_count_cons h a l :
  edge_count h (a :: l) = (length (kids h a) + edge_count h l)%nat.
Proof. unfold edge_count. simpl. by rewrite length_app. Qed.

Lemma edge_count_Permutation h l l' : l ≡ₚ l' → edge_count h l = edge_count h l'.
Proof.
  induction 1 as [|a l l' _ IH|a b l|l1 l2 l3 _ IH1 _ IH2].
  - done.
  - rewrite !edge_count_cons. lia.
  - rewrite !edge_count_cons. lia.
  - congruence.
Qed.

Lemma length_kids h a : length (kids h a) = size (C (deref h a)).
Proof. rewrite kids_eq, length_fmap. apply length_sortedKeys. Qed.

Lemma length_flat h order : length (flat h order) = edge_count h order.
Proof.
  unfold flat. apply length_flat_prefix.
Qed.

Lemma EdgeCount_edge_count d :
  EdgeCount d = Z.of_nat (edge_count (heap d) (root :: (map_to_list (minimized d)).*2)).
Proof.
  unfold EdgeCount. rewrite edge_count_cons, length_kids.
  induction (map_to_list (minimized d)) as [|[k m] l IH]; simpl.
  - change (edge_count (heap d) []) with O. lia.
  - change (list_fmap _ _ snd l) with (l.*2).
    rewrite IH, edge_count_cons, length_kids. lia.
Qed.

(** X15: in every state the builder reaches, the nodes that can be
    reached from the root are the root, the nodes of the unchecked chain and
    the registered nodes, so their number is [NodeCount] plus the length of
    [unchecked]; on a finished automaton [NodeCount] is the number of
    reachable nodes. *)
Theorem NodeCount_reachable d :
  reachable d →
  ∃ nodes, NoDup nodes ∧ (∀ q, q ∈ nodes ↔ rtc (edge (heap d)) root q) ∧
    NodeCount d + Z.of_nat (length (unchecked d)) = Z.of_nat (length nodes).
Proof.
  intros Hd. destruct (reachable_GInv d Hd) as [reg HG].
  pose proof (reachable_reg_reachable d Hd) as HR.
  exists (path_nodes (unchecked d) ++ reg).
  split; [by apply known_nodup|]. split; [|by apply NodeCount_known].
  intros q. rewrite (reach_iff_known d reg HG HR), elem_of_app. unfold known. tauto.
Qed.

Lemma NodeCount_reachable_witness :
  reachable ex_dawg ∧
  ∃ nodes, NoDup nodes ∧ (∀ q, q ∈ nodes ↔ rtc (edge (heap ex_dawg)) root q) ∧
    NodeCount ex_dawg + Z.of_nat (length (unchecked ex_dawg)) = Z.of_nat (length nodes).
Proof.
  split; [exact reachable_ex_dawg|]. exact (NodeCount_reachable ex_dawg reachable_ex_dawg).
Defined.

(** X16: on a finished automaton [EdgeCount] is the number of edges
    between reachable nodes, which is the length of the array that
    [Flatten] returns. *)
Theorem EdgeCount_Flatten ws d :
  build ws = Ok d →
  ∃ arr, Flatten (length (heap d)) d = Some arr ∧ EdgeCount d = Z.of_nat (length arr).
Proof.
  intros Hb. assert (reachable d) as Hd by (right; by exists ws).
  destruct (finished_GInv ws d Hb) as (reg & HG & Hus & _).
  pose proof (finished_reach ws d Hb) as HR.
  destruct (reachable_Flatten_flat d Hd) as (order & Hnd & _ & Hiff & HF & _).
  exists (flat (heap d) order). split; [done|].
  rewrite length_flat, EdgeCount_edge_count. f_equal.
  apply edge_count_Permutation.
  rewrite (minimized_values d reg HG).
  apply NoDup_Permutation; [|done|].
  - pose proof (known_nodup d reg HG) as Hk. by rewrite Hus in Hk.
  - intros q. rewrite Hiff, (reach_iff_known d reg HG HR). unfold known.
    rewrite Hus. unfold path_nodes. simpl.
    rewrite elem_of_cons, list_elem_of_singleton. tauto.
Qed.

Lemma EdgeCount_Flatten_witness :
  build ex_words = Ok ex_dawg ∧
  ∃ arr, Flatten (length (heap ex_dawg)) ex_dawg = Some arr ∧
         EdgeCount ex_dawg = Z.of_nat (length arr).
Proof.
  split; [exact build_ex_dawg|]. exact (EdgeCount_Flatten ex_words ex_dawg build_ex_dawg).
Defined.

(** ** The order of the insertions *)

Lemma str_le_refl x : str_le x x = true.
Proof.
  induction x as [|a x IH]; simpl; [done|].
  destruct (N.ltb_spec a a); [done|]. by rewrite N.eqb_refl.
Qed.

Lemma str_le_total x : ∀ y, str_le x y = true ∨ str_le y x = true.
Proof.
  induction x as [|a x IH]; intros [|b y]; simpl; auto.
  destruct (N.ltb_spec a b), (N.ltb_spec b a), (N.eqb_spec a b), (N.eqb_spec b a);
    auto; lia.
Qed.

Lemma str_le_trans x : ∀ y z, str_le x y = true → str_le y z = true → str_le x z = true.
Proof.
  induction x as [|a x IH]; intros [|b y] [|c z]; simpl; try done.
  destruct (N.ltb_spec a b), (N.ltb_spec b c), (N.ltb_spec a c),
    (N.eqb_spec a b), (N.eqb_spec b c), (N.eqb_spec a c); try done; try lia.
  apply IH.
Qed.

Lemma str_le_antisym x : ∀ y, str_le x y = true → str_le y x = true → x = y.
Proof.
  induction x as [|a x IH]; intros [|b y]; simpl; try done.
  destruct (N.ltb_spec a b), (N.ltb_spec b a), (N.eqb_spec a b), (N.eqb_spec b a);
    try done; try lia.
  subst. intros H1 H2. f_equal. by apply IH.
Qed.

#[global] Instance str_le_rel_total : Total str_le_rel.
Proof. intros x y. apply str_le_total. Qed.

#[global] Instance str_le_rel_trans : Transitive str_le_rel.
Proof. intros x y z. apply str_le_trans. Qed.

Lemma str_lt_nil w : str_lt [] w = true ↔ w ≠ [].
Proof. unfold str_lt. destruct w; simpl; split; done. Qed.

Lemma str_lt_trans x y z : str_lt x y = true → str_lt y z = true → str_lt x z = true.
Proof.
  unfold str_lt. rewrite !negb_true_iff. intros Hxy Hyz.
  destruct (str_le z x) eqn:Hzx; [|done].
  destruct (str_le_total x y) as [Hle|Hle]; [|congruence].
  rewrite (str_le_trans z x y Hzx Hle) in Hyz. done.
Qed.

Lemma sorted_ascending l : ∀ prev,
  StronglySorted str_le_rel l → NoDup l → (∀ w, w ∈ l → str_lt prev w = true) →
  ascending prev l = true.
Proof.
  induction l as [|w l IH]; intros prev Hs Hnd Hp; simpl; [done|].
  apply StronglySorted_inv in Hs as [Hs Hw]. apply NoDup_cons in Hnd as [Hwl Hnd].
  rewrite Hp by (by left). simpl. apply IH; [done|done|].
  intros w' Hw'. rewrite Forall_forall in Hw. specialize (Hw w' Hw').
  unfold str_lt. apply negb_true_iff. destruct (str_le w' w) eqn:E; [|done].
  exfalso. apply Hwl. by rewrite (str_le_antisym w w' Hw E).
Qed.

Lemma ascending_inv l : ∀ prev,
  ascending prev l = true → NoDup l ∧ ∀ w, w ∈ l → str_lt prev w = true.
Proof.
  induction l as [|w l IH]; intros prev; simpl.
  - intros _. split; [constructor|]. intros w Hw. by apply not_elem_of_nil in Hw.
  - intros H. apply andb_true_iff in H as [Hpw Hasc].
    destruct (IH w Hasc) as [Hnd Hall]. split.
    + constructor; [|done]. intros Hin. specialize (Hall w Hin).
      unfold str_lt in Hall. by rewrite str_le_refl in Hall.
    + intros w' Hw'. apply elem_of_cons in Hw' as [->|Hw']; [done|].
      by apply (str_lt_trans prev w w'), Hall.
Qed.

Lemma insert_all_cases ws' :
  ∀ d reg ws, Inv d reg ws →
  if ascending (prevWord d) ws' then ∃ d', insert_all d ws' = Ok d'
  else insert_all d ws' = Panic ErrOrder.
Proof.
  induction ws' as [|w ws' IH]; intros d reg ws HI; simpl; [eauto|].
  unfold str_lt. destruct (str_le w (prevWord d)) eqn:Hle; simpl.
  - by rewrite (Insert_unordered d w Hle).
  - destruct (Insert_Inv d reg ws w HI Hle) as (d1 & reg1 & E & HI1).
    rewrite E. cbn [mbind result_bind].
    specialize (IH d1 reg1 _ HI1).
    by rewrite (i_prev _ _ _ HI1), last_snoc in IH.
Qed.

Lemma build_cases ws :
  if ascending [] ws then ∃ d, build ws = Ok d else build ws = Panic ErrOrder.
Proof.
  pose proof (insert_all_cases ws newDAWG [] [] Inv_newDAWG) as H. simpl in H.
  destruct (ascending [] ws) eqn:Hasc.
  - by apply build_ascending.
  - unfold build. by rewrite H.
Qed.

(** X17: building from a list of words succeeds exactly when the words
    are strictly ascending in byte order and none is empty; for every other
    list the builder stops with the ordering panic, never with another
    one. *)
Theorem build_iff_ascending ws :
  ((∃ d, build ws = Ok d) ↔ ascending [] ws = true) ∧
  ((∃ d, build ws = Ok d) ∨ build ws = Panic ErrOrder).
Proof.
  pose proof (build_cases ws) as H. destruct (ascending [] ws).
  - split; [|by left]. done.
  - split; [|by right]. split; [|done]. intros [d Hd]. congruence.
Qed.

(** ** [FromReader] *)

Lemma sort_strings_ascending words :
  ascending [] (sort_strings words) = true ↔ NoDup words ∧ [] ∉ words.
Proof.
  unfold sort_strings.
  pose proof (merge_sort_Permutation str_le_rel words) as HP. split.
  - intros H. apply ascending_inv in H as [Hnd Hall]. split; [by rewrite <- HP|].
    rewrite <- HP. intros Hin. specialize (Hall [] Hin). done.
  - intros [Hnd Hne]. apply sorted_ascending.
    + apply (StronglySorted_merge_sort str_le_rel).
    + by rewrite HP.
    + intros w Hw. apply str_lt_nil. intros ->. apply Hne. by rewrite <- HP.
Qed.

Lemma FromReader_build {E : Type} words :
  FromReader (E := E) words None =
  match build (sort_strings words) with
  | Ok d => Ok (inl d)
  | Panic e => Panic e
  end.
Proof.
  unfold FromReader, build.
  destruct (insert_all newDAWG (sort_strings words)) as [d|e]; [|done].
  cbn [mbind result_bind]. by destruct (Finish d).
Qed.

(** X18: when the reader yields pairwise distinct, non-empty lines without
    an error, in whatever order, [FromReader] returns an automaton, and
    [Lookup] on it is true exactly for these lines. *)
Theorem FromReader_accepts {E : Type} words :
  NoDup words → [] ∉ words →
  ∃ d, FromReader (E := E) words None = Ok (inl d) ∧
       ∀ w, Lookup d w = true ↔ w ∈ words.
Proof.
  intros Hnd Hne. rewrite FromReader_build.
  assert (ascending [] (sort_strings words) = true) as Hasc
    by (by apply sort_strings_ascending).
  destruct (build_ascending _ Hasc) as [d Hd]. rewrite Hd. exists d. split; [done|].
  intros w. rewrite (Lookup_built (sort_strings words) d (or_intror Hd)).
  unfold sort_strings. by rewrite (merge_sort_Permutation str_le_rel words).
Qed.

Lemma FromReader_accepts_witness :
  NoDup [bytes "at"; bytes "a"; bytes "as"] ∧
  ([] ∉ [bytes "at"; bytes "a"; bytes "as"]) ∧
  ∃ d, FromReader (E := unit) [bytes "at"; bytes "a"; bytes "as"] None = Ok (inl d) ∧
       ∀ w, Lookup d w = true ↔ w ∈ [bytes "at"; bytes "a"; bytes "as"].
Proof.
  assert (NoDup [bytes "at"; bytes "a"; bytes "as"]) as Hnd
    by (apply (bool_decide_unpack _); vm_compute; exact I).
  assert ([] ∉ [bytes "at"; bytes "a"; bytes "as"]) as Hne
    by (apply (bool_decide_unpack _); vm_compute; exact I).
  split; [exact Hnd|]. split; [exact Hne|].
  exact (FromReader_accepts _ Hnd Hne).
Defined.

(** X19: a line that occurs twice, or an empty line, makes [FromReader]
    stop with the ordering panic of [Insert], although its documentation
    only says that the lines need not be sorted. *)
Theorem FromReader_panics {E : Type} words :
  (¬ NoDup words) ∨ [] ∈ words →
  FromReader (E := E) words None = Panic ErrOrder.
Proof.
  intros Hbad. rewrite FromReader_build.
  pose proof (build_cases (sort_strings words)) as H.
  destruct (ascending [] (sort_strings words)) eqn:Hasc; [|by rewrite H].
  apply sort_strings_ascending in Hasc as [Hnd Hne]. by destruct Hbad.
Qed.

Lemma FromReader_panics_witness :
  ((¬ NoDup [bytes "b"; bytes "a"; bytes "b"]) ∨ [] ∈ [bytes "b"; bytes "a"; bytes "b"]) ∧
  FromReader (E := unit) [bytes "b"; bytes "a"; bytes "b"] None = Panic ErrOrder.
Proof.
  assert (¬ NoDup [bytes "b"; bytes "a"; bytes "b"]) as Hd
    by (apply (bool_decide_unpack _); vm_compute; exact I).
  split; [left; exact Hd|]. exact (FromReader_panics _ (or_introl Hd)).
Defined.

(** ** The child indices of the flattened array *)

Lemma EOL_last_entry h ci a :
  kids h a ≠ [] →
  ∃ e, entries h ci a !! (length (kids h a) - 1)%nat = Some e ∧ ArrayNode.EOL e = true.
Proof.
  intros Hne. unfold entries, kids in *. rewrite length_fmap in *.
  set (es := out_edges h a) in *.
  assert (0 < length es)%nat as Hlen.
  { destruct es; [done|simpl; lia]. }
  destruct (lookup_lt_is_Some_2 es (length es - 1)%nat ltac:(lia)) as [e He].
  exists (entry_of h ci (length es) (length es - 1) e).
  rewrite list_lookup_imap, He. split; [done|]. simpl.
  apply bool_decide_eq_true. lia.
Qed.

Lemma block_end h ci l :
  (0 < edge_count h l)%nat →
  ∃ e, concat (entries h ci <$> l) !! (edge_count h l - 1)%nat = Some e ∧
       ArrayNode.EOL e = true.
Proof.
  induction l as [|a l IH] using rev_ind; [unfold edge_count; simpl; lia|].
  assert (edge_count h (l ++ [a]) = (edge_count h l + length (kids h a))%nat) as Ec.
  { unfold edge_count. rewrite fmap_app, concat_app, length_app. simpl.
    by rewrite app_nil_r. }
  rewrite Ec, fmap_app, concat_app. simpl. rewrite app_nil_r. intros Hpos.
  pose proof (length_flat_prefix h ci l) as Hlen.
  destruct (kids h a) as [|c cs] eqn:Ek.
  - simpl in *. rewrite Nat.add_0_r in *. destruct (IH Hpos) as (e & He & HE).
    exists e. split; [|done]. rewrite lookup_app_l by lia. done.
  - destruct (EOL_last_entry h ci a) as (e & He & HE); [by rewrite Ek|].
    exists e. split; [|done]. rewrite Ek in He. cbn [length] in *.
    rewrite lookup_app_r by lia.
    rewrite <- He, Hlen. f_equal. lia.
Qed.

Lemma elem_of_flat h order ci i e :
  concat (entries h ci <$> order) !! i = Some e →
  ∃ a k c, a ∈ order ∧ C (deref h a) !! k = Some c ∧ ArrayNode.Index e = ci c.
Proof.
  intros Hi. apply list_elem_of_lookup_2 in Hi.
  apply elem_of_concat in Hi as (es & Hes & He).
  apply list_elem_of_fmap in Hes as (a & -> & Ha).
  unfold entries in He. apply list_elem_of_lookup in He as [j Hj].
  rewrite list_lookup_imap in Hj.
  destruct (out_edges h a !! j) as [[k c]|] eqn:Ej; [|done].
  injection Hj as <-. exists a, k, c. split; [done|]. split; [|done].
  apply list_elem_of_lookup_2 in Ej. unfold out_edges in Ej.
  apply list_elem_of_fmap in Ej as (k' & [= -> ->] & Hk).
  apply elem_of_sortedKeys in Hk as [c Hc]. by rewrite Hc.
Qed.

Lemma Flatten_index_facts d fuel arr i e :
  reachable d → Flatten fuel d = Some arr → arr !! i = Some e →
  0 ≤ ArrayNode.Index e < Z.of_nat (length arr) ∧
  (ArrayNode.Index e ≠ 0 →
   ∃ e', arr !! Z.to_nat (ArrayNode.Index e - 1) = Some e' ∧ ArrayNode.EOL e' = true) ∧
  (∃ e', last arr = Some e' ∧ ArrayNode.EOL e' = true).
Proof.
  intros Hd HF Hi.
  destruct (reachable_Flatten_flat d Hd) as (order & Hnd & Hbfs & Hiff & _ & Huniq).
  apply Huniq in HF. subst arr. set (h := heap d) in *.
  pose proof (lookup_lt_Some _ _ _ Hi) as Hlt.
  pose proof (length_flat h order) as Hlen.
  assert (∃ e', last (flat h order) = Some e' ∧ ArrayNode.EOL e' = true) as Hlast.
  { destruct (block_end h (child_index h order) order) as (e' & He' & HE); [lia|].
    exists e'. split; [|done]. rewrite last_lookup. fold (flat h order) in He'.
    rewrite <- He'. f_equal. lia. }
  unfold flat in Hi.
  destruct (elem_of_flat h order _ i e Hi) as (a & k & c & Ha & Hc & ->).
  unfold child_index. destruct (has_children h c) eqn:Hhc.
  2:{ split; [lia|]. split; [done|exact Hlast]. }
  assert (c ∈ order) as Hcin.
  { apply Hiff. eapply rtc_r; [by apply Hiff|]. by exists k. }
  assert (kids h c ≠ []) as Hk.
  { unfold has_children in Hhc. apply bool_decide_eq_true in Hhc.
    intros E. pose proof (length_kids h c) as Hl. rewrite E in Hl. simpl in Hl. lia. }
  apply list_elem_of_lookup in Hcin as [j Hj].
  pose proof (offset_lookup h order j c Hnd Hj) as Hoff.
  assert (edge_count h order
          = (edge_count h (take j order) + length (kids h c)
             + edge_count h (drop (S j) order))%nat) as Esplit.
  { rewrite <- (take_drop_middle _ _ _ Hj) at 1. unfold edge_count.
    rewrite fmap_app, concat_app, length_app, fmap_cons. cbn [concat].
    rewrite length_app. lia. }
  assert (0 < length (kids h c))%nat by (destruct (kids h c); [done|simpl; lia]).
  split; [rewrite Hoff; lia|]. split; [|exact Hlast].
  intros Hne. rewrite Hoff in *.
  destruct (block_end h (child_index h order) (take j order)) as (e' & He' & HE); [lia|].
  exists e'. split; [|done].
  replace (Z.to_nat (Z.of_nat (edge_count h (take j order)) - 1))
    with (edge_count h (take j order) - 1)%nat by lia.
  set (ci := child_index h order) in *.
  assert (flat h order = concat (entries h ci <$> take j order)
                         ++ concat (entries h ci <$> drop j order)) as ->.
  { unfold flat. fold ci. by rewrite <- concat_app, <- fmap_app, take_drop. }
  rewrite lookup_app_l; [done|].
  rewrite length_flat_prefix. lia.
Qed.

(** X20: in the array that [Flatten] returns for an automaton built by
    [Insert] and [Finish], every child index lies within the array; a child
    index other than 0 points just behind an entry with the end-of-list
    flag, so it is the start of a list of entries; and the last entry of
    the array carries the end-of-list flag. *)
Theorem Flatten_indexes d fuel arr i e :
  reachable d → Flatten fuel d = Some arr → arr !! i = Some e →
  0 ≤ ArrayNode.Index e < Z.of_nat (length arr) ∧
  (ArrayNode.Index e ≠ 0 →
   ∃ e', arr !! Z.to_nat (ArrayNode.Index e - 1) = Some e' ∧ ArrayNode.EOL e' = true) ∧
  (∃ e', last arr = Some e' ∧ ArrayNode.EOL e' = true).
Proof. apply Flatten_index_facts. Qed.

Lemma Flatten_indexes_witness :
  reachable ex_dawg ∧
  Flatten (length (heap ex_dawg)) ex_dawg = Some ex_array ∧
  ex_array !! 0%nat = Some (ArrayNode.mk 1 97 true true) ∧
  0 ≤ 1 < Z.of_nat (length ex_array).
Proof.
  assert (Flatten (length (heap ex_dawg)) ex_dawg = Some ex_array) as HF
    by (vm_compute; reflexivity).
  assert (ex_array !! 0%nat = Some (ArrayNode.mk 1 97 true true)) as H0
    by (vm_compute; reflexivity).
  split; [exact reachable_ex_dawg|]. split; [exact HF|]. split; [exact H0|].
  exact (proj1 (Flatten_indexes ex_dawg _ ex_array 0 _ reachable_ex_dawg HF H0)).
Defined.

(** ** The registry of [minimize] *)

(** X21: the registry stays consistent while the automaton is built: every
    entry of [minimized] is stored under the signature that [key] computes
    for its node now, so no registered node has been changed since, and
    the node is in use: it can be reached from the root. *)
Theorem registry_consistent d k m :
  reachable d → minimized d !! k = Some m →
  key (heap d) (deref (heap d) m) = Ok k ∧ rtc (edge (heap d)) root m.
Proof.
  intros Hd Hm. destruct (reachable_GInv d Hd) as [reg HG].
  split; [by apply (g_min_key _ _ HG)|].
  by apply (reachable_reg_reachable d Hd k).
Qed.

Lemma registry_consistent_witness :
  reachable ex_dawg ∧ minimized ex_dawg !! [49%N; 95%N] = Some 3%nat ∧
  key (heap ex_dawg) (deref (heap ex_dawg) 3%nat) = Ok [49%N; 95%N] ∧
  rtc (edge (heap ex_dawg)) root 3%nat.
Proof.
  assert (minimized ex_dawg !! [49%N; 95%N] = Some 3%nat) as Hm by (vm_compute; reflexivity).
  split; [exact reachable_ex_dawg|]. split; [exact Hm|].
  exact (registry_consistent ex_dawg _ 3%nat reachable_ex_dawg Hm).
Defined.

(** ** [PrintDOT]: the labels of the edges *)

(** X22: the labels that [PrintDOT] writes tell the bytes apart: two
    different bytes never get the same label. *)
Theorem dot_label_injective (b1 b2 : N) :
  (b1 < 256)%N → (b2 < 256)%N → b1 ≠ b2 → dot_label b1 ≠ dot_label b2.
Proof.
  intros H1 H2 Hne E. apply Hne.
  assert (forallb (λ n1, forallb (λ n2,
            implb (bool_decide (dot_label (N.of_nat n1) = dot_label (N.of_nat n2)))
                  (n1 =? n2)%nat) (List.seq 0 256)) (List.seq 0 256) = true) as Hall
    by (vm_compute; reflexivity).
  rewrite forallb_forall in Hall.
  specialize (Hall (N.to_nat b1)). rewrite forallb_forall in Hall.
  specialize (Hall ltac:(apply in_seq; lia) (N.to_nat b2) ltac:(apply in_seq; lia)).
  rewrite !N2Nat.id in Hall. rewrite bool_decide_eq_true_2 in Hall by done.
  simpl in Hall. apply Nat.eqb_eq in Hall. lia.
Qed.

Lemma dot_label_injective_witness :
  (10 < 256)%N ∧ (34 < 256)%N ∧ 10%N ≠ 34%N ∧ dot_label 10 ≠ dot_label 34.
Proof.
  assert (10%N ≠ 34%N) as Hne by lia.
  split; [lia|]. split; [lia|]. split; [exact Hne|].
  apply (dot_label_injective 10 34); [lia|lia|exact Hne].
Defined.

(** ** [stringutil.StringArgsToBytesArgs] *)

Lemma fill_from (l : list (list N)) : ∀ pre rest : list (list N),
  length rest = length l →
  foldl (λ a kv, <[kv.1 := kv.2]> a) (pre ++ rest)
        (imap (λ i v, ((length pre + i)%nat, v)) l) = pre ++ l.
Proof.
  induction l as [|v l IH]; intros pre rest Hlen.
  - destruct rest; [done|simpl in Hlen; lia].
  - destruct rest as [|r rest]; [simpl in Hlen; lia|].
    cbn [imap foldl fst snd]. rewrite Nat.add_0_r.
    rewrite insert_app_r_alt by lia. rewrite Nat.sub_diag. cbn [insert list_insert].
    replace (pre ++ v :: rest) with ((pre ++ [v]) ++ rest) by (by rewrite <- app_assoc).
    replace (pre ++ v :: l) with ((pre ++ [v]) ++ l) by (by rewrite <- app_assoc).
    rewrite <- (IH (pre ++ [v]) rest) by (simpl in Hlen; lia).
    f_equal. apply imap_ext. intros i x _. simpl. rewrite length_app. simpl.
    f_equal. lia.
Qed.

(** X23: [StringArgsToBytesArgs] returns a slice of the length of its
    argument whose element at every index holds the bytes of the string at
    that index, in order. *)
Theorem StringArgsToBytesArgs_bytes args :
  length (StringArgsToBytesArgs args) = length args ∧
  ∀ k, StringArgsToBytesArgs args !! k = args !! k.
Proof.
  assert (StringArgsToBytesArgs args = args) as ->; [|done].
  unfold StringArgsToBytesArgs.
  pose proof (fill_from args [] (replicate (length args) [])) as H.
  simpl in H. rewrite <- H at 3 by apply length_replicate. done.
Qed.

(** ** Package [main]: the loop of [sum] *)

Section SumLoop.

Variable bits : Z.
Hypothesis Hbits : 0 < bits.

Lemma pow2_bits : 2 ^ bits = 2 * 2 ^ (bits - 1) ∧ 0 < 2 ^ (bits - 1).
Proof.
  split; [|apply Z.pow_pos_nonneg; lia].
  replace bits with (Z.succ (bits - 1)) at 1 by lia. apply Z.pow_succ_r. lia.
Qed.

Lemma wrap_add a v : Main.wrap bits (Main.wrap bits a + v) = Main.wrap bits (a + v).
Proof.
  unfold Main.wrap.
  replace ((a + 2 ^ (bits - 1)) mod 2 ^ bits - 2 ^ (bits - 1) + v + 2 ^ (bits - 1))
    with ((a + 2 ^ (bits - 1)) mod 2 ^ bits + v) by lia.
  rewrite Zplus_mod_idemp_l. f_equal. f_equal. lia.
Qed.

Lemma wrap_0 : Main.wrap bits 0 = 0.
Proof.
  unfold Main.wrap. destruct pow2_bits as [E Hpos].
  rewrite Z.add_0_l, Z.mod_small by lia. lia.
Qed.

Lemma sum_loop_from s : ∀ a,
  foldl (λ acc v, Main.wrap bits (acc + v)) (Main.wrap bits a) s
  = Main.wrap bits (a + total s).
Proof.
  induction s as [|v s IH]; intros a; simpl.
  - by rewrite Z.add_0_r.
  - rewrite wrap_add, IH. f_equal. lia.
Qed.

Lemma sum_loop_total s :
  Main.sum_loop bits s = Main.wrap bits (total s) ∧
  - 2 ^ (bits - 1) ≤ Main.sum_loop bits s < 2 ^ (bits - 1) ∧
  (Main.sum_loop bits s - total s) mod 2 ^ bits = 0 ∧
  (- 2 ^ (bits - 1) ≤ total s < 2 ^ (bits - 1) → Main.sum_loop bits s = total s).
Proof.
  assert (Main.sum_loop bits s = Main.wrap bits (total s)) as E.
  { unfold Main.sum_loop. rewrite <- wrap_0 at 1. rewrite sum_loop_from. by rewrite Z.add_0_l. }
  rewrite E. split; [done|]. unfold Main.wrap. destruct pow2_bits as [E2 Hpos].
  pose proof (Z.mod_pos_bound (total s + 2 ^ (bits - 1)) (2 ^ bits) ltac:(lia)).
  split; [lia|]. split.
  - rewrite (Z.mod_eq (total s + 2 ^ (bits - 1)) (2 ^ bits)) by lia.
    replace (total s + 2 ^ (bits - 1)
             - 2 ^ bits * ((total s + 2 ^ (bits - 1)) / 2 ^ bits)
             - 2 ^ (bits - 1) - total s)
      with ((- ((total s + 2 ^ (bits - 1)) / 2 ^ bits)) * 2 ^ bits) by lia.
    apply Z_mod_mult.
  - intros Hr. rewrite Z.mod_small by lia. lia.
Qed.

End SumLoop.

(** X24: whatever the width of [int], the value that [sum] holds when it
    reaches its send statement is the sum of the elements of the slice
    reduced to that width in two's complement, whatever the intermediate
    overflows were: it is in the range of [int], differs from the exact sum
    by a multiple of two to the width, and is the exact sum when that
    fits. *)
Theorem sum_loop_wraps bits s :
  0 < bits →
  Main.sum_loop bits s = Main.wrap bits (total s) ∧
  - 2 ^ (bits - 1) ≤ Main.sum_loop bits s < 2 ^ (bits - 1) ∧
  (Main.sum_loop bits s - total s) mod 2 ^ bits = 0 ∧
  (- 2 ^ (bits - 1) ≤ total s < 2 ^ (bits - 1) → Main.sum_loop bits s = total s).
Proof. intros H. by apply sum_loop_total. Qed.

Lemma sum_loop_wraps_witness :
  0 < 64 ∧
  Main.sum_loop 64 [9223372036854775807; 1; -5]
  = Main.wrap 64 (total [9223372036854775807; 1; -5]) ∧
  Main.sum_loop 64 [9223372036854775807; 1; -5] = total [9223372036854775807; 1; -5].
Proof.
  assert (0 < 64) as H by lia. split; [exact H|].
  destruct (sum_loop_wraps 64 [9223372036854775807; 1; -5] H) as (E & _ & _ & Hfit).
  split; [exact E|]. apply Hfit. cbv [total foldr]. lia.
Defined.
